(* ===== verification/_CoqProject ===== *)
-Q . S2P
Prelude.v
Ctype.v
CString.v
QualifiedName.v
Quoting.v
ParseIdent.v
SimpleName.v
Totality.v
Machine.v
DbmsAssert.v
Encoder.v
Catalog.v
Fmgr.v
