(* ===== verification/Prelude.v ===== *)
(** * Verification of orafce's DBMS_ASSERT package (src/assert.c)

    ** The program

    [src/assert.c] is the PostgreSQL extension module that implements
    Oracle's DBMS_ASSERT package: seven SQL functions that validate or
    quote text before it is spliced into dynamic SQL.  Its parts are

    - [ParseIdentifierString] (lines 50-121), the tokenizer of a possibly
      qualified, possibly quoted SQL name.  The quote-pair scanner is the
      [for (;;)] loop of lines 72-82, which collapses a doubled quote in
      place with [memmove];
    - [check_sql_name] (lines 286-316), the validator of one simple name,
      on the bytes of a datum with a C [int] counter;
    - the four validating functions [dbms_assert_qualified_sql_name],
      [dbms_assert_simple_sql_name], [dbms_assert_schema_name] and
      [dbms_assert_object_name], with the four exception macros of lines
      23-38 and [EMPTY_STR] of line 40;
    - [dbms_assert_noop], [dbms_assert_enquote_literal] and
      [dbms_assert_enquote_name], which copy or hand over to the host;
    - the seven registrations [PG_FUNCTION_INFO_V1] of lines 14-20 and
      the macros through which each function reads the call record of
      the server and returns its result;
    - what the file calls and does not define: the C library ([isspace],
      [isalnum], [strchr], [strlen], [memmove]) and PostgreSQL (name-list
      splitting, catalog lookup, privilege test, quoting, case folding).

    ** The development, file by file

    - [Prelude] (this file): the monad in which the C code is written, its
      notation and laws; [keeps], the invariants of a computation, with
      the tactic [keeps_steps]; [halts], the runs that do not exhaust
      their fuel, with a postcondition on the state they leave; the hint
      database [orafce], the tactics [solve_app], [solve_length] and
      [by_compute], and the lemmas on [take_while] and [drop_while] the
      components share.
    - [Ctype]: the characters the code names ([NUL], [DQ], [SQ], [DOT],
      [UNDERSCORE]) and the class [Ctype], the interface of the
      locale-dependent classifiers [isspace] and [isalnum] with the laws
      the proofs use; the "C" locale is the instance [C_locale], and
      [Latin1_locale] is a locale with national letters.  The theorems on
      the parser and the validator hold for every instance.
    - [CString]: buffers and pointers.  A pointer is an offset ([nat]) into
      one buffer ([list ascii]); [load], [strchr], [strlen] and [memmove]
      give the fault [OutOfBounds] instead of touching memory outside the
      buffer.  [cstr_at b p s] says that the NUL-terminated string [s]
      starts at offset [p] of [b]; [terminators_kept] relates a buffer to
      one of the same size in which its terminators are still there;
      [same_string] is the partial equivalence of the buffers that hold
      the same string.
    - [QualifiedName]: what a qualified name is, without buffers: the
      record [NamePart], the grammar [qualified] as an inductive relation,
      the reference parser [parse_qualified] on lists (the scanner
      [unquote], the scan [scan_unquoted], the step [parse_sep]), the
      proof that the parser decides the grammar, that a string has at most
      one reading, that printing then parsing gives the parts back, that
      a qualified name neither starts nor ends with a dot, and that a
      string is rejected when a name is missing at its start or after one
      of its dots ([dotted]).
    - [Quoting]: quoting by doubling, as the specification describes the
      encoders of the host: [double] and [quoted] for an arbitrary quote
      character, their inverses [undouble] and [unquoted], and [tolower],
      with the round trips and the interplay of folding and doubling.
    - [ParseIdent]: [ParseIdentifierString] as the C code is written, one
      definition per loop ([skip_space], [scan_quoted], [scan_name],
      [name_loop]) and per half of the loop body ([parse_one],
      [after_name]).  Theorems: on every NUL-terminated buffer the function
      stays inside the buffer and returns; its result is that of
      [parse_qualified], hence membership in the grammar; the bytes left
      between [curname] and [endp] are the texts of the parts; the size of
      the buffer never changes; verdict and names respect [same_string]
      ([Proper] instances): the bytes after the terminator do not matter.
    - [SimpleName]: [check_sql_name], its two loops ([quoted_loop],
      [unquoted_loop]) with the counter [len] in [Z].  [quote_walk] and
      [accepts_quoted] are the quoted branch on lists, [is_simple_name] is
      the validator the specification describes.  Theorems: no read
      outside the datum except on the name that is a lone quote; exactly
      which quoted names are accepted; agreement with the specification on
      quoted names without inner quotes; the two families of names on
      which code and specification differ; the datum is never written.
    - [Totality]: the two functions on arbitrary memory, by the rules of
      [halts].  Theorems: every call of [ParseIdentifierString] and of
      [check_sql_name] ends, with a verdict or with a read outside the
      buffer, whatever the buffer holds and whatever the counter is; the
      collapses of the parser write over no terminator, so that a buffer
      that holds a C string holds one afterwards.
    - [Machine]: [check_sql_name] a second time, as a transition relation
      [step] between the program points of the function ([state]: the
      entry, the test of each loop, the test after the quoted loop, the
      two ways to end).  Theorems, by induction on the rules: the relation
      is deterministic and never stuck before a final state; the invariant
      [inv] bounds the counter and the pointer; the only reads outside the
      datum are those of the empty datum and of the lone quote; every
      state reaches a final one within [measure] transitions; the
      relation and the function of [SimpleName] describe the same runs.
    - [DbmsAssert]: the seven SQL functions.  The class [Host] lists the
      PostgreSQL functions they call; [Outcome] is how a call ends
      ([Returned], [Raised] with one of the four errors of [ErrorKind],
      [HostRaised] by the host, [Faulted]).  Theorems, for every host:
      which arguments each function returns, copy-through, the error each
      function raises, the single faulting argument, the rejection of
      names that start or end with a dot or lack a name after a dot, the
      dependence of [simple_sql_name] on the locale.  [toy_host] is a
      small instance for the concrete examples: three schemas, one
      table, and the parser of the package for name parser.
    - [Encoder]: the two quoting functions together with the validators.
      The class [QuotingHost] is the contract of [quote_literal],
      [quote_ident] and [lower], in the terms of [Quoting]; [toy_host] is
      an instance.  Theorems, for every such host: [qualified_sql_name]
      accepts what [enquote_name] returns and the parser reads the name
      back; with [loweralize] the name read back is the folded one;
      [simple_sql_name] accepts the encoding of a name without double
      quote and rejects that of a name with one inside; the literal of
      [enquote_literal] for a text without backslash is the one text
      that decodes to it.
    - [Catalog]: [schema_name] and [object_name] together with the
      grammar and the encoder.  The class [CatalogHost] is the contract
      of the name parser of the host: on a name of the grammar whose
      parts are shorter than [NAMEDATALEN] it returns the identifiers of
      the parts ([ident_of]: the text of a quoted part, the folded text
      of an unquoted one); [toy_host] is an instance.  [usable] is the
      lookup and the two tests of lines 259-267.  Theorems, for every
      such host: [schema_name] returns a name of the grammar exactly
      when it has one part and the identifier of that part is a usable
      schema; [object_name] resolves the identifiers of the parts; both
      read back, from what [enquote_name] returns, the name it was
      given.
    - [Fmgr]: the calling convention.  [SqlFunction] has one constructor
      for each registration of lines 14-20; [FunctionCallInfoData] is the
      call record (the slots [arg] with the flags [argnull]), [Datum] a
      pointer to a text, possibly null, or a [bool]; [call] is each of
      the seven functions on a call record, with the fetches of the
      code: the validating functions test [PG_ARGISNULL] before they
      read the slot ([guarded]), the others do not ([unguarded]).
      Theorems: what the flag decides, the ways in which a call with a
      text for argument can end, and that the datum a call of
      [enquote_name] returns passes a call of [qualified_sql_name].

    ** How state and effects are modelled

    C code is written in [prog S R A]: a state-passing computation over
    the buffer [S] that continues with a value ([Next]), executes the C
    statement [return r] ([Return], which skips the rest of the function),
    or faults ([Fault]).  A fault is [OutOfBounds], an access outside the
    buffer, or [OutOfFuel], the bound of a loop exhausted.  [run] turns a
    function body into its [result], [Done r] or [Crash f].  A raised
    PostgreSQL error does not return to the caller: in [DbmsAssert] the
    first failing guard decides the outcome.

    ** Fuel

    Every C loop is a [Fixpoint] on a fuel counter.  [ParseIdentifierString]
    runs with [S (length buffer)] and [check_sql_name] with
    [S (Z.to_nat len)].  This is enough: each iteration of the parser
    moves [nextp] forward or shortens the string by one byte, and each
    iteration of the validator consumes a unit of [len].  The theorems
    state results as [Done r], so none of them holds of a run that ends in
    [OutOfFuel]; [ParseIdentifierString_fuel] shows the result is the same
    for every larger bound, and the two theorems of [Totality] that no
    run ends in [OutOfFuel], on well-formed input or not.  The machine of
    [Machine] has no fuel: its runs are finite because [measure]
    decreases at every transition.

    ** Not modelled

    Of the function manager: detoasting, the bit layout of the header of
    a [text] (a text is its payload bytes, [VARSIZE] their number plus
    [VARHDRSZ]), [palloc] and the memory contexts, and the SQL
    declarations of the functions, which are not under [src/]: whether
    the server calls a function with a NULL argument at all is decided
    there.  The bodies of the host functions: they are the fields of
    [Host].  The quoting functions have the contract [QuotingHost],
    taken from the specification (it leaves open the literal of a text
    with a backslash, and which bytes the case folding of the locale
    changes); the name parser has the contract [CatalogHost], which says
    nothing of the strings outside the grammar of the package (the
    parser of the server accepts more) nor of the names of
    [NAMEDATALEN] bytes or more (the server truncates them).  The
    catalog lookup, the privilege test and the resolution of a relation
    have no contract: they read the state of a database, and the
    theorems on [schema_name] and [object_name] are stated in terms of
    what they answer.  The SQLSTATE values of the four errors, which
    [orafunc.h] defines.  The signedness of [char] in the calls of
    [isalnum].  The rest of [src/assert.c] is comments, include
    directives and prototypes. *)

From Stdlib Require Export Ascii String ZArith Lia.
From stdpp Require Export base tactics decidable option list.
From stdpp Require Export strings.

(** Equality tests on characters stay folded under [simpl]. *)
#[global] Arguments ascii_dec : simpl never.

(** ** Faults, outcomes and the execution monad *)

Inductive fault : Set := OutOfBounds | OutOfFuel.

#[export] Instance fault_eq_dec : EqDecision fault.
Proof. solve_decision. Defined.

Inductive outcome (R A : Type) : Type :=
| Next (a : A)
| Return (r : R)
| Fault (f : fault).

Arguments Next {R A} a.
Arguments Return {R A} r.
Arguments Fault {R A} f.

Definition prog (S R A : Type) : Type := S → outcome R (A * S).

Definition pret {S R A} (a : A) : prog S R A := λ s, Next (a, s).

Definition pbind {S R A B} (m : prog S R A) (k : A → prog S R B) : prog S R B :=
  λ s, match m s with
       | Next (a, s') => k a s'
       | Return r => Return r
       | Fault f => Fault f
       end.

(** The C statement [return r]. *)
Definition preturn {S R A} (r : R) : prog S R A := λ _, Return r.

Definition pfault {S R A} (f : fault) : prog S R A := λ _, Fault f.

Definition pget {S R} : prog S R S := λ s, Next (s, s).

Definition pput {S R} (s : S) : prog S R unit := λ _, Next (tt, s).

(** What a call of a C function gives its caller. *)
Inductive result (R : Type) : Type :=
| Done (r : R)
| Crash (f : fault).

Arguments Done {R} r.
Arguments Crash {R} f.

#[export] Instance result_eq_dec `{EqDecision R} : EqDecision (result R).
Proof. solve_decision. Defined.

(** A function body falls off its end with the value it computed or leaves
    through [return]; both give the caller that value. *)
Definition run {S R} (m : prog S R R) (s : S) : result R :=
  match m s with
  | Next (r, _) => Done r
  | Return r => Done r
  | Fault f => Crash f
  end.

(** The state a body leaves behind, whichever way it ended. *)
Definition final_state {S R A} (m : prog S R A) (s : S) : option S :=
  match m s with
  | Next (_, s') => Some s'
  | _ => None
  end.

Declare Scope prog_scope.
Delimit Scope prog_scope with prog.
Bind Scope prog_scope with prog.

Notation "x <- m ;; k" := (pbind m (λ x, k))
  (at level 20, m at level 99, k at level 200, only parsing) : prog_scope.
Notation "' x <- m ;; k" := (pbind m (λ x, k))
  (at level 20, x pattern, m at level 99, k at level 200, only parsing) : prog_scope.

(** ** Scanning a list with a boolean test *)

Fixpoint take_while {A} (f : A → bool) (l : list A) : list A :=
  match l with
  | [] => []
  | x :: l' => if f x then x :: take_while f l' else []
  end.

Fixpoint drop_while {A} (f : A → bool) (l : list A) : list A :=
  match l with
  | [] => []
  | x :: l' => if f x then drop_while f l' else l
  end.

(** [l] is empty or starts with an element that fails [f]. *)
Definition stops_at {A} (f : A → bool) (l : list A) : Prop :=
  match l with
  | [] => True
  | x :: _ => f x = false
  end.

(** The text of a string literal, as the list of its characters. *)
Definition txt (s : string) : list ascii := list_ascii_of_string s.

(** Lists built with [++] and [::], brought to right-nested form. *)
Ltac app_norm :=
  repeat (progress (simpl; rewrite <- ?app_assoc, ?app_nil_r; simpl)).
Ltac solve_app := by app_norm.

(** Arithmetic on the lengths of such lists. *)
Ltac solve_length :=
  repeat (rewrite ?length_app, ?length_take, ?length_drop in *; simpl in * ); lia.

(** Two normal outcomes that differ by arithmetic on their components. *)
(** Closes a decidable goal without variables by evaluation. *)
Ltac by_compute := apply (bool_decide_unpack _); vm_compute; exact I.

Ltac solve_next :=
  unfold pret; simpl in *;
  repeat match goal with
         | |- Next _ = Next _ => f_equal
         | |- (_, _) = (_, _) => f_equal
         end; try done; lia.

Create HintDb orafce discriminated.
Create Rewrite HintDb orafce.

(** ** Laws of the monad *)

Section Monad.
Context {S R : Type}.

Lemma pbind_pret_l {A B} (a : A) (k : A → prog S R B) s :
  pbind (pret a) k s = k a s.
Proof. reflexivity. Qed.

Lemma pbind_pret_r {A} (m : prog S R A) s : pbind m pret s = m s.
Proof. unfold pbind, pret. by destruct (m s) as [[]| |]. Qed.

Lemma pbind_assoc {A B C} (m : prog S R A) (k : A → prog S R B)
    (h : B → prog S R C) s :
  pbind (pbind m k) h s = pbind m (λ a, pbind (k a) h) s.
Proof. unfold pbind. by destruct (m s) as [[]| |]. Qed.

(** The three ways a bound computation can go, as rewriting rules. *)
Lemma pbind_Next {A B} (m : prog S R A) (k : A → prog S R B) s a s' :
  m s = Next (a, s') → pbind m k s = k a s'.
Proof. unfold pbind. by intros ->. Qed.

Lemma pbind_Return {A B} (m : prog S R A) (k : A → prog S R B) s r :
  m s = Return r → pbind m k s = Return r.
Proof. unfold pbind. by intros ->. Qed.

Lemma pbind_Fault {A B} (m : prog S R A) (k : A → prog S R B) s f :
  m s = Fault f → pbind m k s = Fault f.
Proof. unfold pbind. by intros ->. Qed.

Lemma run_Next (m : prog S R R) s r s' : m s = Next (r, s') → run m s = Done r.
Proof. unfold run. by intros ->. Qed.

Lemma run_Return (m : prog S R R) s r : m s = Return r → run m s = Done r.
Proof. unfold run. by intros ->. Qed.

Lemma run_Fault (m : prog S R R) s f : m s = Fault f → run m s = Crash f.
Proof. unfold run. by intros ->. Qed.

End Monad.

(** ** Invariants of a computation *)

Section Keeps.
Context {S R : Type} (I : relation S) `{!PreOrder I}.

(** [m] keeps [I]: a state in which [m] continues is related by [I] to
    the state in which it started. *)
Definition keeps {A} (m : prog S R A) : Prop :=
  ∀ s a s', m s = Next (a, s') → I s s'.

Lemma keeps_pret {A} (a : A) : keeps (pret a).
Proof. intros s a' s' [= _ <-]. reflexivity. Qed.

Lemma keeps_preturn {A} (r : R) : keeps (preturn (A:=A) r).
Proof. by intros s a s'. Qed.

Lemma keeps_pfault {A} (f : fault) : keeps (pfault (A:=A) f).
Proof. by intros s a s'. Qed.

(** A computation that leaves the state as it is keeps every [I]. *)
Lemma keeps_read {A} (m : prog S R A) :
  (∀ s a s', m s = Next (a, s') → s' = s) → keeps m.
Proof. intros H s a s' ->%H. reflexivity. Qed.

Lemma keeps_pbind {A B} (m : prog S R A) (k : A → prog S R B) :
  keeps m → (∀ a, keeps (k a)) → keeps (pbind m k).
Proof.
  intros Hm Hk s b s'. unfold pbind. destruct (m s) as [[a s1]| |] eqn:E; [|done..].
  intros H. transitivity s1; [by eapply Hm|by eapply Hk].
Qed.

End Keeps.

(** Proves [keeps I m] for a loop-free [m] from the facts on its parts in
    the context and in the database [orafce]. *)
Ltac keeps_steps :=
  repeat first
    [ solve [eauto with orafce]
    | apply keeps_pret; apply _
    | apply keeps_preturn | apply keeps_pfault
    | apply keeps_pbind; [apply _| |intros]
    | case_match ].

(** ** Runs that end *)

Section Halts.
Context {S R : Type}.

(** [halts m Q s]: started in [s], [m] does not exhaust its fuel: it
    returns from the function, leaves the buffer, or continues with a
    value and a state that satisfy [Q]. *)
Definition halts {A} (m : prog S R A) (Q : A → S → Prop) (s : S) : Prop :=
  match m s with
  | Next (a, s') => Q a s'
  | Return _ => True
  | Fault f => f = OutOfBounds
  end.

Lemma halts_pret {A} (a : A) (Q : A → S → Prop) s : Q a s → halts (pret a) Q s.
Proof. done. Qed.

Lemma halts_preturn {A} (r : R) (Q : A → S → Prop) s : halts (preturn r) Q s.
Proof. done. Qed.

Lemma halts_pbind {A B} (m : prog S R A) (k : A → prog S R B) Q Q' s :
  halts m Q s → (∀ a s', Q a s' → halts (k a) Q' s') → halts (pbind m k) Q' s.
Proof.
  unfold halts at 1 3, pbind. destruct (m s) as [[a s']| |]; [|done..].
  intros H1 H2. by apply H2.
Qed.

Lemma halts_mono {A} (m : prog S R A) (Q Q' : A → S → Prop) s :
  halts m Q s → (∀ a s', Q a s' → Q' a s') → halts m Q' s.
Proof. unfold halts. destruct (m s) as [[a s']| |]; auto. Qed.

(** A function body that halts gives a result or reads out of bounds. *)
Lemma halts_run (m : prog S R R) Q s :
  halts m Q s → (∃ r, run m s = Done r) ∨ run m s = Crash OutOfBounds.
Proof.
  unfold halts, run. destruct (m s) as [[a s']| |]; [eauto..|]. intros ->. by right.
Qed.

End Halts.

(** ** Splitting a list at a known length *)

Section Split.
Context {A : Type}.
Implicit Types l : list A.

Lemma take_app_eq l l1 l2 n : l = l1 ++ l2 → n = length l1 → take n l = l1.
Proof. intros -> ->. apply take_app_length. Qed.

Lemma drop_app_eq l l1 l2 n : l = l1 ++ l2 → n = length l1 → drop n l = l2.
Proof. intros -> ->. apply drop_app_length. Qed.

End Split.

(** ** Lemmas on [take_while] and [drop_while] *)

Section Scan.
Context {A : Type} (f : A → bool).
Implicit Types l w : list A.

Lemma take_drop_while l : take_while f l ++ drop_while f l = l.
Proof. induction l as [|x l IH]; simpl; [done|]. destruct (f x); simpl; congruence. Qed.

Lemma take_while_Forall l : Forall (λ x, f x = true) (take_while f l).
Proof.
  induction l as [|x l IH]; simpl; [constructor|].
  destruct (f x) eqn:E; by constructor.
Qed.

Lemma drop_while_stops l : stops_at f (drop_while f l).
Proof. induction l as [|x l IH]; simpl; [done|]. by destruct (f x) eqn:E. Qed.

Lemma drop_while_length l : length (drop_while f l) ≤ length l.
Proof. induction l as [|x l IH]; simpl; [done|]. destruct (f x); simpl; lia. Qed.

Lemma take_while_app w l :
  Forall (λ x, f x = true) w → take_while f (w ++ l) = w ++ take_while f l.
Proof. induction 1 as [|x w Hx _ IH]; simpl; [done|]. by rewrite Hx, IH. Qed.

Lemma drop_while_app w l :
  Forall (λ x, f x = true) w → drop_while f (w ++ l) = drop_while f l.
Proof. induction 1 as [|x w Hx _ IH]; simpl; [done|]. by rewrite Hx. Qed.

Lemma take_while_stops l : stops_at f l → take_while f l = [].
Proof. destruct l as [|x l]; simpl; [done|]. by intros ->. Qed.

Lemma drop_while_stops_id l : stops_at f l → drop_while f l = l.
Proof. destruct l as [|x l]; simpl; [done|]. by intros ->. Qed.

(** A run [w] of accepted elements followed by a stop is exactly what the
    scan takes, and the rest is what it leaves. *)
Lemma take_while_exact w l :
  Forall (λ x, f x = true) w → stops_at f l → take_while f (w ++ l) = w.
Proof. intros Hw Hl. by rewrite take_while_app, take_while_stops, app_nil_r. Qed.

Lemma drop_while_exact w l :
  Forall (λ x, f x = true) w → stops_at f l → drop_while f (w ++ l) = l.
Proof. intros Hw Hl. by rewrite drop_while_app, drop_while_stops_id. Qed.

End Scan.

#[export] Hint Resolve take_while_Forall drop_while_stops : orafce.
#[export] Hint Rewrite @take_drop_while : orafce.
