(* ===== verification/Ctype.v ===== *)
(** * Characters and their classification

    The characters [src/assert.c] names, and the interface [Ctype] of the
    two <ctype.h> classifiers it calls.  [isspace] and [isalnum] depend on
    the process locale, so the parser is verified against the interface:
    the laws are the facts about the locale that its proofs use.  The "C"
    locale is the instance [C_locale]; [Latin1_locale] is a second
    instance, with the national letters of ISO 8859-1. *)

From S2P Require Import Prelude.

(** ** The characters the code names *)

(** ['\0'], the string terminator. *)
Definition NUL : ascii := ascii_of_nat 0.
(** The double quote that delimits a quoted identifier. *)
Definition DQ : ascii := ascii_of_nat 34.
(** ['.'], the separator of a qualified name. *)
Definition DOT : ascii := ascii_of_nat 46.
(** ['_']. *)
Definition UNDERSCORE : ascii := ascii_of_nat 95.
(** The single quote that delimits a literal. *)
Definition SQ : ascii := ascii_of_nat 39.
(** The backslash, which the literals of some hosts treat as an escape. *)
Definition BACKSLASH : ascii := ascii_of_nat 92.

(** ** The interface of <ctype.h> *)

Class Ctype : Type := {
  isspace : ascii → bool;
  isalnum : ascii → bool;
  isspace_NUL : isspace NUL = false;
  isspace_DOT : isspace DOT = false;
  isspace_DQ : isspace DQ = false;
  isalnum_DQ : isalnum DQ = false;
}.

(** ** The "C" locale *)

Definition in_range (lo hi : nat) (c : ascii) : bool :=
  (lo <=? nat_of_ascii c)%nat && (nat_of_ascii c <=? hi)%nat.

(** Space, and the controls from horizontal tab to carriage return. *)
Definition c_isspace (c : ascii) : bool :=
  in_range 32 32 c || in_range 9 13 c.

Definition c_isdigit (c : ascii) : bool := in_range 48 57 c.
Definition c_isupper (c : ascii) : bool := in_range 65 90 c.
Definition c_islower (c : ascii) : bool := in_range 97 122 c.
Definition c_isalpha (c : ascii) : bool := c_isupper c || c_islower c.
Definition c_isalnum (c : ascii) : bool := c_isalpha c || c_isdigit c.

#[export] Instance C_locale : Ctype := {|
  isspace := c_isspace;
  isalnum := c_isalnum;
  isspace_NUL := eq_refl;
  isspace_DOT := eq_refl;
  isspace_DQ := eq_refl;
  isalnum_DQ := eq_refl;
|}.

(** ** The tests the code composes from the classifiers *)

Section Tests.
Context `{CT : Ctype}.

(** [isalnum(c) || c == '_']: a character of an unquoted name. *)
Definition ident_char (c : ascii) : bool :=
  isalnum c || bool_decide (c = UNDERSCORE).

(** The condition of the unquoted scan, negated: the scan stops at the
    terminator, at a dot and at white space. *)
Definition name_stop (c : ascii) : bool :=
  bool_decide (c = NUL) || bool_decide (c = DOT) || isspace c.

(** The same for a character of the string proper, which is never NUL. *)
Definition is_sep (c : ascii) : bool :=
  bool_decide (c = DOT) || isspace c.

End Tests.

#[global] Arguments ident_char : simpl never.
#[global] Arguments name_stop : simpl never.
#[global] Arguments is_sep : simpl never.

(** Case analysis on the 256 characters. *)
Ltac ascii_cases c :=
  destruct c as [[] [] [] [] [] [] [] []];
  try (let H := fresh in intros H; vm_compute in H; try discriminate H; clear H);
  repeat split; try (vm_compute; lia); try discriminate; try reflexivity.

(** ** Facts *)

Lemma DQ_neq_NUL : DQ ≠ NUL.
Proof. done. Qed.

Lemma DQ_neq_DOT : DQ ≠ DOT.
Proof. done. Qed.

Lemma DQ_neq_UNDERSCORE : DQ ≠ UNDERSCORE.
Proof. done. Qed.

Section Facts.
Context `{CT : Ctype}.
Implicit Types c : ascii.

Lemma isspace_not_NUL c : isspace c = true → c ≠ NUL.
Proof. intros H ->. by rewrite isspace_NUL in H. Qed.

Lemma isspace_not_DOT c : isspace c = true → c ≠ DOT.
Proof. intros H ->. by rewrite isspace_DOT in H. Qed.

Lemma isspace_not_DQ c : isspace c = true → c ≠ DQ.
Proof. intros H ->. by rewrite isspace_DQ in H. Qed.

Lemma ident_char_DQ : ident_char DQ = false.
Proof. unfold ident_char. by rewrite isalnum_DQ. Qed.

Lemma ident_char_not_DQ c : ident_char c = true → c ≠ DQ.
Proof. intros H ->. by rewrite ident_char_DQ in H. Qed.

Lemma name_stop_NUL : name_stop NUL = true.
Proof. done. Qed.

Lemma name_stop_sep c : c ≠ NUL → name_stop c = is_sep c.
Proof. intros Hc. unfold name_stop, is_sep. by rewrite (bool_decide_eq_false_2 _ Hc). Qed.

Lemma is_sep_DOT : is_sep DOT = true.
Proof. done. Qed.

Lemma is_sep_isspace c : isspace c = true → is_sep c = true.
Proof. unfold is_sep. intros ->. apply orb_true_r. Qed.

Lemma is_sep_DQ : is_sep DQ = false.
Proof. unfold is_sep. by rewrite isspace_DQ. Qed.

Lemma is_sep_false c : is_sep c = false → c ≠ DOT ∧ isspace c = false.
Proof.
  unfold is_sep. intros [H1 H2]%orb_false_iff. split; [|done].
  by apply bool_decide_eq_false in H1.
Qed.

End Facts.

#[export] Hint Resolve DQ_neq_NUL DQ_neq_DOT DQ_neq_UNDERSCORE : orafce.
#[export] Hint Resolve isspace_not_NUL isspace_not_DOT isspace_not_DQ : orafce.
#[export] Hint Resolve ident_char_not_DQ is_sep_isspace : orafce.
#[export] Hint Rewrite @isspace_NUL @isspace_DOT @isspace_DQ @isalnum_DQ : orafce.
#[export] Hint Rewrite @ident_char_DQ @is_sep_DQ @is_sep_DOT : orafce.

(** ** The "C" locale, character by character *)

(** In the "C" locale the characters of an unquoted name are the ASCII
    letters, the digits and the underscore. *)
Lemma C_ident_char_spec c :
  @ident_char C_locale c = true ↔
  (65 ≤ nat_of_ascii c ≤ 90 ∨ 97 ≤ nat_of_ascii c ≤ 122 ∨
   48 ≤ nat_of_ascii c ≤ 57 ∨ nat_of_ascii c = 95)%nat.
Proof.
  unfold ident_char; simpl. unfold c_isalnum, c_isalpha, c_isupper, c_islower,
    c_isdigit, in_range.
  rewrite !orb_true_iff, !andb_true_iff, !Nat.leb_le, bool_decide_eq_true.
  split.
  - intros [[[?|?]|?]| ->]; [lia..|]. by right; right; right.
  - intros [?|[?|[?|Hc]]]; [by left; left; left|by left; left; right|by left; right|].
    right. rewrite <- (ascii_nat_embedding c), Hc. done.
Qed.

(** No character of a name is white space, a dot or a quote, and none has
    its high bit set: national characters are excluded. *)
Lemma C_ident_char_ascii c :
  @ident_char C_locale c = true →
  (nat_of_ascii c < 128)%nat ∧ @is_sep C_locale c = false ∧ c ≠ DQ ∧ c ≠ NUL.
Proof. ascii_cases c. Qed.

Lemma C_isspace_not_ident c :
  @isspace C_locale c = true → @ident_char C_locale c = false.
Proof. ascii_cases c. Qed.

(** ** A locale with national letters *)

(** The classification of ISO 8859-1: the letters of the upper half of
    the code page are alphabetic, with the two ordinal indicators and the
    micro sign; the multiplication and the division sign, which stand
    among the letters, are not. *)
Definition l1_isalpha (c : ascii) : bool :=
  c_isalpha c || in_range 192 214 c || in_range 216 246 c || in_range 248 255 c
  || in_range 170 170 c || in_range 181 181 c || in_range 186 186 c.

Definition l1_isalnum (c : ascii) : bool := l1_isalpha c || c_isdigit c.

(** Not a global instance: the theorems on concrete names are stated in
    the "C" locale unless they name this one. *)
Definition Latin1_locale : Ctype := {|
  isspace := c_isspace;
  isalnum := l1_isalnum;
  isspace_NUL := eq_refl;
  isspace_DOT := eq_refl;
  isspace_DQ := eq_refl;
  isalnum_DQ := eq_refl;
|}.
