(* ===== verification/CString.v ===== *)
(** * Buffers, pointers and the <string.h> routines

    The memory the functions of [src/assert.c] touch is one buffer, a list
    of bytes; a pointer into it is an offset.  A load or a library call
    that would leave the buffer faults with [OutOfBounds], so that a proof
    that a function returns [Done] is also a proof that it stays inside
    its buffer.  [strchr], [strlen] and [memmove] follow the C standard:
    the first two stop at the terminator, the third copies as if through a
    temporary, so that source and destination may overlap. *)

From S2P Require Import Prelude Ctype.

(** A buffer is the list of its bytes. *)
Abbreviation cbuf := (list ascii).

Section Ops.
Context {R : Type}.

(** [*p] *)
Definition load (p : nat) : prog cbuf R ascii :=
  λ b, match b !! p with
       | Some c => Next (c, b)
       | None => Fault OutOfBounds
       end.

(** The search of [strchr] through the bytes from offset [p] on: [None]
    when it runs off the buffer before it meets [c] or the terminator. *)
Fixpoint strchr_from (l : list ascii) (p : nat) (c : ascii) : option (option nat) :=
  match l with
  | [] => None
  | x :: l' =>
      if decide (x = c) then Some (Some p)
      else if decide (x = NUL) then Some None
      else strchr_from l' (S p) c
  end.

(** [strchr(p, c)]: the offset of the first [c] at or after [p], or NULL. *)
Definition strchr (p : nat) (c : ascii) : prog cbuf R (option nat) :=
  λ b, match strchr_from (drop p b) p c with
       | Some r => Next (r, b)
       | None => Fault OutOfBounds
       end.

Fixpoint strlen_from (l : list ascii) : option nat :=
  match l with
  | [] => None
  | x :: l' => if decide (x = NUL) then Some 0 else S <$> strlen_from l'
  end.

(** [strlen(p)] *)
Definition strlen (p : nat) : prog cbuf R nat :=
  λ b, match strlen_from (drop p b) with
       | Some n => Next (n, b)
       | None => Fault OutOfBounds
       end.

(** [memmove(dst, src, n)] *)
Definition memmove (dst src n : nat) : prog cbuf R unit :=
  λ b, if decide (src + n ≤ length b ∧ dst + n ≤ length b)
       then Next (tt, take dst b ++ take n (drop src b) ++ drop (dst + n) b)
       else Fault OutOfBounds.

End Ops.

(** The bytes of [b] from offset [p] up to offset [q]. *)
Definition slice (b : cbuf) (p q : nat) : list ascii := take (q - p) (drop p b).

(** A NUL-terminated string [s] starts at offset [p] of [b]. *)
Definition cstr_at (b : cbuf) (p : nat) (s : list ascii) : Prop :=
  (NUL ∉ s) ∧ (∃ pre junk, b = pre ++ s ++ NUL :: junk ∧ length pre = p).

(** The host's [text_to_cstring]: a fresh buffer with the bytes of the text
    and a terminator. *)
Definition text_to_cstring (t : list ascii) : cbuf := t ++ [NUL].

(** The string a buffer holds from its first byte: what C code sees of it. *)
Definition cstring_of (b : cbuf) : list ascii :=
  take_while (λ c, negb (bool_decide (c = NUL))) b.

(** ** The primitives on a buffer split at the pointer *)

Section Zipper.
Context {R : Type}.
Implicit Types (b pre suf a m : list ascii) (c x y z : ascii) (p : nat).

Lemma load_app b pre c suf p :
  b = pre ++ c :: suf → p = length pre → load (R:=R) p b = Next (c, b).
Proof. intros -> ->. unfold load. by rewrite list_lookup_middle. Qed.

Lemma load_lookup b p c : b !! p = Some c → load (R:=R) p b = Next (c, b).
Proof. intros H. unfold load. by rewrite H. Qed.

Lemma load_oob b p : length b ≤ p → load (R:=R) p b = Fault OutOfBounds.
Proof. intros H. unfold load. by rewrite lookup_ge_None_2. Qed.

Lemma load_Next b p c b' : load (R:=R) p b = Next (c, b') → b !! p = Some c ∧ b' = b.
Proof. unfold load. destruct (b !! p); naive_solver. Qed.

Lemma strchr_from_found a c suf p :
  c ∉ a → NUL ∉ a → strchr_from (a ++ c :: suf) p c = Some (Some (p + length a)).
Proof.
  revert p. induction a as [|x a IH]; intros p Hc Hn; simpl.
  - rewrite decide_True by done. f_equal; f_equal; lia.
  - apply not_elem_of_cons in Hc as [? ?]. apply not_elem_of_cons in Hn as [? ?].
    rewrite !decide_False by congruence. rewrite IH by done. f_equal; f_equal; lia.
Qed.

Lemma strchr_from_none a c suf p :
  c ∉ a → NUL ∉ a → c ≠ NUL → strchr_from (a ++ NUL :: suf) p c = Some None.
Proof.
  revert p. induction a as [|x a IH]; intros p Hc Hn Hcn; simpl.
  - rewrite decide_False by congruence. by rewrite ?decide_True.
  - apply not_elem_of_cons in Hc as [? ?]. apply not_elem_of_cons in Hn as [? ?].
    rewrite !decide_False by congruence. by apply IH.
Qed.

Lemma strchr_found b pre a c suf p :
  b = pre ++ a ++ c :: suf → p = length pre → c ∉ a → NUL ∉ a →
  strchr (R:=R) p c b = Next (Some (p + length a), b).
Proof.
  intros -> -> Hc Hn. unfold strchr.
  by rewrite drop_app_length, strchr_from_found.
Qed.

Lemma strchr_none b pre a c suf p :
  b = pre ++ a ++ NUL :: suf → p = length pre → c ∉ a → NUL ∉ a → c ≠ NUL →
  strchr (R:=R) p c b = Next (None, b).
Proof.
  intros -> -> Hc Hn Hcn. unfold strchr.
  by rewrite drop_app_length, strchr_from_none.
Qed.

Lemma strlen_from_app a suf : NUL ∉ a → strlen_from (a ++ NUL :: suf) = Some (length a).
Proof.
  induction a as [|x a IH]; intros Hn; simpl.
  - by rewrite ?decide_True.
  - apply not_elem_of_cons in Hn as [? ?]. rewrite decide_False by congruence.
    by rewrite IH.
Qed.

Lemma strlen_app b pre a suf p :
  b = pre ++ a ++ NUL :: suf → p = length pre → NUL ∉ a →
  strlen (R:=R) p b = Next (length a, b).
Proof.
  intros -> -> Hn. unfold strlen. by rewrite drop_app_length, strlen_from_app.
Qed.

(** [memmove(p, p + 1, n)] over a block [y :: m ++ [z]] of [n + 1] bytes
    deletes [y] and leaves the last byte [z] twice: what the parser does to
    collapse a doubled quote, with [z] the terminator. *)
Lemma memmove_collapse b pre y m z suf p n :
  b = pre ++ y :: m ++ z :: suf → p = length pre → n = S (length m) →
  memmove (R:=R) p (S p) n b = Next (tt, pre ++ m ++ z :: z :: suf).
Proof.
  intros -> -> ->. unfold memmove.
  rewrite decide_True by solve_length.
  do 2 f_equal. rewrite take_app_length. f_equal.
  rewrite (drop_app_eq _ (pre ++ [y]) ((m ++ [z]) ++ suf)) by (solve_app || solve_length).
  rewrite (take_app_eq _ (m ++ [z]) suf) by (solve_app || solve_length).
  rewrite (drop_app_eq _ (pre ++ y :: m) (z :: suf)) by (solve_app || solve_length).
  solve_app.
Qed.

End Zipper.

(** ** What [memmove] guarantees *)

Section Memmove.
Context {R : Type}.
Implicit Types (b : cbuf) (dst src n i : nat).

Lemma memmove_Next dst src n b u b' :
  memmove (R:=R) dst src n b = Next (u, b') →
  src + n ≤ length b ∧ dst + n ≤ length b ∧
  b' = take dst b ++ take n (drop src b) ++ drop (dst + n) b.
Proof. unfold memmove. destruct (decide _) as [[? ?]|]; [|done]. by intros [= _ <-]. Qed.

Lemma memmove_length dst src n b u b' :
  memmove (R:=R) dst src n b = Next (u, b') → length b' = length b.
Proof.
  intros (? & ? & ->)%memmove_Next.
  rewrite !length_app, !length_take, !length_drop. lia.
Qed.

(** The bytes before the destination are not touched. *)
Lemma memmove_before dst src n b u b' i :
  memmove (R:=R) dst src n b = Next (u, b') → i < dst → b' !! i = b !! i.
Proof.
  intros (? & ? & ->)%memmove_Next Hi.
  rewrite lookup_app_l by (rewrite length_take; lia).
  by rewrite lookup_take_lt.
Qed.

(** The destination holds the bytes the source held before the call. *)
Lemma memmove_copied dst src n b u b' i :
  memmove (R:=R) dst src n b = Next (u, b') → i < n → b' !! (dst + i) = b !! (src + i).
Proof.
  intros (? & ? & ->)%memmove_Next Hi.
  rewrite lookup_app_r by (rewrite length_take; lia).
  rewrite length_take, Nat.min_l by lia.
  rewrite lookup_app_l by (rewrite length_take, length_drop; lia).
  replace (dst + i - dst) with i by lia.
  by rewrite lookup_take_lt, lookup_drop.
Qed.

(** The bytes after the destination are not touched. *)
Lemma memmove_after dst src n b u b' i :
  memmove (R:=R) dst src n b = Next (u, b') → dst + n ≤ i → b' !! i = b !! i.
Proof.
  intros (? & ? & ->)%memmove_Next Hi.
  rewrite lookup_app_r by (rewrite length_take; lia).
  rewrite length_take, Nat.min_l by lia.
  rewrite lookup_app_r by (rewrite length_take, length_drop; lia).
  rewrite length_take, length_drop, Nat.min_l by lia.
  rewrite lookup_drop. f_equal. lia.
Qed.

Lemma memmove_oob dst src n b :
  length b < src + n ∨ length b < dst + n →
  memmove (R:=R) dst src n b = Fault OutOfBounds.
Proof. intros H. unfold memmove. rewrite decide_False; [done|lia]. Qed.

End Memmove.

(** ** Strings in buffers *)

Section Cstr.
Implicit Types (b : cbuf) (s t : list ascii) (c : ascii) (p : nat).

Lemma cstr_at_intro pre s junk p :
  NUL ∉ s → p = length pre → cstr_at (pre ++ s ++ NUL :: junk) p s.
Proof. intros Hs ->. split; [done|]. by exists pre, junk. Qed.

Lemma cstr_at_cons b p c s : cstr_at b p (c :: s) → cstr_at b (S p) s.
Proof.
  intros [Hn (pre & junk & -> & <-)]. apply not_elem_of_cons in Hn as [? ?].
  split; [done|]. exists (pre ++ [c]), junk. split.
  - by rewrite <- app_assoc.
  - rewrite length_app. simpl. lia.
Qed.

Lemma cstr_at_app b p s t : cstr_at b p (s ++ t) → cstr_at b (p + length s) t.
Proof.
  revert p. induction s as [|c s IH]; intros p H; simpl in *.
  - by rewrite Nat.add_0_r.
  - apply cstr_at_cons, IH in H. by rewrite Nat.add_succ_r.
Qed.

Lemma cstr_at_lookup b p s : cstr_at b p s → b !! p = Some (default NUL (head s)).
Proof.
  intros [_ (pre & junk & -> & <-)]. destruct s as [|c s]; simpl;
    by rewrite list_lookup_middle.
Qed.

Lemma cstr_at_bound b p s : cstr_at b p s → p + length s < length b.
Proof.
  intros [_ (pre & junk & -> & <-)]. rewrite !length_app. simpl. lia.
Qed.

Lemma cstr_at_inj b p s t : cstr_at b p s → cstr_at b p t → s = t.
Proof.
  intros [Hs (pre & junk & -> & <-)] [Ht (pre' & junk' & E & El)].
  apply app_inj_1 in E as [_ E]; [|done]. clear El.
  revert t Ht E. induction s as [|c s IH]; intros [|d t] Ht E; simpl in *.
  - done.
  - injection E as <- _. exfalso. apply Ht. left.
  - injection E as -> _. exfalso. apply Hs. left.
  - injection E as <- E. apply not_elem_of_cons in Hs as [? ?].
    apply not_elem_of_cons in Ht as [? ?]. f_equal. by apply IH.
Qed.

Lemma cstr_at_text_to_cstring t : NUL ∉ t → cstr_at (text_to_cstring t) 0 t.
Proof. intros H. split; [done|]. by exists [], []. Qed.

Lemma cstring_of_app s junk : NUL ∉ s → cstring_of (s ++ NUL :: junk) = s.
Proof.
  intros H. unfold cstring_of. apply take_while_exact; [|done].
  apply Forall_forall. intros c Hc. apply negb_true_iff, bool_decide_eq_false.
  intros ->. done.
Qed.

Lemma cstr_at_cstring_of b s : cstr_at b 0 s → cstring_of b = s.
Proof.
  intros [Hs (pre & junk & -> & Hl)]. apply nil_length_inv in Hl as ->.
  by apply cstring_of_app.
Qed.

Lemma cstring_of_text_to_cstring t : NUL ∉ t → cstring_of (text_to_cstring t) = t.
Proof. intros H. by apply cstring_of_app. Qed.

Lemma cstring_of_id t : NUL ∉ t → cstring_of t = t.
Proof.
  intros H. unfold cstring_of. rewrite <- (app_nil_r t) at 1.
  apply take_while_exact; [|done].
  apply Forall_forall. intros c Hc. apply negb_true_iff, bool_decide_eq_false.
  by intros ->.
Qed.

Lemma cstring_of_no_NUL b : NUL ∉ cstring_of b.
Proof.
  unfold cstring_of. intros H.
  by apply (proj1 (Forall_forall _ _) (take_while_Forall _ b)) in H.
Qed.

(** Whatever the bytes of a text are, its copy holds the string that ends
    at the first NUL of the text, or at the terminator. *)
Lemma cstr_at_text t : cstr_at (text_to_cstring t) 0 (cstring_of t).
Proof.
  split; [apply cstring_of_no_NUL|]. unfold text_to_cstring, cstring_of.
  set (f := λ c, negb (bool_decide (c = NUL))).
  pose proof (take_drop_while f t) as E. pose proof (drop_while_stops f t) as Hd.
  destruct (drop_while f t) as [|c junk].
  - exists [], []. rewrite app_nil_r in E. by rewrite E.
  - apply negb_false_iff, bool_decide_eq_true in Hd as ->.
    exists [], (junk ++ [NUL]). split; [|done]. rewrite <- E at 1. solve_app.
Qed.

End Cstr.

(** ** Slices and prefixes *)

Section Slices.
Implicit Types (b : cbuf) (p q i j : nat).

Lemma take_take_eq b1 b2 p q : take q b1 = take q b2 → p ≤ q → take p b1 = take p b2.
Proof.
  intros E Hpq. rewrite <- (Nat.min_l p q) by done.
  by rewrite <- !take_take, E.
Qed.

(** A slice that ends inside a common prefix is the same in both buffers. *)
Lemma slice_take_eq b1 b2 i j q : take q b1 = take q b2 → j ≤ q → slice b1 i j = slice b2 i j.
Proof.
  intros E Hj. unfold slice.
  destruct (decide (i ≤ j)) as [Hij|Hij].
  - rewrite !take_drop_commute. replace (i + (j - i)) with j by lia.
    by rewrite (take_take_eq _ _ _ _ E Hj).
  - replace (j - i) with 0 by lia. done.
Qed.

Lemma slice_app b pre s suf i j :
  b = pre ++ s ++ suf → i = length pre → j = i + length s → slice b i j = s.
Proof.
  intros -> -> ->. unfold slice. rewrite drop_app_length.
  replace (length pre + length s - length pre) with (length s) by lia.
  by rewrite take_app_length.
Qed.

Lemma cstr_at_slice b p s : cstr_at b p s → slice b p (p + length s) = s.
Proof. intros [_ (pre & junk & -> & <-)]. by eapply slice_app. Qed.

End Slices.

#[export] Hint Resolve cstr_at_cons cstr_at_app cstr_at_text_to_cstring : orafce.

(** ** The size of the buffer *)

(** Two buffers of the same size. *)
Definition same_length : relation cbuf := λ b b', length b' = length b.

#[export] Instance same_length_preorder : PreOrder same_length.
Proof. split; [done|]. intros b1 b2 b3 H1 H2. unfold same_length in *. congruence. Qed.

Section Size.
Context {R : Type}.

Lemma load_keeps (I : relation cbuf) `{!PreOrder I} p : keeps I (load (R:=R) p).
Proof. apply keeps_read; [apply _|]. intros b c b'. unfold load. destruct (b !! p); by intros [=]. Qed.

Lemma strchr_keeps (I : relation cbuf) `{!PreOrder I} p c : keeps I (strchr (R:=R) p c).
Proof.
  apply keeps_read; [apply _|]. intros b r b'. unfold strchr.
  destruct (strchr_from _ _ _); by intros [=].
Qed.

Lemma strlen_keeps (I : relation cbuf) `{!PreOrder I} p : keeps I (strlen (R:=R) p).
Proof.
  apply keeps_read; [apply _|]. intros b r b'. unfold strlen.
  destruct (strlen_from _); by intros [=].
Qed.

(** [memmove] writes inside the buffer: it keeps its size. *)
Lemma memmove_keeps dst src n : keeps same_length (memmove (R:=R) dst src n).
Proof. intros b u b'. apply memmove_length. Qed.

End Size.

(** ** Buffers that hold the same string *)

(** Two buffers with the same C string at their start: what follows the
    terminator may differ.  A partial equivalence: a buffer without
    terminator is related to none. *)
Definition same_string (b b' : cbuf) : Prop := ∃ s, cstr_at b 0 s ∧ cstr_at b' 0 s.

#[export] Instance same_string_per : RelationClasses.PER same_string.
Proof.
  split.
  - intros b b' (s & ? & ?). by exists s.
  - intros b1 b2 b3 (s & H1 & H2) (t & H2' & H3).
    rewrite (cstr_at_inj _ _ _ _ H2 H2') in H1. by exists t.
Qed.

Lemma same_string_text s junk : NUL ∉ s → same_string (s ++ NUL :: junk) (text_to_cstring s).
Proof.
  intros H. exists s. split; [|by apply cstr_at_text_to_cstring].
  split; [done|]. by exists [], junk.
Qed.

(** ** Terminators *)

(** The relation between a buffer and what a function has made of it when
    the function writes only over bytes that are not terminators: the
    size is the same, and where there was a terminator there is one. *)
Definition terminators_kept (b b' : cbuf) : Prop :=
  length b' = length b ∧ ∀ i, b !! i = Some NUL → b' !! i = Some NUL.

#[export] Instance terminators_kept_preorder : PreOrder terminators_kept.
Proof.
  split; [by intros b|]. intros b1 b2 b3 [E1 H1] [E2 H2].
  split; [congruence|auto].
Qed.

(** The string at the start of the buffer can only have become shorter. *)
Lemma terminators_kept_cstr b b' s :
  terminators_kept b b' → cstr_at b 0 s →
  cstr_at b' 0 (cstring_of b') ∧ length (cstring_of b') ≤ length s.
Proof.
  intros [_ Hk] [_ (pre & junk & -> & ->%nil_length_inv)]. simpl in Hk.
  specialize (Hk (length s)). rewrite list_lookup_middle in Hk by done.
  specialize (Hk eq_refl). unfold cstring_of.
  set (f := λ c, negb (bool_decide (c = NUL))) in *.
  pose proof (take_drop_while f b') as E. pose proof (drop_while_stops f b') as Hd.
  pose proof (take_while_Forall f b') as Hf.
  assert (Hl : length (take_while f b') ≤ length s).
  { destruct (decide (length (take_while f b') ≤ length s)) as [|Hgt]; [done|].
    rewrite <- E, lookup_app_l in Hk by lia.
    apply list_elem_of_lookup_2 in Hk.
    by apply (proj1 (Forall_forall _ _) Hf) in Hk. }
  split; [|done]. split; [apply cstring_of_no_NUL|]. exists [].
  destruct (drop_while f b') as [|c junk'] eqn:Ed.
  - rewrite app_nil_r in E. rewrite <- E in Hk at 1.
    apply lookup_lt_Some in Hk. lia.
  - exists junk'. split; [|done]. simpl. rewrite <- E at 1. f_equal.
    unfold stops_at in Hd. simpl in Hd. unfold f in Hd.
    apply negb_false_iff, bool_decide_eq_true in Hd. by subst.
Qed.

#[export] Hint Resolve same_length_preorder : orafce.
#[export] Hint Resolve load_keeps strchr_keeps strlen_keeps memmove_keeps : orafce.

(** ** The primitives halt *)

Section Halt.
Context {R : Type}.
Implicit Types (b : cbuf) (p : nat).

(** A load that succeeds was inside the buffer, and leaves it as it is. *)
Lemma load_halts p b : halts (load (R:=R) p) (λ _ b', b' = b ∧ p < length b) b.
Proof.
  unfold halts, load. destruct (b !! p) eqn:E; [|done].
  split; [done|]. by eapply lookup_lt_Some.
Qed.

Lemma strchr_from_bound l p c e :
  strchr_from l p c = Some (Some e) → p ≤ e < p + length l.
Proof.
  revert p. induction l as [|x l IH]; intros p; simpl; [done|].
  repeat case_decide; [intros [= <-]; lia|done|]. intros ?%IH. lia.
Qed.

(** The character [strchr] finds is at or after the start of the search
    and inside the buffer. *)
Lemma strchr_halts p c b :
  halts (strchr (R:=R) p c)
    (λ r b', b' = b ∧ ∀ e, r = Some e → p ≤ e < length b) b.
Proof.
  unfold halts, strchr. destruct (strchr_from _ _ _) as [r|] eqn:E; [|done].
  split; [done|]. intros e ->. apply strchr_from_bound in E.
  rewrite length_drop in E. lia.
Qed.

Lemma strlen_from_no_NUL l n i :
  strlen_from l = Some n → i < n → l !! i ≠ Some NUL.
Proof.
  revert n i. induction l as [|x l IH]; intros n i; simpl; [done|].
  case_decide; [intros [= <-]; lia|]. intros (m & E & ->)%fmap_Some Hi.
  destruct i as [|i]; simpl; [congruence|]. apply (IH m); [done|lia].
Qed.

(** The bytes [strlen] counts are not terminators. *)
Lemma strlen_halts p b :
  halts (strlen (R:=R) p)
    (λ n b', b' = b ∧ ∀ i, p ≤ i < p + n → b !! i ≠ Some NUL) b.
Proof.
  unfold halts, strlen. destruct (strlen_from _) as [n|] eqn:E; [|done].
  split; [done|]. intros i Hi. replace i with (p + (i - p)) by lia.
  rewrite <- lookup_drop. apply (strlen_from_no_NUL _ n); [done|lia].
Qed.

(** A [memmove] whose destination holds no terminator keeps the
    terminators of the buffer. *)
Lemma memmove_halts dst src n b :
  (∀ i, dst ≤ i < dst + n → b !! i ≠ Some NUL) →
  halts (memmove (R:=R) dst src n) (λ _ b', terminators_kept b b') b.
Proof.
  intros Hd. unfold halts. destruct (memmove dst src n b) as [[u b']| |] eqn:E.
  - split; [by eapply memmove_length|]. intros i Hi.
    destruct (decide (i < dst)); [by erewrite memmove_before|].
    destruct (decide (dst + n ≤ i)); [by erewrite memmove_after|].
    destruct (Hd i); [lia|done].
  - unfold memmove in E. by case_decide.
  - unfold memmove in E. case_decide; congruence.
Qed.

End Halt.
