(* ===== verification/QualifiedName.v ===== *)
(** * Qualified names: the specification

    What a qualified SQL name is, independently of buffers and pointers:
    the data model ([NamePart]), the grammar as inductive relations
    ([name], [names], [qualified]), and a reference parser on lists
    ([parse_qualified]) that the C code of [ParseIdent] is proved to
    implement.  The parser is the quote-pair scanner [unquote], the
    unquoted scan [scan_unquoted] and the separator step [parse_sep],
    iterated by [parse_names] on the length of the remaining input. *)

From S2P Require Import Prelude Ctype.
From Equations Require Import Equations.

(** ** Data model *)

(** One segment of a name: its text, with doubled quotes collapsed, and
    whether it was written in quotes. *)
Record NamePart : Type := { text : list ascii; wasQuoted : bool }.

#[export] Instance NamePart_eq_dec : EqDecision NamePart.
Proof. solve_decision. Defined.

Definition Unquoted (w : list ascii) : NamePart := {| text := w; wasQuoted := false |}.
Definition Quoted (t : list ascii) : NamePart := {| text := t; wasQuoted := true |}.

Definition inspect {A} (a : A) : {b | a = b} := exist _ a eq_refl.

(** ** The quote-pair scanner *)

(** [unquote s] reads the body of a quoted name, [s] being the input after
    the opening quote: the text with each doubled quote collapsed, and the
    input after the closing quote.  [None] when no quote closes the name. *)
Fixpoint unquote (s : list ascii) : option (list ascii * list ascii) :=
  match s with
  | [] => None
  | c :: s' =>
      if decide (c = DQ) then
        match s' with
        | c' :: s'' =>
            if decide (c' = DQ)
            then '(t, r) ← unquote s''; Some (DQ :: t, r)
            else Some ([], s')
        | [] => Some ([], s')
        end
      else '(t, r) ← unquote s'; Some (c :: t, r)
  end.

(** The body of a quoted name that stands for the text [t]. *)
Fixpoint escape (t : list ascii) : list ascii :=
  match t with
  | [] => []
  | c :: t' => if decide (c = DQ) then DQ :: DQ :: escape t' else c :: escape t'
  end.

(** [l] does not start with a quote. *)
Definition no_quote_ahead (l : list ascii) : Prop :=
  match l with
  | [] => True
  | c :: _ => c ≠ DQ
  end.

Section Grammar.
Context `{CT : Ctype}.

(** ** The reference parser *)

(** The unquoted scan: the run of name characters up to a separator or the
    end of the input; [None] at a character that is neither. *)
Fixpoint scan_unquoted (s : list ascii) : option (list ascii * list ascii) :=
  match s with
  | [] => Some ([], [])
  | c :: s' =>
      if is_sep c then Some ([], s)
      else if ident_char c then '(w, r) ← scan_unquoted s'; Some (c :: w, r)
      else None
  end.

(** One name, quoted or not, and the input after it. *)
Definition parse_name (s : list ascii) : option (NamePart * list ascii) :=
  match s with
  | c :: s' =>
      if decide (c = DQ) then '(t, r) ← unquote s'; Some (Quoted t, r)
      else '(w, r) ← scan_unquoted s;
           if decide (w = []) then None else Some (Unquoted w, r)
  | [] => None
  end.

(** After a name: [Some None] at the end of the input, [Some (Some r)] when
    a dot announces another name at [r], [None] on anything else. *)
Definition parse_sep (s : list ascii) : option (option (list ascii)) :=
  match drop_while isspace s with
  | [] => Some None
  | c :: r => if decide (c = DOT) then Some (Some (drop_while isspace r)) else None
  end.

(** ** The grammar *)

Definition blank (ws : list ascii) : Prop := Forall (λ c, isspace c = true) ws.

Definition name_char (c : ascii) : Prop := ident_char c = true ∧ is_sep c = false.

(** The written form of one name and the part it denotes. *)
Inductive name : list ascii → NamePart → Prop :=
| name_unquoted w :
    w ≠ [] → Forall name_char w → name w (Unquoted w)
| name_quoted t :
    name (DQ :: escape t ++ [DQ]) (Quoted t).

(** One or more names separated by dots, with white space allowed around
    the dots and at the end. *)
Inductive names : list ascii → list NamePart → Prop :=
| names_last raw np ws :
    name raw np → blank ws → names (raw ++ ws) [np]
| names_more raw np ws1 ws2 rest nps :
    name raw np → blank ws1 → blank ws2 → names rest nps →
    names (raw ++ ws1 ++ DOT :: ws2 ++ rest) (np :: nps).

(** A qualified name: nothing but white space, which denotes no part, or
    names after optional white space. *)
Inductive qualified : list ascii → list NamePart → Prop :=
| qualified_blank ws : blank ws → qualified ws []
| qualified_names ws s nps : blank ws → names s nps → qualified (ws ++ s) nps.

(** What the specification promises of a part: an unquoted text is a
    non-empty run of name characters. *)
Definition part_ok (np : NamePart) : Prop :=
  wasQuoted np = false → text np ≠ [] ∧ Forall name_char (text np).

(** ** Printing *)

Definition print_part (np : NamePart) : list ascii :=
  if wasQuoted np then DQ :: escape (text np) ++ [DQ] else text np.

Fixpoint print_names (nps : list NamePart) : list ascii :=
  match nps with
  | [] => []
  | [np] => print_part np
  | np :: nps' => print_part np ++ DOT :: print_names nps'
  end.

End Grammar.

(** ** The quote-pair scanner: equations and induction principle *)

Section Scanner.
Implicit Types (s t r : list ascii) (c : ascii).

Lemma unquote_char c s :
  c ≠ DQ → unquote (c :: s) = '(t, r) ← unquote s; Some (c :: t, r).
Proof. intros H. simpl. by rewrite decide_False. Qed.

Lemma unquote_end_nil : unquote [DQ] = Some ([], []).
Proof. done. Qed.

Lemma unquote_end c s : c ≠ DQ → unquote (DQ :: c :: s) = Some ([], c :: s).
Proof. intros H. simpl. by rewrite decide_False. Qed.

Lemma unquote_pair s :
  unquote (DQ :: DQ :: s) = '(t, r) ← unquote s; Some (DQ :: t, r).
Proof. done. Qed.

Lemma escape_char c t : c ≠ DQ → escape (c :: t) = c :: escape t.
Proof. intros H. simpl. by rewrite decide_False. Qed.

Lemma escape_DQ t : escape (DQ :: t) = DQ :: DQ :: escape t.
Proof. done. Qed.

(** Induction along the five cases of the scanner. *)
Lemma unquote_ind (P : list ascii → Prop) :
  P [] →
  (∀ c s, c ≠ DQ → P s → P (c :: s)) →
  P [DQ] →
  (∀ c s, c ≠ DQ → P (DQ :: c :: s)) →
  (∀ s, P s → P (DQ :: DQ :: s)) →
  ∀ s, P s.
Proof.
  intros Hnil Hchar Hend0 Hend Hpair s.
  cut (P s ∧ ∀ c, P (c :: s)); [by intros [? _]|].
  induction s as [|x s [IH1 IH2]]; (split; [done|]); intros c.
  - destruct (decide (c = DQ)) as [->|]; auto.
  - destruct (decide (c = DQ)) as [->|]; [|auto].
    destruct (decide (x = DQ)) as [->|]; auto.
Qed.

End Scanner.

#[export] Hint Rewrite unquote_end_nil unquote_pair escape_DQ : orafce.
#[export] Hint Rewrite unquote_char unquote_end escape_char using done : orafce.

(** ** The scanner and [escape] are inverse *)

Section ScannerFacts.
Implicit Types (s t r : list ascii) (c : ascii).

(** The scanner consumes at least the closing quote. *)
Lemma unquote_length s t r : unquote s = Some (t, r) → length r < length s.
Proof.
  revert t r. induction s as [|c s Hc IH| |c s Hc|s IH] using unquote_ind;
    intros t r; autorewrite with orafce.
  - done.
  - destruct (unquote s) as [[t' r']|]; [|done]. intros [= <- <-].
    specialize (IH _ _ eq_refl). simpl. lia.
  - intros [= <- <-]. simpl. lia.
  - intros [= <- <-]. simpl. lia.
  - destruct (unquote s) as [[t' r']|]; [|done]. intros [= <- <-].
    specialize (IH _ _ eq_refl). simpl. lia.
Qed.

(** Scanning the escaped form of [t] up to its closing quote gives [t]
    back, whatever follows, provided it is not another quote. *)
Lemma unquote_escape t r :
  no_quote_ahead r → unquote (escape t ++ DQ :: r) = Some (t, r).
Proof.
  intros Hr. induction t as [|c t IH]; simpl.
  - destruct r as [|d r]; [done|]. by rewrite decide_False.
  - destruct (decide (c = DQ)) as [->|Hc]; simpl.
    + by rewrite IH.
    + by rewrite decide_False, IH.
Qed.

(** What the scanner accepts is an escaped text, a closing quote, and a
    rest that does not start with a quote. *)
Lemma unquote_sound s t r :
  unquote s = Some (t, r) → s = escape t ++ DQ :: r ∧ no_quote_ahead r.
Proof.
  revert t r. induction s as [|c s Hc IH| |c s Hc|s IH] using unquote_ind;
    intros t r; autorewrite with orafce.
  - done.
  - destruct (unquote s) as [[t' r']|]; [|done]. intros [= <- <-].
    destruct (IH _ _ eq_refl) as [-> ?]. by autorewrite with orafce.
  - by intros [= <- <-].
  - by intros [= <- <-].
  - destruct (unquote s) as [[t' r']|]; [|done]. intros [= <- <-].
    destruct (IH _ _ eq_refl) as [-> ?]. by autorewrite with orafce.
Qed.

Lemma unquote_spec s t r :
  unquote s = Some (t, r) ↔ s = escape t ++ DQ :: r ∧ no_quote_ahead r.
Proof.
  split; [apply unquote_sound|]. intros [-> ?]. by apply unquote_escape.
Qed.

Lemma escape_inj t1 t2 : escape t1 = escape t2 → t1 = t2.
Proof.
  intros E. assert (H : unquote (escape t1 ++ [DQ]) = unquote (escape t2 ++ [DQ]))
    by (by rewrite E).
  rewrite !unquote_escape in H by done. by injection H.
Qed.

Lemma escape_app t1 t2 : escape (t1 ++ t2) = escape t1 ++ escape t2.
Proof.
  induction t1 as [|c t1 IH]; simpl; [done|].
  destruct (decide (c = DQ)); simpl; by rewrite IH.
Qed.

Lemma escape_no_quote t : DQ ∉ t → escape t = t.
Proof.
  induction t as [|c t IH]; [done|]. intros [? ?]%not_elem_of_cons.
  rewrite escape_char by done. by rewrite IH.
Qed.

Lemma escape_length t : length t ≤ length (escape t).
Proof.
  induction t as [|c t IH]; simpl; [done|].
  destruct (decide (c = DQ)); simpl; lia.
Qed.

(** *** The scanner, quote by quote

    The C loop finds the next quote with [strchr] instead of reading byte
    by byte; these are the three things that can happen there. *)

Lemma unquote_no_quote s : DQ ∉ s → unquote s = None.
Proof.
  induction s as [|c s IH]; [done|]. intros [? ?]%not_elem_of_cons.
  rewrite unquote_char by done. by rewrite IH.
Qed.

Lemma unquote_prefix_end a r :
  DQ ∉ a → no_quote_ahead r → unquote (a ++ DQ :: r) = Some (a, r).
Proof. intros Ha Hr. rewrite <- (escape_no_quote a) at 1 by done. by apply unquote_escape. Qed.

Lemma unquote_prefix_pair a s :
  DQ ∉ a →
  unquote (a ++ DQ :: DQ :: s) = '(t, r) ← unquote s; Some (a ++ DQ :: t, r).
Proof.
  induction a as [|c a IH]; simpl app.
  - intros _. rewrite unquote_pair. by destruct (unquote s) as [[]|].
  - intros [? ?]%not_elem_of_cons. rewrite unquote_char, IH by done.
    by destruct (unquote s) as [[]|].
Qed.

(** Characters other than the quote pass through unchanged. *)
Lemma elem_of_escape c t : c ∈ escape t ↔ c ∈ t.
Proof.
  induction t as [|d t IH]; simpl; [done|].
  destruct (decide (d = DQ)) as [->|]; rewrite !elem_of_cons, IH; tauto.
Qed.

End ScannerFacts.

(** ** One name and one separator *)

(** [r] is empty or starts with a separator. *)
Definition sep_ahead `{CT : Ctype} (r : list ascii) : Prop :=
  match r with
  | [] => True
  | c :: _ => is_sep c = true
  end.

(** What may follow a part: anything but a quote after a quoted name (a
    quote there would have been read as half of a pair), a separator or
    the end after an unquoted one. *)
Definition follows `{CT : Ctype} (np : NamePart) (r : list ascii) : Prop :=
  if wasQuoted np then no_quote_ahead r else sep_ahead r.

Section Parts.
Context `{CT : Ctype}.
Implicit Types (s w r ws raw : list ascii) (c : ascii) (np : NamePart).

Lemma name_char_not_DQ c : name_char c → c ≠ DQ.
Proof. intros [H _]. by apply ident_char_not_DQ. Qed.

Lemma name_char_not_space c : name_char c → isspace c = false.
Proof. intros [_ H]. by apply is_sep_false in H as [_ ?]. Qed.

Lemma blank_take_while s : blank (take_while isspace s).
Proof. apply take_while_Forall. Qed.

Lemma blank_sep_ahead ws r : blank ws → sep_ahead r → sep_ahead (ws ++ r).
Proof. intros [|c ws' Hc _] Hr; [done|]. by apply is_sep_isspace. Qed.

Lemma blank_no_quote_ahead ws r : blank ws → no_quote_ahead r → no_quote_ahead (ws ++ r).
Proof. intros [|c ws' Hc _] Hr; [done|]. by apply isspace_not_DQ. Qed.

Lemma blank_follows np ws r :
  blank ws → sep_ahead r → no_quote_ahead r → follows np (ws ++ r).
Proof.
  intros. unfold follows.
  destruct (wasQuoted np); auto using blank_sep_ahead, blank_no_quote_ahead.
Qed.

Lemma scan_unquoted_sound s w r :
  scan_unquoted s = Some (w, r) → s = w ++ r ∧ Forall name_char w ∧ sep_ahead r.
Proof.
  revert w r. induction s as [|c s IH]; intros w r; simpl.
  - by intros [= <- <-].
  - destruct (is_sep c) eqn:Hs; [by intros [= <- <-]|].
    destruct (ident_char c) eqn:Hi; [|done].
    destruct (scan_unquoted s) as [[w' r']|]; [|done]. intros [= <- <-].
    destruct (IH _ _ eq_refl) as (-> & ? & ?). by repeat constructor.
Qed.

Lemma scan_unquoted_complete w r :
  Forall name_char w → sep_ahead r → scan_unquoted (w ++ r) = Some (w, r).
Proof.
  intros Hw Hr. induction Hw as [|c w [Hi Hs] _ IH]; simpl.
  - destruct r as [|c r]; simpl in *; [done|]. by rewrite Hr.
  - by rewrite Hs, Hi, IH.
Qed.

Lemma scan_unquoted_length s w r : scan_unquoted s = Some (w, r) → length s = length w + length r.
Proof. intros (-> & _)%scan_unquoted_sound. by rewrite length_app. Qed.

(** The first character of a written name is not white space. *)
Lemma name_head raw np : name raw np → ∃ c raw', raw = c :: raw' ∧ isspace c = false.
Proof.
  intros [w Hw Hf|t].
  - destruct Hf as [|c w' Hc _]; [done|]. eauto using name_char_not_space.
  - eexists _, _. split; [done|]. apply isspace_DQ.
Qed.

Lemma parse_name_sound s np r :
  parse_name s = Some (np, r) → ∃ raw, s = raw ++ r ∧ name raw np ∧ follows np r.
Proof.
  destruct s as [|c s]; [done|]. unfold parse_name.
  destruct (decide (c = DQ)) as [->|Hc].
  - destruct (unquote s) as [[t r']|] eqn:E; [|done]. intros [= <- <-].
    apply unquote_sound in E as [-> ?]. exists (DQ :: escape t ++ [DQ]).
    split; [solve_app|]. split; [constructor|done].
  - destruct (scan_unquoted (c :: s)) as [[w r']|] eqn:E; [|done]. simpl.
    case_decide; [done|]. intros [= <- <-].
    apply scan_unquoted_sound in E as (E & ? & ?). exists w.
    split; [done|]. split; [by constructor|done].
Qed.

Lemma parse_name_complete raw np r :
  name raw np → follows np r → parse_name (raw ++ r) = Some (np, r).
Proof.
  intros [w Hw Hf|t] Hr; unfold follows in Hr; simpl in Hr.
  - pose proof (scan_unquoted_complete _ _ Hf Hr) as E.
    destruct Hf as [|c w' Hc _]; [done|]. simpl app at 1. unfold parse_name.
    rewrite decide_False by by apply name_char_not_DQ.
    simpl app in E. by rewrite E.
  - app_norm. by rewrite unquote_escape.
Qed.

(** A name takes at least one character of the input. *)
Lemma parse_name_length s np r : parse_name s = Some (np, r) → length r < length s.
Proof.
  intros (raw & -> & Hn & _)%parse_name_sound.
  apply name_head in Hn as (c & raw' & -> & _). rewrite length_app. simpl. lia.
Qed.

Lemma parse_sep_done s : parse_sep s = Some None ↔ blank s.
Proof.
  unfold parse_sep. split.
  - destruct (drop_while isspace s) as [|c r] eqn:E; [|by case_decide].
    intros _. rewrite <- (take_drop_while isspace s), E, app_nil_r.
    apply blank_take_while.
  - intros H. rewrite <- (app_nil_r s). by rewrite drop_while_exact.
Qed.

Lemma parse_sep_more s r :
  parse_sep s = Some (Some r) ↔
  ∃ ws1 ws2, s = ws1 ++ DOT :: ws2 ++ r ∧ blank ws1 ∧ blank ws2 ∧ stops_at isspace r.
Proof.
  unfold parse_sep. split.
  - destruct (drop_while isspace s) as [|c r'] eqn:E; [done|].
    case_decide as Hc; [|done]. intros [= <-]. subst c.
    exists (take_while isspace s), (take_while isspace r').
    rewrite take_drop_while, <- E, take_drop_while.
    auto 6 using blank_take_while, drop_while_stops.
  - intros (ws1 & ws2 & -> & H1 & H2 & Hr).
    rewrite drop_while_exact by (done || apply isspace_DOT).
    rewrite decide_True by done. by rewrite drop_while_exact.
Qed.

Lemma parse_sep_length s r : parse_sep s = Some (Some r) → length r < length s.
Proof.
  intros (ws1 & ws2 & -> & _)%parse_sep_more.
  rewrite !length_app. simpl. rewrite length_app. lia.
Qed.

End Parts.

(** ** The loop over the names *)

Section Parser.
Context `{CT : Ctype}.
Implicit Types (s r ws raw : list ascii) (np : NamePart) (nps : list NamePart).

(** One name, then either the end of the input or a dot and the names
    that follow it.  The recursion is on the length of the input, which
    every name and every dot shortens. *)
Equations? parse_names (s : list ascii) : option (list NamePart) by wf (length s) lt :=
  parse_names s with inspect (parse_name s) := {
    | exist _ None _ => None
    | exist _ (Some (np, r)) Hn with inspect (parse_sep r) := {
        | exist _ None _ => None
        | exist _ (Some None) _ => Some [np]
        | exist _ (Some (Some r')) Hs => (np ::.) <$> parse_names r' } }.
Proof. apply parse_name_length in Hn. apply parse_sep_length in Hs. lia. Qed.

(** The whole input: leading white space, then nothing (no part) or the
    names. *)
Definition parse_qualified (s : list ascii) : option (list NamePart) :=
  match drop_while isspace s with
  | [] => Some []
  | s' => parse_names s'
  end.

(** Whether the input is a qualified name. *)
Definition is_qualified (s : list ascii) : bool :=
  if parse_qualified s is Some _ then true else false.

Lemma parse_names_eq s :
  parse_names s =
  match parse_name s with
  | None => None
  | Some (np, r) =>
      match parse_sep r with
      | None => None
      | Some None => Some [np]
      | Some (Some r') => (np ::.) <$> parse_names r'
      end
  end.
Proof.
  funelim (parse_names s);
    repeat match goal with
           | E : ?x = _ |- context [match ?x with _ => _ end] => rewrite E
           end; done.
Qed.

(** *** The parser accepts exactly the grammar *)

Lemma names_nonempty s nps : names s nps → nps ≠ [].
Proof. by destruct 1. Qed.

(** Written names start with a character that is not white space. *)
Lemma names_head s nps : names s nps → stops_at isspace s.
Proof.
  intros [raw np ws Hn _|raw np ws1 ws2 rest nps' Hn _ _ _];
    by apply name_head in Hn as (c & raw' & -> & ?).
Qed.

Lemma parse_names_sound s nps : parse_names s = Some nps → names s nps.
Proof.
  revert nps. induction s as [s IH] using (induction_ltof1 _ (@length ascii)).
  unfold ltof in IH. intros nps. rewrite parse_names_eq.
  destruct (parse_name s) as [[np r]|] eqn:En; [|done].
  pose proof (parse_name_length _ _ _ En) as Hl.
  apply parse_name_sound in En as (raw & -> & Hraw & _).
  destruct (parse_sep r) as [[r'|]|] eqn:Es; [| |done].
  - pose proof (parse_sep_length _ _ Es).
    apply parse_sep_more in Es as (ws1 & ws2 & -> & ? & ? & _).
    destruct (parse_names r') as [nps'|] eqn:E; [|done]. intros [= <-].
    constructor; auto with lia.
  - intros [= <-]. apply parse_sep_done in Es. by constructor.
Qed.

Lemma parse_names_complete s nps : names s nps → parse_names s = Some nps.
Proof.
  induction 1 as [raw np ws Hn Hws|raw np ws1 ws2 rest nps Hn H1 H2 Hr IH];
    rewrite parse_names_eq.
  - rewrite (parse_name_complete _ _ _ Hn).
    + by rewrite (proj2 (parse_sep_done ws)).
    + rewrite <- (app_nil_r ws). by apply blank_follows.
  - rewrite (parse_name_complete _ _ _ Hn).
    + rewrite (proj2 (parse_sep_more _ rest)); [by rewrite IH|].
      exists ws1, ws2. eauto using names_head.
    + by apply blank_follows.
Qed.

Lemma parse_names_spec s nps : parse_names s = Some nps ↔ names s nps.
Proof. split; [apply parse_names_sound|apply parse_names_complete]. Qed.

Lemma parse_qualified_sound s nps : parse_qualified s = Some nps → qualified s nps.
Proof.
  unfold parse_qualified. rewrite <- (take_drop_while isspace s) at 2.
  destruct (drop_while isspace s) as [|c s'] eqn:E.
  - intros [= <-]. rewrite app_nil_r. constructor. apply blank_take_while.
  - intros H%parse_names_sound. constructor; [apply blank_take_while|done].
Qed.

Lemma parse_qualified_complete s nps : qualified s nps → parse_qualified s = Some nps.
Proof.
  intros [ws Hws|ws s' nps' Hws Hn]; unfold parse_qualified.
  - rewrite <- (app_nil_r ws). by rewrite drop_while_exact.
  - rewrite drop_while_exact by eauto using names_head.
    apply parse_names_complete in Hn as E. destruct s'; [|done].
    by rewrite parse_names_eq in E.
Qed.

Lemma names_parts_ok s nps : names s nps → Forall part_ok nps.
Proof.
  induction 1 as [raw np ws Hn _|raw np ws1 ws2 rest nps Hn _ _ _ IH];
    (constructor; [|done || constructor]); by destruct Hn.
Qed.

Lemma name_print_part np : part_ok np → name (print_part np) np.
Proof.
  destruct np as [t []]; unfold part_ok, print_part; simpl.
  - intros _. apply name_quoted.
  - intros [? ?]; [done|]. by apply name_unquoted.
Qed.

Lemma names_print_names nps :
  nps ≠ [] → Forall part_ok nps → names (print_names nps) nps.
Proof.
  intros Hne H. induction H as [|np nps Hnp Hnps IH]; [done|].
  destruct nps as [|np' nps'].
  - simpl. rewrite <- (app_nil_r (print_part np)).
    apply names_last; [by apply name_print_part|constructor].
  - change (print_names (np :: np' :: nps'))
      with (print_part np ++ [] ++ DOT :: [] ++ print_names (np' :: nps')).
    apply names_more; [by apply name_print_part|constructor..|by apply IH].
Qed.

End Parser.

(** ** The specification, as theorems *)

Section Spec.
Context `{CT : Ctype}.
Implicit Types (s : list ascii) (nps : list NamePart).

(** The reference parser decides the grammar: it returns the parts of
    [s] exactly when [s] is a qualified name with these parts. *)
Theorem parse_qualified_spec s nps :
  parse_qualified s = Some nps ↔ qualified s nps.
Proof. split; [apply parse_qualified_sound|apply parse_qualified_complete]. Qed.

(** A string denotes at most one sequence of parts. *)
Theorem qualified_functional s nps1 nps2 :
  qualified s nps1 → qualified s nps2 → nps1 = nps2.
Proof. intros H1%parse_qualified_spec H2%parse_qualified_spec. congruence. Qed.

(** The string with no part is the blank one. *)
Theorem parse_qualified_no_part s : parse_qualified s = Some [] ↔ blank s.
Proof.
  rewrite parse_qualified_spec. split.
  - inversion 1 as [|ws s' nps ? Hn]; [done|]. by apply names_nonempty in Hn.
  - by constructor.
Qed.

(** Every unquoted part the parser returns is a non-empty run of name
    characters. *)
Theorem parse_qualified_parts_ok s nps :
  parse_qualified s = Some nps → Forall part_ok nps.
Proof.
  intros H%parse_qualified_spec. destruct H as [|ws s' nps _ Hn]; [constructor|].
  by eapply names_parts_ok.
Qed.

(** Printing well-formed parts with dots between them and parsing the
    result gives the parts back. *)
Theorem parse_print_names nps :
  nps ≠ [] → Forall part_ok nps → parse_qualified (print_names nps) = Some nps.
Proof.
  intros Hne Hok. apply parse_qualified_spec.
  change (print_names nps) with ([] ++ print_names nps).
  constructor; [constructor|by apply names_print_names].
Qed.

End Spec.

(** ** The two ends of a qualified name *)

Section Ends.
Context `{CT : Ctype}.
Implicit Types (s raw ws : list ascii) (c : ascii) (np : NamePart) (nps : list NamePart).

Lemma blank_elem ws c : blank ws → c ∈ ws → c ≠ DOT.
Proof.
  intros H Hc ->. apply (proj1 (Forall_forall _ _) H) in Hc.
  by rewrite isspace_DOT in Hc.
Qed.

(** A written name starts and ends with a name character or a quote. *)
Lemma name_ends raw np c : name raw np → head raw = Some c ∨ last raw = Some c → c ≠ DOT.
Proof.
  intros [w Hw Hf|t] Hc.
  - assert (c ∈ w) as Hin
      by (destruct Hc as [Hc|Hc]; [by apply head_Some_elem_of|by apply last_Some_elem_of]).
    apply (proj1 (Forall_forall _ _) Hf) in Hin as [_ Hs]. by apply is_sep_false in Hs as [? _].
  - rewrite app_comm_cons, last_snoc in Hc. by destruct Hc as [[= <-]|[= <-]].
Qed.

Lemma name_not_nil raw np : name raw np → raw ≠ [].
Proof. by intros (c & raw' & -> & _)%name_head. Qed.

Lemma names_not_nil s nps : names s nps → s ≠ [].
Proof.
  intros [raw np ws Hn _|raw np ws1 ws2 rest nps' Hn _ _ _];
    by apply name_head in Hn as (c & raw' & -> & _).
Qed.

Lemma names_head_not_dot s nps c : names s nps → head s = Some c → c ≠ DOT.
Proof.
  intros [raw np ws Hn _|raw np ws1 ws2 rest nps' Hn _ _ _] Hc;
    apply (name_ends _ _ c Hn); left; pose proof (name_not_nil _ _ Hn);
    by destruct raw.
Qed.

Lemma names_last_not_dot s nps c : names s nps → last s = Some c → c ≠ DOT.
Proof.
  induction 1 as [raw np ws Hn Hws|raw np ws1 ws2 rest nps Hn _ _ Hr IH].
  - rewrite last_app. destruct (last ws) as [d|] eqn:E.
    + intros [= ->]. by eapply blank_elem, last_Some_elem_of.
    + intros Hc. apply (name_ends _ _ c Hn). by right.
  - pose proof (names_not_nil _ _ Hr). destruct rest as [|e rest']; [done|].
    by rewrite app_assoc, last_app_cons, app_comm_cons, last_app_cons.
Qed.

(** A qualified name neither starts nor ends with a dot. *)
Lemma qualified_ends_not_dot s nps c :
  qualified s nps → head s = Some c ∨ last s = Some c → c ≠ DOT.
Proof.
  intros [ws Hws|ws s' nps' Hws Hn] Hc.
  - eapply blank_elem; [done|].
    destruct Hc as [Hc|Hc]; [by apply head_Some_elem_of|by apply last_Some_elem_of].
  - destruct Hc as [Hc|Hc].
    + destruct ws as [|d ws']; [by eapply names_head_not_dot|].
      injection Hc as ->. eapply blank_elem; [done|left].
    + rewrite last_app in Hc. destruct (last s') as [d|] eqn:E.
      * injection Hc as ->. by eapply names_last_not_dot.
      * apply last_None in E. by apply names_not_nil in Hn.
Qed.

End Ends.

(** ** Where a name is expected *)

(** Names, each with the dot after it: what a qualified name with more
    names starts with. *)
Inductive dotted `{CT : Ctype} : list ascii → Prop :=
| dotted_nil : dotted []
| dotted_more raw np ws1 ws2 p :
    name raw np → blank ws1 → blank ws2 → dotted p →
    dotted (raw ++ ws1 ++ DOT :: ws2 ++ p).

(** No name starts at [bad]: it is empty, or its first character is a
    dot or a character that is neither a quote nor one of a name. *)
Definition no_name_ahead `{CT : Ctype} (bad : list ascii) : Prop :=
  match bad with
  | [] => True
  | c :: _ => c ≠ DQ ∧ isspace c = false ∧ (c = DOT ∨ ident_char c = false)
  end.

Section Expected.
Context `{CT : Ctype}.
Implicit Types (s p raw ws bad : list ascii) (np : NamePart).

Lemma no_name_ahead_spec bad :
  no_name_ahead bad → stops_at isspace bad ∧ parse_name bad = None.
Proof.
  destruct bad as [|c bad]; [done|]. intros (Hq & Hs & Hc). split; [done|].
  unfold parse_name. rewrite decide_False by done. simpl.
  destruct Hc as [->|Hc]; [done|]. rewrite Hc. by destruct (is_sep c).
Qed.

Lemma dotted_stops p s : dotted p → stops_at isspace s → stops_at isspace (p ++ s).
Proof.
  intros [|raw np ws1 ws2 p' Hn _ _ _] Hs; [done|].
  by apply name_head in Hn as (c & raw' & -> & ?).
Qed.

(** The parser passes the names and their dots. *)
Lemma parse_names_dotted p s :
  dotted p → stops_at isspace s → parse_names s = None → parse_names (p ++ s) = None.
Proof.
  intros Hp Hs E. induction Hp as [|raw np ws1 ws2 p Hn H1 H2 Hp IH]; [done|].
  rewrite parse_names_eq. app_norm.
  rewrite (parse_name_complete _ _ _ Hn) by by apply blank_follows.
  rewrite (proj2 (parse_sep_more _ (p ++ s))); [by rewrite IH|].
  exists ws1, ws2. split_and!; [solve_app|done..|by apply dotted_stops].
Qed.

(** A string is not a qualified name when, at its start or after one of
    its dots, there is no name: the string ends there, or what comes is
    neither a quote nor a name character. *)
Lemma parse_qualified_no_name ws p bad :
  blank ws → dotted p → no_name_ahead bad →
  p ++ bad ≠ [] → parse_qualified (ws ++ p ++ bad) = None.
Proof.
  intros Hws Hp [Hs E]%no_name_ahead_spec Hne. unfold parse_qualified.
  rewrite drop_while_exact by (done || by apply dotted_stops).
  destruct (p ++ bad) as [|c s] eqn:Es; [done|]. rewrite <- Es.
  apply parse_names_dotted; [done..|]. by rewrite parse_names_eq, E.
Qed.

End Expected.
