(* ===== verification/Quoting.v ===== *)
(** * Quoting by doubling

    What the quoting functions of the host do to a text, as the
    specification describes them: a text is wrapped in a quote character
    and every occurrence of that character inside is doubled.  [double]
    is the encoder for an arbitrary quote character and [undouble] its
    decoder; [escape] of [QualifiedName] is [double] for the double
    quote.  [tolower] is the folding of the ASCII letters that [lower]
    applies to every byte.

    These are reference definitions: the code of the functions is in
    PostgreSQL, not in [src/assert.c]. *)

From S2P Require Import Prelude Ctype QualifiedName.

(** ** Encoder and decoder *)

(** Every [q] of [t] doubled. *)
Fixpoint double (q : ascii) (t : list ascii) : list ascii :=
  match t with
  | [] => []
  | c :: t' => if decide (c = q) then q :: q :: double q t' else c :: double q t'
  end.

(** The text of which [s] is the doubling: every pair of [q] collapsed;
    [None] when a [q] of [s] stands alone. *)
Fixpoint undouble (q : ascii) (s : list ascii) : option (list ascii) :=
  match s with
  | [] => Some []
  | c :: s' =>
      if decide (c = q) then
        match s' with
        | c' :: s'' => if decide (c' = q) then (q ::.) <$> undouble q s'' else None
        | [] => None
        end
      else (c ::.) <$> undouble q s'
  end.

(** [quoted q t]: [t] between two [q], its own [q] doubled. *)
Definition quoted (q : ascii) (t : list ascii) : list ascii := q :: double q t ++ [q].

(** The inverse of [quoted]: strips the two [q] and collapses the pairs
    between them. *)
Definition unquoted (q : ascii) (s : list ascii) : option (list ascii) :=
  match s with
  | c :: s' =>
      if decide (c = q) then
        match reverse s' with
        | c' :: r => if decide (c' = q) then undouble q (reverse r) else None
        | [] => None
        end
      else None
  | [] => None
  end.

(** ** Case folding *)

(** The lower-case form of an ASCII letter; other bytes are kept. *)
Definition tolower (c : ascii) : ascii :=
  if c_isupper c then ascii_of_nat (nat_of_ascii c + 32) else c.

(** ** Facts *)

Section Doubling.
Implicit Types (q c : ascii) (t s : list ascii).

Lemma double_cons_q q t : double q (q :: t) = q :: q :: double q t.
Proof. simpl. by rewrite decide_True. Qed.

Lemma double_cons_other q c t : c ≠ q → double q (c :: t) = c :: double q t.
Proof. intros H. simpl. by rewrite decide_False. Qed.

Lemma double_app q t1 t2 : double q (t1 ++ t2) = double q t1 ++ double q t2.
Proof.
  induction t1 as [|c t1 IH]; simpl; [done|]. case_decide; simpl; by rewrite IH.
Qed.

Lemma double_id q t : q ∉ t → double q t = t.
Proof.
  induction t as [|c t IH]; [done|]. intros [? ?]%not_elem_of_cons.
  rewrite double_cons_other by done. by rewrite IH.
Qed.

Lemma double_length q t : length t ≤ length (double q t).
Proof. induction t as [|c t IH]; simpl; [done|]. case_decide; simpl; lia. Qed.

(** Doubling adds no character that the text does not have. *)
Lemma elem_of_double q c t : c ∈ double q t ↔ c ∈ t.
Proof.
  induction t as [|d t IH]; simpl; [done|].
  destruct (decide (d = q)) as [->|]; rewrite !elem_of_cons, IH; tauto.
Qed.

Lemma elem_of_quoted q c t : c ∈ quoted q t ↔ c = q ∨ c ∈ t.
Proof.
  unfold quoted. rewrite elem_of_cons, elem_of_app, elem_of_double, list_elem_of_singleton.
  tauto.
Qed.

(** The encoder of quoted identifiers is the doubling of the double
    quote. *)
Lemma escape_double t : escape t = double DQ t.
Proof. induction t as [|c t IH]; simpl; [done|]. case_decide; by rewrite IH. Qed.

(** Decoding undoes encoding. *)
Lemma undouble_double q t : undouble q (double q t) = Some t.
Proof.
  induction t as [|c t IH]; simpl; [done|]. case_decide as Hc.
  - subst. simpl. rewrite !decide_True by done. by rewrite IH.
  - simpl. rewrite decide_False by done. by rewrite IH.
Qed.

(** What the decoder accepts is a doubling, of the text it gives. *)
Lemma undouble_sound_cons q s :
  (∀ t, undouble q s = Some t → s = double q t)
  ∧ (∀ c t, undouble q (c :: s) = Some t → c :: s = double q t).
Proof.
  induction s as [|d s [IH1 IH2]].
  - split; [by intros t [= <-]|]. intros c t. simpl. case_decide; [done|].
    intros [= <-]. by rewrite double_cons_other.
  - split; [by apply IH2|]. intros c t. cbn [undouble].
    destruct (decide (c = q)) as [->|Hc].
    + destruct (decide (d = q)) as [->|Hd]; [|done].
      intros (t' & E & ->)%fmap_Some. apply IH1 in E as ->. by rewrite double_cons_q.
    + intros (t' & E & ->)%fmap_Some. apply IH2 in E. by rewrite double_cons_other, E.
Qed.

Lemma undouble_sound q s t : undouble q s = Some t → s = double q t.
Proof. apply undouble_sound_cons. Qed.

Lemma undouble_spec q s t : undouble q s = Some t ↔ s = double q t.
Proof. split; [apply undouble_sound|]. intros ->. apply undouble_double. Qed.

Lemma double_inj q : Inj (=) (=) (double q).
Proof.
  intros t1 t2 E. assert (H : undouble q (double q t1) = undouble q (double q t2))
    by by rewrite E.
  rewrite !undouble_double in H. by injection H.
Qed.

(** Stripping the quotes undoes wrapping in them. *)
Lemma unquoted_quoted q t : unquoted q (quoted q t) = Some t.
Proof.
  unfold unquoted, quoted. rewrite decide_True by done.
  rewrite reverse_app. simpl. rewrite decide_True by done.
  by rewrite reverse_involutive, undouble_double.
Qed.

(** The decoder accepts the wrapped texts only. *)
Lemma unquoted_spec q s t : unquoted q s = Some t ↔ s = quoted q t.
Proof.
  split; [|intros ->; apply unquoted_quoted]. unfold unquoted, quoted.
  destruct s as [|c s]; [done|]. case_decide as Hc; [subst c|done].
  destruct (reverse s) as [|c r] eqn:E; [done|]. case_decide as Hc; [subst c|done].
  intros Hu%undouble_sound. apply (f_equal reverse) in E.
  rewrite reverse_involutive, reverse_cons, Hu in E. by rewrite E.
Qed.

End Doubling.

(** ** Byte-wise maps and doubling *)

(** A map of the bytes that sends the quote character, and no other, to
    the quote character passes through the doubling. *)
Section Folding.
Context (f : ascii → ascii) (q : ascii) (f_quote : ∀ c, f c = q ↔ c = q).
Implicit Types (c : ascii) (t : list ascii).

Lemma fmap_double t : f <$> double q t = double q (f <$> t).
Proof.
  induction t as [|c t IH]; [done|]. cbn [double fmap list_fmap].
  destruct (decide (c = q)) as [->|Hc].
  - rewrite (proj2 (f_quote q) eq_refl), decide_True by done.
    rewrite <- IH. simpl. by rewrite (proj2 (f_quote q) eq_refl).
  - rewrite decide_False by (by rewrite f_quote). simpl. by rewrite <- IH.
Qed.

Lemma fmap_quoted t : f <$> quoted q t = quoted q (f <$> t).
Proof.
  unfold quoted. rewrite fmap_cons, fmap_app, fmap_double. simpl.
  by rewrite (proj2 (f_quote q) eq_refl).
Qed.

Lemma fmap_fixed t : Forall (λ c, f c = c) t → f <$> t = t.
Proof. induction 1 as [|c t Hc _ IH]; [done|]. by rewrite fmap_cons, Hc, IH. Qed.

(** The map adds no quote character and removes none. *)
Lemma elem_of_fmap_quote t : q ∈ f <$> t ↔ q ∈ t.
Proof.
  rewrite list_elem_of_fmap. split.
  - intros (c & E & ?). symmetry in E. by apply f_quote in E as ->.
  - intros ?. exists q. by rewrite (proj2 (f_quote q) eq_refl).
Qed.

End Folding.

(** ** Case folding of ASCII *)

Section Tolower.
Implicit Types (c : ascii).

Lemma tolower_DQ c : tolower c = DQ ↔ c = DQ.
Proof. split; [|by intros ->]. ascii_cases c. Qed.

Lemma tolower_NUL c : tolower c = NUL ↔ c = NUL.
Proof. split; [|by intros ->]. ascii_cases c. Qed.

Lemma tolower_idemp c : tolower (tolower c) = tolower c.
Proof. ascii_cases c. Qed.

End Tolower.
