(* ===== verification/ParseIdent.v ===== *)
(** * ParseIdentifierString

    The tokenizer of [src/assert.c], lines 50-121, as it is written: the
    pointer [nextp] walks the NUL-terminated buffer, each C loop is a
    [Fixpoint] on fuel, each [return false] is a [preturn], and the
    collapse of a doubled quote is the [memmove] of the rest of the string
    one byte to the left.  The locals [curname] and [endp], which the C
    code computes and never uses, are returned by the loop so that
    theorems can say what the buffer holds between them.

    The theorems: the function returns for every NUL-terminated buffer
    (no fault, no exhausted fuel); its result is that of the reference
    parser [parse_qualified], hence membership in the grammar
    [qualified]; after a successful run the bytes between each [curname]
    and [endp] are the text of the corresponding part; the buffer keeps
    its size, whatever it holds. *)

From S2P Require Import Prelude Ctype CString QualifiedName.

Local Open Scope prog_scope.

Section Code.
Context `{CT : Ctype}.

(** [while (isspace((unsigned char) *nextp)) nextp++;] *)
Fixpoint skip_space (fuel : nat) (nextp : nat) : prog cbuf bool nat :=
  match fuel with
  | O => pfault OutOfFuel
  | S fuel' =>
      c <- load nextp ;;
      if isspace c then skip_space fuel' (S nextp) else pret nextp
  end.

(** The [for (;;)] of the quoted branch, entered with [nextp] at the
    opening quote; it ends with [endp] at the closing quote. *)
Fixpoint scan_quoted (fuel : nat) (nextp : nat) : prog cbuf bool nat :=
  match fuel with
  | O => pfault OutOfFuel
  | S fuel' =>
      found <- strchr (S nextp) DQ ;;
      match found with
      | None => preturn false
      | Some endp =>
          c <- load (S endp) ;;
          if decide (c ≠ DQ) then pret endp
          else
            n <- strlen endp ;;
            _ <- memmove endp (S endp) n ;;
            scan_quoted fuel' endp
      end
  end.

(** The [while] of the unquoted branch; it ends with [nextp] at the first
    byte that is the terminator, a dot or white space. *)
Fixpoint scan_name (fuel : nat) (nextp : nat) : prog cbuf bool nat :=
  match fuel with
  | O => pfault OutOfFuel
  | S fuel' =>
      c <- load nextp ;;
      if name_stop c then pret nextp
      else if negb (ident_char c) then preturn false
      else scan_name fuel' (S nextp)
  end.

(** The first half of the loop body: one name.  Gives [curname], [endp]
    and the new [nextp]. *)
Definition parse_one (fuel : nat) (nextp : nat) : prog cbuf bool (nat * nat * nat) :=
  c <- load nextp ;;
  if decide (c = DQ) then
    let curname := S nextp in
    endp <- scan_quoted fuel nextp ;;
    pret (curname, endp, S endp)
  else
    let curname := nextp in
    nextp <- scan_name fuel nextp ;;
    let endp := nextp in
    if decide (curname = nextp) then preturn false
    else pret (curname, endp, nextp).

(** The second half of the loop body: white space, then a dot or the end.
    Gives [done] and the new [nextp]. *)
Definition after_name (fuel : nat) (nextp : nat) : prog cbuf bool (bool * nat) :=
  nextp <- skip_space fuel nextp ;;
  c <- load nextp ;;
  if decide (c = DOT) then
    nextp <- skip_space fuel (S nextp) ;;
    pret (false, nextp)
  else if decide (c = NUL) then pret (true, nextp)
  else preturn false.

(** [do { ... } while (!done);] with the pairs ([curname], [endp]) of its
    iterations. *)
Fixpoint name_loop (fuel : nat) (nextp : nat) : prog cbuf bool (list (nat * nat)) :=
  match fuel with
  | O => pfault OutOfFuel
  | S fuel' =>
      '(curname, endp, nextp) <- parse_one fuel nextp ;;
      '(done, nextp) <- after_name fuel nextp ;;
      if done : bool then pret [(curname, endp)]
      else
        rest <- name_loop fuel' nextp ;;
        pret ((curname, endp) :: rest)
  end.

(** The function body, [rawstring] being offset 0 of the buffer. *)
Definition ParseIdentifierString_body (fuel : nat) : prog cbuf bool bool :=
  nextp <- skip_space fuel 0 ;;
  c <- load nextp ;;
  if decide (c = NUL) then preturn true
  else
    _ <- name_loop fuel nextp ;;
    pret true.

(** A call of the function on a buffer.  The fuel exceeds the size of the
    buffer: no loop of the function can run longer. *)
Definition ParseIdentifierString (rawstring : cbuf) : result bool :=
  run (ParseIdentifierString_body (S (length rawstring))) rawstring.

(** The names the function has delimited when it returns [true]: the
    bytes of the final buffer between each [curname] and [endp]. *)
Definition delimited_names (rawstring : cbuf) : option (list (list ascii)) :=
  let fuel := S (length rawstring) in
  match (nextp <- skip_space fuel 0 ;;
         c <- load nextp ;;
         if decide (c = NUL) then pret []
         else name_loop fuel nextp) rawstring return option (list (list ascii)) with
  | Next (spans, b) => Some ((λ '(curname, endp), slice b curname endp) <$> spans)
  | _ => None
  end.

End Code.

(** ** The loops that only read *)

Section Reading.
Context `{CT : Ctype}.
Implicit Types (b : cbuf) (s w r : list ascii) (p fuel : nat) (c : ascii).

(** A load inside a string gives its first character, or the terminator
    at its end. *)
Lemma load_cstr b p s : cstr_at b p s → load (R:=bool) p b = Next (default NUL (head s), b).
Proof. intros H. unfold load. by rewrite (cstr_at_lookup _ _ _ H). Qed.

Lemma cstr_at_head_not_NUL b p c s : cstr_at b p (c :: s) → c ≠ NUL.
Proof. intros [Hn _] ->. apply Hn. left. Qed.

(** [skip_space] moves [nextp] over the leading white space of the
    string, and over nothing else. *)
Lemma skip_space_spec fuel b p s :
  cstr_at b p s → length s < fuel →
  skip_space fuel p b = Next (p + length (take_while isspace s), b).
Proof.
  revert p fuel. induction s as [|c s IH]; intros p [|fuel] Hb Hf; simpl in *;
    try lia; rewrite (pbind_Next _ _ _ _ _ (load_cstr _ _ _ Hb)); simpl.
  - rewrite isspace_NUL. solve_next.
  - destruct (isspace c).
    + rewrite IH by (eauto with orafce || lia). solve_next.
    + solve_next.
Qed.

(** After [skip_space] the string at [nextp] is the input without its
    leading white space. *)
Lemma skip_space_cstr b p s :
  cstr_at b p s → cstr_at b (p + length (take_while isspace s)) (drop_while isspace s).
Proof.
  intros H. apply cstr_at_app. by rewrite take_drop_while.
Qed.

(** [scan_name] follows the unquoted scan of the reference parser: it
    stops after the run of name characters, or returns [false] at the
    first character that is neither a name character nor a separator. *)
Lemma scan_name_spec fuel b p s :
  cstr_at b p s → length s < fuel →
  scan_name fuel p b =
  match scan_unquoted s with
  | Some (w, _) => Next (p + length w, b)
  | None => Return false
  end.
Proof.
  revert p fuel. induction s as [|c s IH]; intros p [|fuel] Hb Hf; simpl in *;
    try lia; rewrite (pbind_Next _ _ _ _ _ (load_cstr _ _ _ Hb)); simpl.
  - solve_next.
  - rewrite name_stop_sep by eauto using cstr_at_head_not_NUL.
    destruct (is_sep c); [solve_next|].
    destruct (ident_char c); [|done]. simpl.
    rewrite IH by (eauto with orafce || lia).
    destruct (scan_unquoted s) as [[w r]|]; [|done]. solve_next.
Qed.

(** The second half of the loop body follows [parse_sep]. *)
Lemma after_name_spec fuel b p s :
  cstr_at b p s → length s < fuel →
  after_name fuel p b =
  match parse_sep s with
  | None => Return false
  | Some None => Next ((true, p + length s), b)
  | Some (Some r) => Next ((false, p + (length s - length r)), b)
  end.
Proof.
  intros Hb Hf. unfold after_name, parse_sep.
  rewrite (pbind_Next _ _ _ _ _ (skip_space_spec _ _ _ _ Hb Hf)).
  pose proof (skip_space_cstr _ _ _ Hb) as Hb1.
  rewrite (pbind_Next _ _ _ _ _ (load_cstr _ _ _ Hb1)).
  pose proof (take_drop_while isspace s) as Es.
  pose proof (f_equal length Es) as El. rewrite length_app in El.
  destruct (drop_while isspace s) as [|c s1] eqn:E; simpl.
  - solve_next.
  - rewrite (decide_False (P:=c = NUL)) by eauto using cstr_at_head_not_NUL.
    destruct (decide (c = DOT)) as [->|]; [|done].
    apply cstr_at_cons in Hb1.
    rewrite (pbind_Next _ _ _ _ _ (skip_space_spec fuel _ _ _ Hb1 ltac:(simpl in El; lia))).
    pose proof (f_equal length (take_drop_while isspace s1)) as El1.
    rewrite length_app in El1. simpl in El. solve_next.
Qed.

(** Where [after_name] leaves [nextp], the rest of the input starts. *)
Lemma after_name_cstr b p s r :
  cstr_at b p s → parse_sep s = Some (Some r) → cstr_at b (p + (length s - length r)) r.
Proof.
  intros Hb (ws1 & ws2 & -> & _)%parse_sep_more.
  replace (ws1 ++ DOT :: ws2 ++ r) with ((ws1 ++ DOT :: ws2) ++ r) in * by solve_app.
  rewrite length_app. replace (length (ws1 ++ DOT :: ws2) + length r - length r)
    with (length (ws1 ++ DOT :: ws2)) by lia.
  by apply cstr_at_app.
Qed.

End Reading.

(** ** The quote-pair scanner

    [nextp] points at a byte [x] (the opening quote, or the quote that the
    previous iteration kept of a pair); the string after it is [s]. *)

Section Quoted.
Context `{CT : Ctype}.
Implicit Types (b pre junk s a r t : list ascii) (fuel : nat) (x c : ascii).

(** No quote is left: [strchr] returns NULL and the function returns
    [false]. *)
Lemma scan_quoted_none fuel pre x s junk :
  DQ ∉ s → NUL ∉ s →
  scan_quoted (S fuel) (length pre) (pre ++ x :: s ++ NUL :: junk) = Return false.
Proof.
  intros Hq Hn. simpl.
  by rewrite (pbind_Next _ _ _ _ _ (strchr_none _ (pre ++ [x]) s DQ junk
    (S (length pre)) ltac:(solve_app) ltac:(solve_length) Hq Hn DQ_neq_NUL)).
Qed.

(** The next quote is followed by something else: it closes the name, and
    the buffer is left as it is. *)
Lemma scan_quoted_end fuel pre x a r junk :
  DQ ∉ a → NUL ∉ a → no_quote_ahead r →
  scan_quoted (S fuel) (length pre) (pre ++ x :: a ++ DQ :: r ++ NUL :: junk)
  = Next (length pre + 1 + length a, pre ++ x :: a ++ DQ :: r ++ NUL :: junk).
Proof.
  intros Hq Hn Hr. simpl.
  rewrite (pbind_Next _ _ _ _ _ (strchr_found _ (pre ++ [x]) a DQ (r ++ NUL :: junk)
    (S (length pre)) ltac:(solve_app) ltac:(solve_length) Hq Hn)).
  assert (∃ c suf, r ++ NUL :: junk = c :: suf ∧ c ≠ DQ) as (c & suf & E & Hc).
  { destruct r as [|c r]; simpl; eauto using not_eq_sym, DQ_neq_NUL. }
  rewrite (pbind_Next _ _ _ _ _ (load_app _ (pre ++ x :: a ++ [DQ]) c suf
    (S (S (length pre) + length a)) ltac:(rewrite <- E; solve_app) ltac:(solve_length))).
  rewrite decide_True by done. solve_next.
Qed.

(** The next quote is followed by a quote: the rest of the string, with
    its terminator, moves one byte to the left over the first of the two,
    and the loop goes on from the second. *)
Lemma scan_quoted_pair fuel pre x a r junk :
  DQ ∉ a → NUL ∉ a → NUL ∉ r →
  scan_quoted (S fuel) (length pre) (pre ++ x :: a ++ DQ :: DQ :: r ++ NUL :: junk)
  = scan_quoted fuel (length (pre ++ x :: a))
      ((pre ++ x :: a) ++ DQ :: r ++ NUL :: NUL :: junk).
Proof.
  intros Hq Hn Hr. simpl.
  rewrite (pbind_Next _ _ _ _ _ (strchr_found _ (pre ++ [x]) a DQ
    (DQ :: r ++ NUL :: junk) (S (length pre)) ltac:(solve_app) ltac:(solve_length) Hq Hn)).
  rewrite (pbind_Next _ _ _ _ _ (load_app _ (pre ++ x :: a ++ [DQ]) DQ
    (r ++ NUL :: junk) (S (S (length pre) + length a))
    ltac:(solve_app) ltac:(solve_length))).
  rewrite decide_False by (by intros ?).
  rewrite (pbind_Next _ _ _ _ _ (strlen_app _ (pre ++ x :: a) (DQ :: DQ :: r) junk
    (S (length pre) + length a) ltac:(solve_app) ltac:(solve_length)
    ltac:(by rewrite !not_elem_of_cons))).
  rewrite (pbind_Next _ _ _ _ _ (memmove_collapse _ (pre ++ x :: a) DQ (DQ :: r) NUL junk
    (S (length pre) + length a) (length (DQ :: DQ :: r))
    ltac:(solve_app) ltac:(solve_length) ltac:(solve_length))).
  f_equal; (solve_length || solve_app).
Qed.

(** The loop follows the reference scanner [unquote]: it returns [false]
    when no quote closes the name; otherwise it stops with [endp] at the
    closing quote, and the buffer holds the collapsed text between the
    byte after [x] and [endp], then the untouched rest of the input. *)
Lemma scan_quoted_spec fuel pre x s junk :
  NUL ∉ s → length s < fuel →
  match unquote s with
  | None =>
      scan_quoted fuel (length pre) (pre ++ x :: s ++ NUL :: junk) = Return false
  | Some (t, r) =>
      ∃ junk', scan_quoted fuel (length pre) (pre ++ x :: s ++ NUL :: junk)
               = Next (length pre + 1 + length t,
                       pre ++ x :: t ++ DQ :: r ++ NUL :: junk')
  end.
Proof.
  revert pre x s junk. induction fuel as [|fuel IH]; intros pre x s junk Hn Hf; [lia|].
  destruct (decide (DQ ∈ s)) as [Hin|Hq];
    [|by rewrite unquote_no_quote, scan_quoted_none].
  apply list_elem_of_split_l in Hin as (a & r & -> & Ha).
  apply not_elem_of_app in Hn as [Hna [_ Hnr]%not_elem_of_cons].
  destruct r as [|c r]; [|destruct (decide (c = DQ)) as [->|Hc]].
  - rewrite unquote_prefix_end by done. exists junk.
    replace (pre ++ x :: (a ++ [DQ]) ++ NUL :: junk)
      with (pre ++ x :: a ++ DQ :: [] ++ NUL :: junk) by solve_app.
    by rewrite scan_quoted_end.
  - apply not_elem_of_cons in Hnr as [_ Hnr].
    rewrite unquote_prefix_pair by done.
    replace (pre ++ x :: (a ++ DQ :: DQ :: r) ++ NUL :: junk)
      with (pre ++ x :: a ++ DQ :: DQ :: r ++ NUL :: junk) by solve_app.
    rewrite scan_quoted_pair by done.
    specialize (IH (pre ++ x :: a) DQ r (NUL :: junk) Hnr ltac:(solve_length)).
    destruct (unquote r) as [[t r']|]; simpl; [|done].
    destruct IH as [junk' ->]. exists junk'. f_equal; f_equal; [solve_length|solve_app].
  - rewrite unquote_prefix_end by done. exists junk.
    replace (pre ++ x :: (a ++ DQ :: c :: r) ++ NUL :: junk)
      with (pre ++ x :: a ++ DQ :: (c :: r) ++ NUL :: junk) by solve_app.
    by rewrite scan_quoted_end.
Qed.

End Quoted.

(** ** One name *)

(** What one run of the first half of the loop body establishes: the
    bytes before the name are as they were, the bytes between [curname]
    and [endp] are the text of the part, and the rest [r] of the input
    starts at the new [nextp]. *)
Definition name_done (b b' : cbuf) (p cur endp nextp : nat)
    (np : NamePart) (r : list ascii) : Prop :=
  p ≤ cur ∧ cur ≤ endp ∧ endp ≤ nextp ∧ take p b' = take p b ∧
  slice b' cur endp = text np ∧ cstr_at b' nextp r.

(** The text of part [np] lies at [sp] in buffer [b], at or after [p]. *)
Definition span_is (b : cbuf) (p : nat) (sp : nat * nat) (np : NamePart) : Prop :=
  p ≤ sp.1 ∧ slice b sp.1 sp.2 = text np.

Section Names.
Context `{CT : Ctype}.
Implicit Types (b pre junk s r t : list ascii) (p fuel : nat) (np : NamePart).

Lemma parse_one_quoted fuel pre s junk :
  NUL ∉ s → length s < fuel →
  let b := pre ++ DQ :: s ++ NUL :: junk in
  match unquote s with
  | None => parse_one fuel (length pre) b = Return false
  | Some (t, r) =>
      ∃ endp b', parse_one fuel (length pre) b = Next ((S (length pre), endp, S endp), b')
                 ∧ name_done b b' (length pre) (S (length pre)) endp (S endp) (Quoted t) r
  end.
Proof.
  intros Hn Hf b. unfold parse_one.
  rewrite (pbind_Next _ _ _ _ _ (load_app b pre DQ (s ++ NUL :: junk) _ eq_refl eq_refl)).
  rewrite decide_True by done.
  pose proof (scan_quoted_spec fuel pre DQ s junk Hn Hf) as H. fold b in H.
  destruct (unquote s) as [[t r]|] eqn:E; [|by rewrite (pbind_Return _ _ _ _ H)].
  destruct H as [junk' H]. rewrite (pbind_Next _ _ _ _ _ H).
  eexists _, _. split; [done|].
  apply unquote_sound in E as [-> _].
  rewrite !not_elem_of_app, not_elem_of_cons in Hn. destruct Hn as (_ & _ & Hr).
  unfold name_done. split_and!; simpl; try lia.
  - unfold b. by rewrite !take_app_length.
  - apply (slice_app _ (pre ++ [DQ]) t (DQ :: r ++ NUL :: junk')); solve_app || solve_length.
  - split; [done|]. exists (pre ++ DQ :: t ++ [DQ]), junk'. split; [solve_app|solve_length].
Qed.

Lemma parse_one_unquoted fuel b p s :
  cstr_at b p s → length s < fuel → default NUL (head s) ≠ DQ →
  match scan_unquoted s with
  | Some (w, r) =>
      if decide (w = []) then parse_one fuel p b = Return false
      else parse_one fuel p b = Next ((p, p + length w, p + length w), b)
           ∧ name_done b b p p (p + length w) (p + length w) (Unquoted w) r
  | None => parse_one fuel p b = Return false
  end.
Proof.
  intros Hb Hf Hc. unfold parse_one.
  rewrite (pbind_Next _ _ _ _ _ (load_cstr _ _ _ Hb)).
  rewrite decide_False by done.
  pose proof (scan_name_spec fuel b p s Hb Hf) as H.
  destruct (scan_unquoted s) as [[w r]|] eqn:E; [|by rewrite (pbind_Return _ _ _ _ H)].
  rewrite (pbind_Next _ _ _ _ _ H). apply scan_unquoted_sound in E as (-> & _ & _).
  destruct w as [|c w]; simpl.
  - rewrite decide_True by lia. done.
  - rewrite decide_False by lia. split; [done|].
    unfold name_done. split_and!; try (done || lia); [|by apply cstr_at_app in Hb].
    destruct Hb as [_ (pre & junk & -> & <-)].
    apply (slice_app _ pre (c :: w) (r ++ NUL :: junk)); solve_app || solve_length.
Qed.

(** The first half of the loop body follows [parse_name]. *)
Lemma parse_one_spec fuel b p s :
  cstr_at b p s → length s < fuel →
  match parse_name s with
  | None => parse_one fuel p b = Return false
  | Some (np, r) =>
      ∃ cur endp nextp b', parse_one fuel p b = Next ((cur, endp, nextp), b')
                           ∧ name_done b b' p cur endp nextp np r
  end.
Proof.
  intros Hb Hf. destruct s as [|c s]; [|destruct (decide (c = DQ)) as [->|Hc]].
  - by pose proof (parse_one_unquoted fuel b p [] Hb Hf ltac:(done)) as H.
  - destruct Hb as [[_ Hn]%not_elem_of_cons (pre & junk & -> & <-)].
    pose proof (parse_one_quoted fuel pre s junk Hn ltac:(solve_length)) as H.
    simpl in *. destruct (unquote s) as [[t r]|]; simpl; [|done].
    destruct H as (endp & b' & ? & ?). eauto 10.
  - pose proof (parse_one_unquoted fuel b p (c :: s) Hb Hf Hc) as H.
    unfold parse_name. rewrite decide_False by done.
    destruct (scan_unquoted (c :: s)) as [[w r]|]; simpl; [|done].
    destruct (decide (w = [])); [done|]. destruct H. eauto 10.
Qed.

(** ** The loop *)

(** A span that ends inside a prefix two buffers share holds the same
    text in both. *)
Lemma span_is_frame b1 b2 p q sp np :
  span_is b1 p sp np → take q b2 = take q b1 → sp.2 ≤ q → span_is b2 p sp np.
Proof.
  intros [? E1] E ?. split; [done|]. rewrite <- E1. by apply (slice_take_eq _ _ _ _ q).
Qed.

Lemma span_is_mono b p q sp np : span_is b q sp np → p ≤ q → span_is b p sp np.
Proof. intros [? ?] ?. split; [lia|done]. Qed.

(** The loop follows [parse_names]: it returns [false] where the
    reference parser rejects; where it accepts, the loop ends normally,
    the bytes before the first name are as they were, and the final
    buffer holds the text of each part between its [curname] and
    [endp]. *)
Lemma name_loop_spec fuel b p s :
  cstr_at b p s → length s < fuel →
  match parse_names s with
  | None => name_loop fuel p b = Return false
  | Some nps =>
      ∃ spans b', name_loop fuel p b = Next (spans, b')
                  ∧ take p b' = take p b
                  ∧ Forall2 (span_is b' p) spans nps
  end.
Proof.
  revert b p s. induction fuel as [|fuel IH]; intros b p s Hb Hf; [lia|].
  rewrite parse_names_eq. cbn [name_loop].
  pose proof (parse_one_spec (S fuel) b p s Hb Hf) as H1.
  destruct (parse_name s) as [[np r]|] eqn:En; [|by rewrite (pbind_Return _ _ _ _ H1)].
  destruct H1 as (cur & endp & nextp & b1 & E1 & Hp & Hc & He & Ht & Hs & Hb1).
  rewrite (pbind_Next _ _ _ _ _ E1). apply parse_name_length in En.
  pose proof (after_name_spec (S fuel) b1 nextp r Hb1 ltac:(lia)) as H2.
  destruct (parse_sep r) as [[r'|]|] eqn:Es;
    [| |by rewrite (pbind_Return _ _ _ _ H2)]; rewrite (pbind_Next _ _ _ _ _ H2).
  - pose proof (parse_sep_length _ _ Es).
    specialize (IH b1 _ r' (after_name_cstr _ _ _ _ Hb1 Es) ltac:(lia)).
    destruct (parse_names r') as [nps|]; [|by rewrite (pbind_Return _ _ _ _ IH)].
    destruct IH as (spans & b' & E & Ht' & HF). exists ((cur, endp) :: spans), b'.
    rewrite (pbind_Next _ _ _ _ _ E). split_and!; [done| |].
    + rewrite <- Ht. apply (take_take_eq _ _ _ _ Ht'). lia.
    + constructor; [|eapply Forall2_impl; eauto using span_is_mono with lia].
      apply (span_is_frame b1 b' p _ (cur, endp) np (conj Hp Hs) Ht'); simpl; lia.
  - exists [(cur, endp)], b1. split_and!; [done..|]. by repeat constructor.
Qed.

End Names.

(** ** What the function leaves of the buffer *)

Section Size.
Context `{CT : Ctype}.

(** The loops that only read keep every relation between the buffer
    before and the buffer after. *)
Lemma skip_space_keeps (I : relation cbuf) `{!PreOrder I} fuel :
  ∀ nextp, keeps I (skip_space fuel nextp).
Proof. induction fuel as [|fuel IH]; intros nextp; simpl; keeps_steps. Qed.

Lemma scan_name_keeps (I : relation cbuf) `{!PreOrder I} fuel :
  ∀ nextp, keeps I (scan_name fuel nextp).
Proof. induction fuel as [|fuel IH]; intros nextp; simpl; keeps_steps. Qed.

Lemma after_name_keeps (I : relation cbuf) `{!PreOrder I} fuel nextp :
  keeps I (after_name fuel nextp).
Proof. unfold after_name. pose proof (skip_space_keeps I fuel). keeps_steps. Qed.

(** The collapse of a doubled quote moves bytes inside the buffer. *)
Lemma scan_quoted_keeps fuel : ∀ nextp, keeps same_length (scan_quoted fuel nextp).
Proof. induction fuel as [|fuel IH]; intros nextp; simpl; keeps_steps. Qed.

Lemma parse_one_keeps fuel nextp : keeps same_length (parse_one fuel nextp).
Proof.
  unfold parse_one. pose proof (scan_quoted_keeps fuel).
  pose proof (scan_name_keeps same_length fuel). keeps_steps.
Qed.

Lemma name_loop_keeps fuel : ∀ nextp, keeps same_length (name_loop fuel nextp).
Proof.
  induction fuel as [|fuel IH]; intros nextp; [simpl; keeps_steps|]. cbn [name_loop].
  pose proof (parse_one_keeps (S fuel)). pose proof (after_name_keeps same_length (S fuel)).
  keeps_steps.
Qed.

(** The function never changes the size of the buffer, whatever the
    buffer holds: its only write is the [memmove] that collapses a doubled
    quote. *)
Lemma ParseIdentifierString_keeps_length fuel :
  keeps same_length (ParseIdentifierString_body fuel).
Proof.
  unfold ParseIdentifierString_body. pose proof (name_loop_keeps fuel).
  pose proof (skip_space_keeps same_length fuel). keeps_steps.
Qed.

End Size.

(** ** The function *)

Section Function.
Context `{CT : Ctype}.
Implicit Types (b s t : list ascii) (fuel : nat).

(** The prologue of the function: leading white space, then the test for
    the empty string. *)
Lemma prologue_spec fuel b s :
  cstr_at b 0 s → length s < fuel →
  let p := length (take_while isspace s) in
  skip_space fuel 0 b = Next (p, b)
  ∧ load (R:=bool) p b = Next (default NUL (head (drop_while isspace s)), b)
  ∧ cstr_at b p (drop_while isspace s)
  ∧ length (drop_while isspace s) < fuel.
Proof.
  intros Hb Hf p. pose proof (skip_space_cstr _ _ _ Hb) as Hb1.
  pose proof (drop_while_length isspace s).
  split_and!; [by rewrite (skip_space_spec _ _ _ _ Hb Hf)|by apply load_cstr|done|lia].
Qed.

Lemma body_spec fuel b s :
  cstr_at b 0 s → length s < fuel →
  run (ParseIdentifierString_body fuel) b = Done (is_qualified s).
Proof.
  intros Hb Hf. destruct (prologue_spec fuel b s Hb Hf) as (E1 & E2 & Hb1 & Hf1).
  unfold run, ParseIdentifierString_body, is_qualified, parse_qualified.
  rewrite (pbind_Next _ _ _ _ _ E1), (pbind_Next _ _ _ _ _ E2).
  destruct (drop_while isspace s) as [|c s1] eqn:E; [done|]. cbn [head default].
  rewrite decide_False by eauto using cstr_at_head_not_NUL.
  pose proof (name_loop_spec fuel b _ _ Hb1 Hf1) as H.
  destruct (parse_names (c :: s1)) as [nps|]; [|by rewrite (pbind_Return _ _ _ _ H)].
  destruct H as (spans & b' & H & _). by rewrite (pbind_Next _ _ _ _ _ H).
Qed.

(** The bound the function is run with is above the length of the
    string. *)
Lemma fuel_enough b s : cstr_at b 0 s → length s < S (length b).
Proof. intros Hb%cstr_at_bound. lia. Qed.

(** The names delimited in the buffer, for every string. *)
Lemma delimited_names_run b s :
  cstr_at b 0 s → delimited_names b = map text <$> parse_qualified s.
Proof.
  intros Hb. assert (Hf : length s < S (length b)) by (apply cstr_at_bound in Hb; lia).
  destruct (prologue_spec _ b s Hb Hf) as (E1 & E2 & Hb1 & Hf1).
  unfold delimited_names, parse_qualified.
  rewrite (pbind_Next _ _ _ _ _ E1), (pbind_Next _ _ _ _ _ E2).
  destruct (drop_while isspace s) as [|c s1] eqn:E; [done|]. cbn [head default].
  rewrite decide_False by eauto using cstr_at_head_not_NUL.
  pose proof (name_loop_spec _ b _ _ Hb1 Hf1) as H.
  destruct (parse_names (c :: s1)) as [nps|]; [|by rewrite H].
  destruct H as (spans & b' & -> & _ & HF). simpl. f_equal.
  induction HF as [|[cur endp] np spans nps [_ Hs] _ IH]; simpl in *; [done|].
  rewrite Hs. f_equal. exact IH.
Qed.

(** The function on the copy of a text: the C string is the text up to
    its first NUL. *)
Lemma ParseIdentifierString_text t :
  ParseIdentifierString (text_to_cstring t) = Done (is_qualified (cstring_of t)).
Proof.
  apply body_spec; eauto using cstr_at_text, fuel_enough.
Qed.

Lemma is_qualified_spec s : is_qualified s = true ↔ ∃ nps, qualified s nps.
Proof.
  unfold is_qualified. destruct (parse_qualified s) as [nps|] eqn:E.
  - split; [|done]. intros _. exists nps. by apply parse_qualified_spec.
  - split; [done|]. intros [nps H%parse_qualified_spec]. congruence.
Qed.

(** C1. Refinement: on a buffer that holds the NUL-terminated string [s],
    [ParseIdentifierString] reads and writes inside the buffer only,
    returns, and its result is the verdict of the reference parser on
    [s]. *)
Theorem ParseIdentifierString_refines b s :
  cstr_at b 0 s → ParseIdentifierString b = Done (is_qualified s).
Proof.
  intros Hb. apply body_spec; eauto using fuel_enough.
Qed.

(** C2. The function accepts a text exactly when it is a qualified name of
    the grammar. *)
Theorem ParseIdentifierString_accepts t :
  NUL ∉ t →
  ParseIdentifierString (text_to_cstring t) = Done true ↔ ∃ nps, qualified t nps.
Proof.
  intros Hn. rewrite ParseIdentifierString_text, cstring_of_id by done.
  rewrite <- is_qualified_spec. split; [by intros [= ->]|by intros ->].
Qed.

(** C6. The names the function has delimited in the buffer when it
    returns [true] are the texts of the parts of the input, as the grammar
    reads it, doubled quotes collapsed; it delimits names only for the
    strings of the grammar. *)
Theorem delimited_names_spec t names :
  NUL ∉ t →
  delimited_names (text_to_cstring t) = Some names
  ↔ ∃ nps, qualified t nps ∧ names = map text nps.
Proof.
  intros Hn. rewrite (delimited_names_run _ t) by by apply cstr_at_text_to_cstring.
  setoid_rewrite <- parse_qualified_spec. split.
  - destruct (parse_qualified t) as [nps|]; [|done]. intros [= <-]. by exists nps.
  - by intros (nps & -> & ->).
Qed.


(** C31. Round trip: well-formed parts, printed with dots between them,
    are accepted, and the names the function delimits are their texts. *)
Theorem ParseIdentifierString_print nps :
  nps ≠ [] → Forall part_ok nps → NUL ∉ print_names nps →
  let b := text_to_cstring (print_names nps) in
  ParseIdentifierString b = Done true ∧ delimited_names b = Some (map text nps).
Proof.
  intros Hne Hok Hn b. subst b. pose proof (cstr_at_text_to_cstring _ Hn) as Hb.
  pose proof (parse_print_names nps Hne Hok) as E. split.
  - unfold ParseIdentifierString. rewrite (body_spec _ _ _ Hb (fuel_enough _ _ Hb)).
    unfold is_qualified. by rewrite E.
  - by rewrite (delimited_names_run _ _ Hb), E.
Qed.

(** A string of white space only is accepted, with no name at all:
    the test for the empty string comes after the leading white space has
    been skipped. *)
Lemma ParseIdentifierString_blank s :
  blank s → NUL ∉ s →
  let b := text_to_cstring s in
  ParseIdentifierString b = Done true ∧ delimited_names b = Some [].
Proof.
  intros Hs Hn b. subst b. pose proof (cstr_at_text_to_cstring _ Hn) as Hb.
  apply parse_qualified_no_part in Hs. split.
  - unfold ParseIdentifierString. rewrite (body_spec _ _ _ Hb (fuel_enough _ _ Hb)).
    unfold is_qualified. by rewrite Hs.
  - by rewrite (delimited_names_run _ _ Hb), Hs.
Qed.

End Function.

(** ** The theorems at concrete inputs, in the "C" locale *)

Lemma cstr_schema_table :
  cstr_at (text_to_cstring (txt "schema.table")) 0 (txt "schema.table").
Proof. apply cstr_at_text_to_cstring. by_compute. Defined.

Lemma ParseIdentifierString_refines_witness :
  ParseIdentifierString (text_to_cstring (txt "schema.table")) = Done true.
Proof. exact (ParseIdentifierString_refines _ _ cstr_schema_table). Defined.


Lemma ParseIdentifierString_accepts_witness :
  ∃ nps, qualified (txt "schema.table") nps.
Proof.
  apply (ParseIdentifierString_accepts (txt "schema.table")); [by_compute|].
  vm_compute. reflexivity.
Defined.

Lemma delimited_names_spec_witness :
  ∃ nps, qualified (txt "schema.table") nps
         ∧ [txt "schema"; txt "table"] = map text nps.
Proof.
  apply (delimited_names_spec (txt "schema.table")); [by_compute|].
  vm_compute. reflexivity.
Defined.

Lemma ParseIdentifierString_print_witness :
  let b := text_to_cstring (txt "hr." ++ DQ :: txt "my " ++ DQ :: DQ :: txt "tab" ++ [DQ]) in
  ParseIdentifierString b = Done true
  ∧ delimited_names b = Some [txt "hr"; txt "my " ++ DQ :: txt "tab"].
Proof.
  apply (ParseIdentifierString_print
           [Unquoted (txt "hr"); Quoted (txt "my " ++ DQ :: txt "tab")]);
    [by intros [=]| |by_compute].
  constructor; [|constructor; [by intros [=]|constructor]].
  intros _. split; [by intros [=]|]. repeat constructor.
Defined.

Example ParseIdentifierString_blank_spaces :
  let b := text_to_cstring (txt "   ") in
  ParseIdentifierString b = Done true ∧ delimited_names b = Some [].
Proof. apply (ParseIdentifierString_blank (txt "   ")); by_compute. Qed.

(** ** The bytes after the terminator *)

Section Junk.
Context `{CT : Ctype}.

(** The function and the names it delimits depend on the string in the
    buffer only, not on the bytes after the terminator. *)
#[export] Instance ParseIdentifierString_proper :
  Proper (same_string ==> (=)) ParseIdentifierString.
Proof.
  intros b b' (s & H & H'). unfold ParseIdentifierString.
  by rewrite !(body_spec _ _ s) by eauto using fuel_enough.
Qed.

#[export] Instance delimited_names_proper :
  Proper (same_string ==> (=)) delimited_names.
Proof. intros b b' (s & H & H'). by rewrite !(delimited_names_run _ s). Qed.

(** Whatever follows the terminator, the verdict is that on the copy of
    the string. *)
Lemma ParseIdentifierString_junk s junk :
  NUL ∉ s →
  ParseIdentifierString (s ++ NUL :: junk) = ParseIdentifierString (text_to_cstring s).
Proof. intros H. by rewrite (same_string_text s junk H). Qed.

End Junk.
