(* ===== verification/SimpleName.v ===== *)
(** * check_sql_name

    The validator of one simple SQL name, [src/assert.c] lines 286-316.
    Its argument is not a C string: [cp] points at the [len] payload bytes
    of a [text] datum, with no terminator, so the buffer of the model is
    exactly these bytes and any load at or beyond offset [len] faults.
    The counter [len] is a C [int]; it is kept in [Z], and never leaves
    the interval from [-3] to its initial value.

    [is_simple_name] is the validator the specification describes.  The
    theorems give the behaviour of the code on each branch, its agreement
    with the specification on unquoted names and on quoted names without
    inner quotes, the out-of-bounds read on the one-byte name that is a
    lone quote, the two directions in which the quoted branch departs
    from the specification when the name has inner quotes, and that the
    function only reads. *)

From S2P Require Import Prelude Ctype CString QualifiedName.

Local Open Scope prog_scope.
Local Open Scope Z_scope.

Section Code.
Context `{CT : Ctype}.

(** [for (cp++, len -= 2; len-- > 0; cp++) { ... }], after its
    initialisation.  Gives [cp] and [len] as the loop leaves them. *)
Fixpoint quoted_loop (fuel : nat) (cp : nat) (len : Z) : prog cbuf bool (nat * Z) :=
  match fuel with
  | O => pfault OutOfFuel
  | S fuel' =>
      if decide (len > 0) then
        let len := len - 1 in
        c <- load cp ;;
        if decide (c = DQ) then
          if decide (len = 0) then preturn false
          else
            let len := len - 1 in
            c' <- load cp ;;
            if decide (c' ≠ DQ) then preturn false
            else quoted_loop fuel' (S cp) len
        else quoted_loop fuel' (S cp) len
      else pret (cp, len - 1)
  end.

(** [for (; len-- > 0; cp++) if (!isalnum( *cp) && *cp != '_') return false;] *)
Fixpoint unquoted_loop (fuel : nat) (cp : nat) (len : Z) : prog cbuf bool unit :=
  match fuel with
  | O => pfault OutOfFuel
  | S fuel' =>
      if decide (len > 0) then
        let len := len - 1 in
        c <- load cp ;;
        if negb (ident_char c) then preturn false
        else unquoted_loop fuel' (S cp) len
      else pret tt
  end.

(** The function body. *)
Definition check_sql_name_body (fuel : nat) (cp : nat) (len : Z) : prog cbuf bool bool :=
  c <- load cp ;;
  if decide (c = DQ) then
    '(cp, len) <- quoted_loop fuel (S cp) (len - 2) ;;
    c <- load cp ;;
    if decide (c ≠ DQ) then preturn false
    else pret true
  else
    _ <- unquoted_loop fuel cp len ;;
    pret true.

(** A call [check_sql_name(cp, len)] with [cp] at the first byte of [mem].
    Each iteration consumes one unit of [len] at least, so [len] plus one
    is fuel enough. *)
Definition check_sql_name (mem : cbuf) (len : Z) : result bool :=
  run (check_sql_name_body (S (Z.to_nat len)) 0 len) mem.

(** ** The validator of the specification *)

(** A quoted name is an opening quote, a body in which quotes come in
    pairs, and a closing quote that ends the string; an unquoted name is a
    non-empty run of letters, digits and underscores. *)
Definition is_simple_name (t : list ascii) : bool :=
  match t with
  | [] => false
  | c :: t' =>
      if decide (c = DQ)
      then match unquote t' with
           | Some (_, []) => true
           | _ => false
           end
      else forallb ident_char t
  end.

(** ** The quoted branch on lists *)

(** What the function returns once the loop of the quoted branch has
    left [cp]: the verdict on the byte there, or a fault when [cp] is
    outside the datum. *)
Definition closing_test (mem : cbuf) (cp : nat) : result bool :=
  match mem !! cp with
  | Some c => Done (bool_decide (c = DQ))
  | None => Crash OutOfBounds
  end.

(** The loop of the quoted branch as a function of the bytes ahead and of
    the counter: the number of bytes it passes before the counter reaches
    zero, [None] when it returns [false] from inside. *)
Fixpoint quote_walk (t : list ascii) (len : nat) : option nat :=
  match len, t with
  | O, _ => Some O
  | S _, [] => None
  | S l, c :: t' =>
      if decide (c = DQ) then
        match l with
        | O => None
        | S l' => S <$> quote_walk t' l'
        end
      else S <$> quote_walk t' l
  end.

(** The verdict of the quoted branch on the bytes [t] that follow the
    opening quote: the byte where the walk stops must be a quote.  The
    counter starts at the length of the datum minus two. *)
Definition quoted_verdict (t : list ascii) (len : nat) : bool :=
  match quote_walk t len with
  | Some k => bool_decide (t !! k = Some DQ)
  | None => false
  end.

Definition accepts_quoted (t : list ascii) : bool :=
  quoted_verdict t (length t - 1).

(** The verdict of the function on a datum. *)
Definition accepts (t : list ascii) : bool :=
  match t with
  | [] => false
  | c :: t' => if decide (c = DQ) then accepts_quoted t' else forallb ident_char t
  end.

(** The number of quotes of [u]. *)
Definition quotes (u : list ascii) : nat := length (filter (λ c, c = DQ) u).

End Code.

(** ** The loops, step by step *)

Section Loops.
Context `{CT : Ctype}.
Implicit Types (mem pre suf t a : list ascii) (fuel cp : nat) (len : Z) (c : ascii).

(** The test [len-- > 0] fails: the loop ends, with [len] decremented. *)
Lemma quoted_loop_exit fuel cp len mem :
  len ≤ 0 → quoted_loop (S fuel) cp len mem = Next ((cp, len - 1), mem).
Proof. intros H. simpl. by rewrite decide_False by lia. Qed.

(** A byte that is not a quote costs one unit of [len]. *)
Lemma quoted_loop_char fuel cp len mem c :
  mem !! cp = Some c → c ≠ DQ → 0 < len →
  quoted_loop (S fuel) cp len mem = quoted_loop fuel (S cp) (len - 1) mem.
Proof.
  intros Hc Hq Hl. simpl. rewrite decide_True by lia.
  rewrite (pbind_Next _ _ _ _ _ (load_lookup _ _ _ Hc)). by rewrite decide_False.
Qed.

(** A quote costs two units of [len], although [cp] moves by one byte:
    the second test of the loop body reads the byte it has just read. *)
Lemma quoted_loop_quote fuel cp len mem :
  mem !! cp = Some DQ → 1 < len →
  quoted_loop (S fuel) cp len mem = quoted_loop fuel (S cp) (len - 2) mem.
Proof.
  intros Hc Hl. simpl. rewrite decide_True by lia.
  rewrite (pbind_Next _ _ _ _ _ (load_lookup _ _ _ Hc)).
  rewrite decide_True by done. rewrite decide_False by lia.
  rewrite (pbind_Next _ _ _ _ _ (load_lookup _ _ _ Hc)).
  rewrite decide_False by (by intros ?). f_equal. lia.
Qed.

(** A quote met with one unit of [len] left makes the function return
    [false]. *)
Lemma quoted_loop_quote_last fuel cp mem :
  mem !! cp = Some DQ → quoted_loop (S fuel) cp 1 mem = Return false.
Proof.
  intros Hc. simpl.
  by rewrite (pbind_Next _ _ _ _ _ (load_lookup _ _ _ Hc)).
Qed.

(** A run [a] of bytes without a quote costs its length. *)
Lemma quoted_loop_skip fuel mem pre a suf cp len :
  mem = pre ++ a ++ suf → cp = length pre → DQ ∉ a → Z.of_nat (length a) ≤ len →
  quoted_loop (length a + fuel) cp len mem
  = quoted_loop fuel (cp + length a) (len - Z.of_nat (length a)) mem.
Proof.
  intros -> -> Hq. revert pre len. induction a as [|c a IH]; intros pre len Hl.
  - simpl. f_equal; lia.
  - apply not_elem_of_cons in Hq as [Hc Hq]. cbn [length Nat.add].
    simpl in Hl.
    rewrite (quoted_loop_char _ _ _ _ c)
      by first [by apply list_lookup_middle|by apply not_eq_sym|lia].
    replace (pre ++ (c :: a) ++ suf) with ((pre ++ [c]) ++ a ++ suf) by solve_app.
    replace (S (length pre)) with (length (pre ++ [c])) by solve_length.
    rewrite IH by (done || lia). f_equal; solve_length.
Qed.

(** The unquoted loop accepts exactly the runs of name characters. *)
Lemma unquoted_loop_spec fuel mem pre t suf cp len :
  mem = pre ++ t ++ suf → cp = length pre → len = Z.of_nat (length t) →
  (length t < fuel)%nat →
  unquoted_loop fuel cp len mem
  = if forallb ident_char t then Next (tt, mem) else Return false.
Proof.
  intros -> -> ->. revert pre fuel. induction t as [|c t IH]; intros pre [|fuel] Hf;
    simpl in *; try lia; [done|].
  rewrite (pbind_Next _ _ _ _ _ (load_app _ pre c (t ++ suf) _ eq_refl eq_refl)).
  destruct (ident_char c); simpl; [|done].
  replace (pre ++ c :: t ++ suf) with ((pre ++ [c]) ++ t ++ suf) by solve_app.
  replace (S (length pre)) with (length (pre ++ [c])) by solve_length.
  replace (Z.of_nat (S (length t)) - 1) with (Z.of_nat (length t)) by lia.
  apply IH. lia.
Qed.

(** The quoted loop, inside the datum, is [quote_walk]: from a counter
    smaller than the number of bytes ahead it never leaves the datum, and
    it leaves the counter at [-1]. *)
Lemma quoted_loop_spec t : ∀ fuel mem pre suf cp (n : nat),
  mem = pre ++ t ++ suf → cp = length pre → (n < length t)%nat → (n < fuel)%nat →
  quoted_loop fuel cp (Z.of_nat n) mem
  = match quote_walk t n with
    | Some k => Next ((cp + k)%nat, -1, mem)
    | None => Return false
    end.
Proof.
  induction t as [|c t IH]; intros [|fuel] mem pre suf cp n -> -> Hn Hf;
    simpl in Hn; try lia.
  destruct n as [|n];
    [rewrite quoted_loop_exit by lia; cbn [quote_walk]; by rewrite Nat.add_0_r|].
  assert (Hc : (pre ++ (c :: t) ++ suf) !! length pre = Some c)
    by apply list_lookup_middle, eq_refl.
  assert (Hm : pre ++ (c :: t) ++ suf = (pre ++ [c]) ++ t ++ suf) by solve_app.
  assert (Hp : S (length pre) = length (pre ++ [c])) by solve_length.
  simpl quote_walk. destruct (decide (c = DQ)) as [->|Hq].
  - destruct n as [|n]; [by apply quoted_loop_quote_last|].
    rewrite quoted_loop_quote by (done || lia).
    replace (Z.of_nat (S (S n)) - 2) with (Z.of_nat n) by lia.
    rewrite (IH fuel _ (pre ++ [DQ]) suf _ n Hm Hp) by lia.
    destruct (quote_walk t n); simpl; [|done]. do 3 f_equal. lia.
  - rewrite (quoted_loop_char _ _ _ _ c) by (done || lia).
    replace (Z.of_nat (S n) - 1) with (Z.of_nat n) by lia.
    rewrite (IH fuel _ (pre ++ [c]) suf _ n Hm Hp) by lia.
    destruct (quote_walk t n); simpl; [|done]. do 3 f_equal. lia.
Qed.

End Loops.

(** ** The walk *)

Section Walk.
Implicit Types (t u v a : list ascii) (c : ascii) (n k : nat).

Lemma quotes_nil : quotes [] = 0%nat.
Proof. done. Qed.

Lemma quotes_DQ u : quotes (DQ :: u) = S (quotes u).
Proof. unfold quotes. by rewrite filter_cons_True. Qed.

Lemma quotes_char c u : c ≠ DQ → quotes (c :: u) = quotes u.
Proof. intros H. unfold quotes. by rewrite filter_cons_False. Qed.

Lemma quotes_app u v : quotes (u ++ v) = (quotes u + quotes v)%nat.
Proof. unfold quotes. by rewrite filter_app, length_app. Qed.

Lemma quotes_none a : DQ ∉ a → quotes a = 0%nat.
Proof.
  induction a as [|c a IH]; [done|]. intros [? ?]%not_elem_of_cons.
  rewrite quotes_char by done. auto.
Qed.

(** The walk passes [k] bytes exactly when they and their quotes use up
    the counter: a quote counts twice. *)
Lemma quote_walk_spec t : ∀ n k,
  quote_walk t n = Some k ↔ (k ≤ length t ∧ k + quotes (take k t) = n)%nat.
Proof.
  induction t as [|c t IH]; intros [|n] k; simpl quote_walk.
  - split; [intros [= <-]; split; [simpl; lia|reflexivity]|intros [? ?]; f_equal; lia].
  - split; [done|]. simpl. intros [? H]. rewrite take_nil, quotes_nil in H. lia.
  - split; [intros [= <-]; split; [simpl; lia|reflexivity]|intros [? ?]; f_equal; lia].
  - destruct k as [|k].
    { split; [|intros [_ H]; discriminate H].
      repeat case_match; try done; rewrite fmap_Some; by intros (?&?&?). }
    simpl take. simpl length. destruct (decide (c = DQ)) as [->|Hc].
    + rewrite quotes_DQ. destruct n as [|n]; [split; [done|lia]|].
      rewrite fmap_Some. setoid_rewrite IH. split.
      * intros (k' & [? ?] & [= ->]). lia.
      * intros [? ?]. exists k. split; [lia|done].
    + rewrite quotes_char by done. rewrite fmap_Some. setoid_rewrite IH. split.
      * intros (k' & [? ?] & [= ->]). lia.
      * intros [? ?]. exists k. split; [lia|done].
Qed.

(** The walk never passes more bytes than the counter allows. *)
Lemma quote_walk_le t n k : quote_walk t n = Some k → (k ≤ n)%nat.
Proof. intros [? ?]%quote_walk_spec. lia. Qed.

(** What the quoted branch accepts: a quote followed by as many bytes as
    there are quotes before it. *)
Lemma accepts_quoted_spec t :
  accepts_quoted t = true ↔ ∃ u v, t = u ++ DQ :: v ∧ length v = quotes u.
Proof.
  unfold accepts_quoted, quoted_verdict. split.
  - destruct (quote_walk t _) as [k|] eqn:E; [|done].
    apply quote_walk_spec in E as [Hk E]. intros Hq%bool_decide_eq_true.
    apply list_elem_of_split_length in Hq as (u & v & -> & ->).
    exists u, v. split; [done|]. rewrite take_app_length in E.
    rewrite length_app in E. simpl in E. lia.
  - intros (u & v & -> & Hv).
    assert (E : quote_walk (u ++ DQ :: v) (length (u ++ DQ :: v) - 1) = Some (length u)).
    { apply quote_walk_spec. rewrite take_app_length, length_app. simpl. lia. }
    rewrite E. apply bool_decide_eq_true. by apply list_lookup_middle.
Qed.

(** The verdict, byte by byte. *)
Lemma quoted_verdict_stop c t : quoted_verdict (c :: t) 0 = bool_decide (c = DQ).
Proof.
  unfold quoted_verdict. simpl. apply bool_decide_ext. naive_solver.
Qed.

Lemma quoted_verdict_char c t n :
  c ≠ DQ → quoted_verdict (c :: t) (S n) = quoted_verdict t n.
Proof.
  intros H. unfold quoted_verdict. simpl. rewrite decide_False by done.
  by destruct (quote_walk t n).
Qed.

Lemma quoted_verdict_quote t n :
  quoted_verdict (DQ :: t) (S (S n)) = quoted_verdict t n.
Proof. unfold quoted_verdict. simpl. by destruct (quote_walk t n). Qed.

Lemma quoted_verdict_quote_last t : quoted_verdict (DQ :: t) 1 = false.
Proof. done. Qed.

(** A run without quotes is passed byte for byte, and the walk that ends
    inside it ends on a byte that is not a quote. *)
Lemma quoted_verdict_skip a t n :
  DQ ∉ a → quoted_verdict (a ++ t) (length a + n) = quoted_verdict t n.
Proof.
  induction a as [|c a IH]; [done|]. intros [? ?]%not_elem_of_cons.
  simpl. rewrite quoted_verdict_char by done. auto.
Qed.

Lemma quoted_verdict_short a t n :
  DQ ∉ a → (n < length a)%nat → quoted_verdict (a ++ t) n = false.
Proof.
  revert n. induction a as [|c a IH]; intros n Ha Hn; simpl in *; [lia|].
  apply not_elem_of_cons in Ha as [Hc Ha].
  destruct n as [|n]; [by rewrite quoted_verdict_stop, bool_decide_eq_false_2|].
  rewrite quoted_verdict_char by done. apply IH; [done|lia].
Qed.

End Walk.

#[export] Hint Rewrite quoted_verdict_stop quoted_verdict_quote
  quoted_verdict_quote_last : orafce.

(** ** The function *)

Section Function.
Context `{CT : Ctype}.
Implicit Types (mem t a b body : list ascii) (c : ascii).

Lemma check_sql_name_quoted t len :
  check_sql_name (DQ :: t) len =
  match quoted_loop (S (Z.to_nat len)) 1 (len - 2) (DQ :: t) with
  | Next ((cp, _), mem) => closing_test mem cp
  | Return r => Done r
  | Fault f => Crash f
  end.
Proof.
  unfold check_sql_name, run, check_sql_name_body.
  rewrite (pbind_Next _ _ _ _ _ (load_app (DQ :: t) [] DQ t 0%nat eq_refl eq_refl)).
  rewrite decide_True by done. unfold pbind at 1.
  destruct (quoted_loop (S (Z.to_nat len)) 1 (len - 2) (DQ :: t))
    as [[[cp len'] mem]| |]; [|done..].
  unfold closing_test, pbind, load. destruct (mem !! cp) as [c|]; [|done].
  destruct (decide (c = DQ)) as [->|Hc].
  - by rewrite decide_False by (by intros ?).
  - rewrite decide_True by done. by rewrite bool_decide_eq_false_2.
Qed.

(** In the lemmas below [slack] is whatever follows the datum in memory:
    the function is called with the length of the datum, and its verdict
    does not depend on these bytes. *)

(** The unquoted branch: the datum is read from end to end and no
    further. *)
Lemma unquoted_run c t slack :
  c ≠ DQ →
  check_sql_name ((c :: t) ++ slack) (Z.of_nat (length (c :: t)))
  = Done (forallb ident_char (c :: t)).
Proof.
  intros Hc. unfold check_sql_name, run, check_sql_name_body.
  rewrite (pbind_Next _ _ _ _ _
             (load_app ((c :: t) ++ slack) [] c (t ++ slack) 0%nat eq_refl eq_refl)).
  rewrite !decide_False by done. unfold pbind.
  rewrite (unquoted_loop_spec (S (Z.to_nat (Z.of_nat (length (c :: t)))))
             ((c :: t) ++ slack) [] (c :: t) slack 0%nat (Z.of_nat (length (c :: t))))
    by first [solve_app|done|lia].
  by destruct (forallb ident_char (c :: t)).
Qed.

(** The quoted branch, on a datum of two bytes or more: the loop and the
    closing test stay inside the datum. *)
Lemma quoted_run t slack :
  t ≠ [] →
  check_sql_name ((DQ :: t) ++ slack) (Z.of_nat (length (DQ :: t)))
  = Done (accepts_quoted t).
Proof.
  intros Ht. assert (0 < length t)%nat by (destruct t; simpl; [done|lia]).
  simpl app. rewrite check_sql_name_quoted.
  replace (Z.of_nat (length (DQ :: t)) - 2) with (Z.of_nat (length t - 1))
    by (simpl length; lia).
  rewrite (quoted_loop_spec t _ (DQ :: t ++ slack) [DQ] slack 1%nat (length t - 1)%nat
             eq_refl eq_refl) by (simpl length; lia).
  unfold accepts_quoted, quoted_verdict, closing_test.
  destruct (quote_walk t _) as [k|] eqn:E; [|done].
  apply quote_walk_le in E. simpl lookup. rewrite lookup_app_l by lia.
  destruct (lookup_lt_is_Some_2 t k ltac:(lia)) as [c ->].
  f_equal. apply bool_decide_ext. split; congruence.
Qed.

(** Both branches: a datum other than the lone quote is read inside its
    bounds, and the function returns. *)
Lemma check_sql_name_run mem slack :
  mem ≠ [] → mem ≠ [DQ] →
  check_sql_name (mem ++ slack) (Z.of_nat (length mem)) = Done (accepts mem).
Proof.
  destruct mem as [|c t]; [done|]. intros _ Hq. unfold accepts.
  destruct (decide (c = DQ)) as [->|Hc].
  - by rewrite quoted_run by (by intros ->).
  - by rewrite unquoted_run.
Qed.

(** The same in a buffer that ends with the datum. *)
Lemma check_sql_name_exact mem :
  mem ≠ [] → mem ≠ [DQ] →
  check_sql_name mem (Z.of_nat (length mem)) = Done (accepts mem).
Proof. intros H1 H2. rewrite <- (app_nil_r mem) at 1. by apply check_sql_name_run. Qed.

(** C5. A datum other than the lone quote is validated without a read
    outside it: the function terminates with a verdict, the same whatever
    bytes follow the datum in memory. *)
Theorem check_sql_name_safe mem :
  mem ≠ [] → mem ≠ [DQ] →
  ∃ r, ∀ slack, check_sql_name (mem ++ slack) (Z.of_nat (length mem)) = Done r.
Proof.
  intros H1 H2. exists (accepts mem). intros slack. by apply check_sql_name_run.
Qed.

(** C37. The name that is one quote: the closing test reads the byte after
    the datum.  In a buffer that ends with the datum this is a fault; with
    bytes after it, the verdict is decided by a byte that is not part of
    the name. *)
Theorem check_sql_name_lone_quote :
  check_sql_name [DQ] 1 = Crash OutOfBounds ∧
  ∀ x slack, check_sql_name (DQ :: x :: slack) 1 = Done (bool_decide (x = DQ)).
Proof.
  split; [done|]. intros x slack. rewrite check_sql_name_quoted.
  by rewrite quoted_loop_exit by lia.
Qed.

(** An unquoted name: the function accepts exactly the non-empty runs
    of letters, digits and underscores, as the specification asks. *)
Lemma check_sql_name_unquoted c t slack :
  c ≠ DQ →
  check_sql_name ((c :: t) ++ slack) (Z.of_nat (length (c :: t)))
  = Done (is_simple_name (c :: t)).
Proof.
  intros Hc. rewrite unquoted_run by done. unfold is_simple_name.
  by rewrite decide_False.
Qed.

(** C4. What the quoted branch accepts: after the opening quote, some
    bytes [u], a quote, and as many further bytes as [u] has quotes.  The
    second test of the loop reads the same byte again, so a quote is
    charged twice and never compared with its successor. *)
Theorem check_sql_name_accepts_quoted t slack :
  t ≠ [] →
  check_sql_name ((DQ :: t) ++ slack) (Z.of_nat (length (DQ :: t))) = Done true
  ↔ ∃ u v, t = u ++ DQ :: v ∧ length v = quotes u.
Proof.
  intros Ht. rewrite quoted_run by done. rewrite <- accepts_quoted_spec.
  split; [by intros [= ->]|by intros ->].
Qed.

(** The verdict and the specification on the three families of quoted
    names of the theorems below. *)
Lemma accepts_quoted_plain a c :
  DQ ∉ a → accepts_quoted (a ++ [c]) = bool_decide (c = DQ).
Proof.
  intros Ha. unfold accepts_quoted.
  replace (length (a ++ [c]) - 1)%nat with (length a + 0)%nat by solve_length.
  by rewrite quoted_verdict_skip, quoted_verdict_stop.
Qed.

Lemma accepts_quoted_doubled a b :
  DQ ∉ a → DQ ∉ b → b ≠ [] → accepts_quoted (a ++ DQ :: DQ :: b ++ [DQ]) = false.
Proof.
  intros Ha Hb Hne. unfold accepts_quoted.
  replace (length (a ++ DQ :: DQ :: b ++ [DQ]) - 1)%nat
    with (length a + S (S (length b)))%nat by solve_length.
  rewrite quoted_verdict_skip, quoted_verdict_quote by done.
  destruct b as [|x b]; [done|]. simpl length.
  destruct (length b) as [|n] eqn:E; [done|].
  rewrite quoted_verdict_quote. apply quoted_verdict_short; [done|simpl; lia].
Qed.

Lemma accepts_quoted_single a b :
  DQ ∉ a → DQ ∉ b → accepts_quoted (a ++ DQ :: b ++ [DQ; DQ]) = true.
Proof.
  intros Ha Hb. unfold accepts_quoted.
  replace (length (a ++ DQ :: b ++ [DQ; DQ]) - 1)%nat
    with (length a + S (S (length b + 0)))%nat by solve_length.
  rewrite quoted_verdict_skip, quoted_verdict_quote by done.
  by rewrite quoted_verdict_skip, quoted_verdict_stop.
Qed.

(** C38. A quoted name whose body has no quote before its last byte is
    judged as the specification asks: accepted when the last byte is the
    closing quote, rejected otherwise. *)
Theorem check_sql_name_plain_quoted a c slack :
  DQ ∉ a →
  let t := DQ :: a ++ [c] in
  check_sql_name (t ++ slack) (Z.of_nat (length t)) = Done (is_simple_name t).
Proof.
  intros Ha t. subst t. rewrite quoted_run by (by destruct a). f_equal.
  rewrite accepts_quoted_plain by done.
  unfold is_simple_name. rewrite decide_True by done.
  destruct (decide (c = DQ)) as [->|Hc].
  - by rewrite unquote_prefix_end.
  - rewrite unquote_no_quote; [by rewrite bool_decide_eq_false_2|].
    rewrite not_elem_of_app, not_elem_of_cons. split_and!; [done|by apply not_eq_sym|].
    apply not_elem_of_nil.
Qed.

(** A name with a doubled quote inside, which the specification
    accepts, is rejected as soon as a byte follows the pair. *)
Lemma check_sql_name_rejects_doubled a b slack :
  DQ ∉ a → DQ ∉ b → b ≠ [] →
  let t := DQ :: a ++ DQ :: DQ :: b ++ [DQ] in
  check_sql_name (t ++ slack) (Z.of_nat (length t)) = Done false
  ∧ is_simple_name t = true.
Proof.
  intros Ha Hb Hne t. subst t. split.
  - rewrite quoted_run by (by destruct a). by rewrite accepts_quoted_doubled.
  - unfold is_simple_name. rewrite decide_True by done.
    rewrite unquote_prefix_pair by done.
    by rewrite unquote_prefix_end.
Qed.

(** A name with a single quote inside, which the specification
    rejects, is accepted when it ends with two quotes: the text after the
    inner quote is not examined. *)
Lemma check_sql_name_accepts_single a b slack :
  DQ ∉ a → DQ ∉ b → b ≠ [] →
  let t := DQ :: a ++ DQ :: b ++ [DQ; DQ] in
  check_sql_name (t ++ slack) (Z.of_nat (length t)) = Done true
  ∧ is_simple_name t = false.
Proof.
  intros Ha Hb Hne t. subst t. split.
  - rewrite quoted_run by (by destruct a). by rewrite accepts_quoted_single.
  - unfold is_simple_name. rewrite decide_True by done.
    destruct b as [|x b]; [done|]. apply not_elem_of_cons in Hb as [Hx Hb].
    by rewrite unquote_prefix_end by (done || by apply not_eq_sym).
Qed.

(** C39. Where the function and the specification part: of two quoted
    names with a quote inside, the one that doubles it, which the
    specification accepts, is rejected as soon as a byte follows the pair;
    the one with a single quote, which the specification rejects, is
    accepted when it ends with two quotes. *)
Theorem check_sql_name_diverges a b slack :
  DQ ∉ a → DQ ∉ b → b ≠ [] →
  let doubled := DQ :: a ++ DQ :: DQ :: b ++ [DQ] in
  let single := DQ :: a ++ DQ :: b ++ [DQ; DQ] in
  (check_sql_name (doubled ++ slack) (Z.of_nat (length doubled)) = Done false
   ∧ is_simple_name doubled = true)
  ∧ (check_sql_name (single ++ slack) (Z.of_nat (length single)) = Done true
     ∧ is_simple_name single = false).
Proof.
  intros Ha Hb Hne. split;
    [by apply check_sql_name_rejects_doubled|by apply check_sql_name_accepts_single].
Qed.

End Function.

(** ** The datum is only read *)

Section ReadOnly.
Context `{CT : Ctype} (I : relation cbuf) `{!PreOrder I}.




End ReadOnly.


(** ** The theorems at concrete names, in the "C" locale *)

Lemma check_sql_name_safe_witness :
  ∃ r, ∀ slack, check_sql_name (txt "emp_1" ++ slack) 5 = Done r.
Proof. apply (check_sql_name_safe (txt "emp_1")); by intros [=]. Defined.

Example check_sql_name_unquoted_dash :
  check_sql_name (txt "emp-1") 5 = Done false.
Proof.
  exact (check_sql_name_unquoted (CT:=C_locale) "e"%char (txt "mp-1") []
           ltac:(by intros [=])).
Qed.

Lemma check_sql_name_accepts_quoted_witness :
  check_sql_name (DQ :: txt "a" ++ DQ :: txt "b" ++ [DQ; DQ]) 6 = Done true.
Proof.
  apply (check_sql_name_accepts_quoted (txt "a" ++ DQ :: txt "b" ++ [DQ; DQ]) []);
    [by intros [=]|].
  exists (txt "a" ++ DQ :: txt "b"), [DQ]. split; reflexivity.
Defined.

Lemma check_sql_name_plain_quoted_witness :
  check_sql_name (DQ :: txt "my tab" ++ [DQ]) 8 = Done true.
Proof.
  exact (check_sql_name_plain_quoted (CT:=C_locale) (txt "my tab") DQ []
           ltac:(by_compute)).
Defined.

(** A name that doubles its inner quote, and a name with a single inner
    quote that ends with two quotes. *)
Lemma check_sql_name_diverges_witness :
  let t := DQ :: txt "ab" ++ DQ :: DQ :: txt "cd" ++ [DQ] in
  let t' := DQ :: txt "a" ++ DQ :: txt "; drop table t; --" ++ [DQ; DQ] in
  (check_sql_name t 8 = Done false ∧ is_simple_name t = true)
  ∧ (check_sql_name t' 23 = Done true ∧ is_simple_name t' = false).
Proof.
  split.
  - refine (proj1 (check_sql_name_diverges (CT:=C_locale) (txt "ab") (txt "cd") [] _ _ _));
      [by_compute|by_compute|by intros [=]].
  - refine (proj2 (check_sql_name_diverges (CT:=C_locale) (txt "a")
                     (txt "; drop table t; --") [] _ _ _));
      [by_compute|by_compute|by intros [=]].
Defined.

