(* ===== verification/Totality.v ===== *)
(** * Every call ends

    [ParseIdentifierString] and [check_sql_name] on arbitrary memory: a
    buffer without terminator, a counter that is not the length of the
    datum.  The loops of the two functions still end, because each
    iteration moves a pointer towards the end of the buffer or consumes a
    unit of the counter: a run returns, or it reads outside the buffer,
    and it never exhausts the fuel the model gives it.  The same
    induction shows what the parser's only write does to the buffer: it
    never replaces a terminator, so that a buffer that holds a C string
    holds one afterwards.  The proofs are by the rules of [halts] for
    sequencing and for the primitives. *)

From S2P Require Import Prelude Ctype CString QualifiedName ParseIdent SimpleName.

Local Open Scope prog_scope.

(** One step of a proof of [halts]: a bound computation, by the rule of
    the primitive that comes first. *)
Ltac halts_step :=
  first
    [ apply halts_preturn
    | eapply halts_pbind; [apply load_halts|]
    | eapply halts_pbind; [apply strchr_halts|]
    | eapply halts_pbind; [apply strlen_halts|] ].

(** ** The parser *)

Section Parser.
Context `{CT : Ctype}.
Implicit Types (b : cbuf) (p fuel : nat).

(** The pointer a loop leaves is inside the buffer, at or after [p]. *)
Definition inside (b : cbuf) (p : nat) : nat → cbuf → Prop :=
  λ p' b', b' = b ∧ p ≤ p' < length b.

Lemma skip_space_halts fuel : ∀ p b,
  length b - p < fuel → halts (skip_space fuel p) (inside b p) b.
Proof.
  induction fuel as [|fuel IH]; intros p b Hf; [lia|]. simpl.
  halts_step. intros c ? [-> Hp]. destruct (isspace c).
  - eapply halts_mono; [apply IH; lia|]. intros p' ? [-> ?]. split; [done|lia].
  - apply halts_pret. split; [done|lia].
Qed.

Lemma scan_name_halts fuel : ∀ p b,
  length b - p < fuel → halts (scan_name fuel p) (inside b p) b.
Proof.
  induction fuel as [|fuel IH]; intros p b Hf; [lia|]. simpl.
  halts_step. intros c ? [-> Hp]. destruct (name_stop c).
  - apply halts_pret. split; [done|lia].
  - destruct (negb (ident_char c)); [apply halts_preturn|].
    eapply halts_mono; [apply IH; lia|]. intros p' ? [-> ?]. split; [done|lia].
Qed.

(** The closing quote is after [p], and the byte after it is in the
    buffer.  The collapses have written over no terminator: the bytes a
    collapse moves are those [strlen] has counted. *)
Lemma scan_quoted_halts fuel : ∀ p b,
  length b - p < fuel →
  halts (scan_quoted fuel p)
    (λ endp b', terminators_kept b b' ∧ p < endp ∧ S endp < length b) b.
Proof.
  induction fuel as [|fuel IH]; intros p b Hf; [lia|]. simpl.
  halts_step. intros [endp|] ? [-> He]; [|apply halts_preturn].
  specialize (He endp eq_refl). halts_step. intros c ? [-> Hl].
  case_decide; [apply halts_pret; split_and!; [reflexivity|lia..]|].
  halts_step. intros n ? [-> Hn]. eapply halts_pbind; [by apply memmove_halts|].
  intros [] b1 Hb1. pose proof Hb1 as [E1 _].
  eapply halts_mono; [apply IH; lia|]. intros e b2 (? & ? & ?).
  split_and!; [by etrans|lia..].
Qed.

(** One name moves [nextp] forward by one byte at least. *)
Lemma parse_one_halts fuel p b :
  length b - p < fuel →
  halts (parse_one fuel p)
    (λ '(_, _, p') b', terminators_kept b b' ∧ p < p' < length b) b.
Proof.
  intros Hf. unfold parse_one. halts_step. intros c ? [-> Hp]. case_decide.
  - eapply halts_pbind; [by apply scan_quoted_halts|].
    intros endp b' (? & ? & ?). apply halts_pret. split; [done|lia].
  - eapply halts_pbind; [by apply scan_name_halts|].
    intros p' ? [-> ?]. case_decide; [apply halts_preturn|].
    apply halts_pret. split; [done|lia].
Qed.

Lemma after_name_halts fuel p b :
  length b - p < fuel →
  halts (after_name fuel p) (λ '(_, p') b', b' = b ∧ p ≤ p' < length b) b.
Proof.
  intros Hf. unfold after_name.
  eapply halts_pbind; [by apply skip_space_halts|]. intros p1 ? [-> ?].
  halts_step. intros c ? [-> _]. repeat case_decide; try apply halts_preturn.
  - eapply halts_pbind; [apply skip_space_halts; lia|]. intros p2 ? [-> ?].
    apply halts_pret. split; [done|lia].
  - apply halts_pret. split; [done|lia].
Qed.

Lemma name_loop_halts fuel : ∀ p b,
  length b - p < fuel → halts (name_loop fuel p) (λ _ b', terminators_kept b b') b.
Proof.
  induction fuel as [|fuel IH]; intros p b Hf; [lia|]. cbn [name_loop].
  eapply halts_pbind; [by apply parse_one_halts|].
  intros [[cur endp] p1] b1 [Hb1 ?]. pose proof Hb1 as [E1 _].
  eapply halts_pbind; [apply after_name_halts; lia|]. intros [done p2] ? [-> ?].
  destruct done; [by apply halts_pret|].
  eapply halts_pbind; [apply IH; lia|]. intros rest b2 Hb2.
  apply halts_pret. by etrans.
Qed.

Lemma body_halts b :
  halts (ParseIdentifierString_body (S (length b))) (λ _ b', terminators_kept b b') b.
Proof.
  unfold ParseIdentifierString_body.
  eapply halts_pbind; [apply skip_space_halts; lia|]. intros p ? [-> ?].
  halts_step. intros c ? [-> _]. case_decide; [apply halts_preturn|].
  eapply halts_pbind; [apply name_loop_halts; lia|]. intros ? ? ?. by apply halts_pret.
Qed.

(** C11. [ParseIdentifierString] ends on every buffer, terminated or not:
    it returns, or it reads outside the buffer. *)
Theorem ParseIdentifierString_total b :
  (∃ r, ParseIdentifierString b = Done r) ∨ ParseIdentifierString b = Crash OutOfBounds.
Proof. unfold ParseIdentifierString. eapply halts_run, body_halts. Qed.

(** C16. A buffer that holds a C string holds one when the function has
    accepted it: the collapses of doubled quotes have kept the size of
    the buffer and every terminator in it, and the string at the start
    of the buffer is at most as long as it was. *)
Theorem ParseIdentifierString_keeps_cstring b s r b' :
  cstr_at b 0 s →
  ParseIdentifierString_body (S (length b)) b = Next (r, b') →
  terminators_kept b b'
  ∧ cstr_at b' 0 (cstring_of b') ∧ length (cstring_of b') ≤ length s.
Proof.
  intros Hs E. pose proof (body_halts b) as H. unfold halts in H. rewrite E in H.
  split; [done|]. by eapply terminators_kept_cstr.
Qed.

End Parser.

(** ** The validator *)

Section Validator.
Context `{CT : Ctype}.
Implicit Types (mem : cbuf) (cp fuel : nat) (len : Z).

Local Open Scope Z_scope.

Lemma quoted_loop_halts fuel : ∀ cp len mem,
  (Z.to_nat len < fuel)%nat → halts (quoted_loop fuel cp len) (λ _ mem', mem' = mem) mem.
Proof.
  induction fuel as [|fuel IH]; intros cp len mem Hf; [lia|]. simpl.
  case_decide; [|by apply halts_pret]. halts_step. intros c ? [-> _].
  repeat case_decide; try apply halts_preturn; [|apply IH; lia].
  halts_step. intros c' ? [-> _]. case_decide; [apply halts_preturn|apply IH; lia].
Qed.

Lemma unquoted_loop_halts fuel : ∀ cp len mem,
  (Z.to_nat len < fuel)%nat → halts (unquoted_loop fuel cp len) (λ _ mem', mem' = mem) mem.
Proof.
  induction fuel as [|fuel IH]; intros cp len mem Hf; [lia|]. simpl.
  case_decide; [|by apply halts_pret]. halts_step. intros c ? [-> _].
  destruct (negb (ident_char c)); [apply halts_preturn|apply IH; lia].
Qed.

(** C12. [check_sql_name] ends on every datum and for every value of
    the counter, the length of the datum or not: it returns, or it reads
    outside the datum. *)
Theorem check_sql_name_total mem len :
  (∃ r, check_sql_name mem len = Done r) ∨ check_sql_name mem len = Crash OutOfBounds.
Proof.
  unfold check_sql_name. eapply (halts_run _ (λ _ _, True)).
  unfold check_sql_name_body. halts_step. intros c ? [-> _]. case_decide.
  - eapply halts_pbind; [apply quoted_loop_halts; lia|]. intros [cp len'] ? ->.
    halts_step. intros c' ? [-> _]. case_decide; [apply halts_preturn|by apply halts_pret].
  - eapply halts_pbind; [apply unquoted_loop_halts; lia|]. intros [] ? ->.
    by apply halts_pret.
Qed.

End Validator.

(** ** The theorems on concrete data *)

(** The name [a], two quotes, [b] in quotes: one collapse, which leaves
    the terminator twice. *)
Lemma ParseIdentifierString_keeps_cstring_witness :
  let b := text_to_cstring (DQ :: txt "a" ++ DQ :: DQ :: txt "b" ++ [DQ]) in
  let b' := DQ :: txt "a" ++ DQ :: txt "b" ++ [DQ; NUL; NUL] in
  terminators_kept b b'
  ∧ cstr_at b' 0 (cstring_of b') ∧ length (cstring_of b') ≤ 6.
Proof.
  apply (ParseIdentifierString_keeps_cstring (CT:=C_locale) _
           (DQ :: txt "a" ++ DQ :: DQ :: txt "b" ++ [DQ]) true).
  - apply cstr_at_text_to_cstring. by_compute.
  - vm_compute. reflexivity.
Defined.
