(* ===== verification/Machine.v ===== *)
(** * check_sql_name as a machine

    The validator of [src/assert.c], lines 286-316, a second time: as a
    transition relation between the points of the function where the
    datum is read.  A state is a program point with the values of [cp]
    and [len] there; the bytes of the datum are fixed.  One transition
    is one test of the code with the updates that follow it.

    On the relation the properties of the function are proved by
    induction on its rules: it is deterministic; the counter stays
    between [-1] and its initial value and the pointer never passes the
    byte after the datum, so neither the [int] nor the pointer
    overflows; the only reads outside the datum are the first read of an
    empty datum and the closing test of the lone quote; every state
    leads to a final one in a number of transitions bounded by the
    counter.  The relation and the function [check_sql_name] of
    [SimpleName] describe the same runs. *)

From stdpp Require Import relations.
From S2P Require Import Prelude Ctype CString QualifiedName SimpleName.

Local Open Scope Z_scope.

(** ** States and transitions *)

(** The program points: the entry of the function, the tests of the two
    loops, the test after the quoted loop, and the two ways to end. *)
Inductive state : Type :=
  | Start (len : Z)
  | Quoted (cp : nat) (len : Z)
  | Unquoted (cp : nat) (len : Z)
  | Closing (cp : nat)
  | Halt (r : bool)
  | Oob.

#[export] Instance state_eq_dec : EqDecision state.
Proof. solve_decision. Defined.

Section Machine.
Context `{CT : Ctype} (mem : cbuf).
Implicit Types (s : state) (cp : nat) (len : Z) (c : ascii) (r : bool).

Inductive step : state → state → Prop :=
  (* the test of the first byte; cp++, len -= 2 on the quoted side *)
  | step_start_quoted len :
      mem !! 0%nat = Some DQ → step (Start len) (Quoted 1 (len - 2))
  | step_start_unquoted len c :
      mem !! 0%nat = Some c → c ≠ DQ → step (Start len) (Unquoted 0 len)
  | step_start_oob len :
      mem !! 0%nat = None → step (Start len) Oob
  (* len-- > 0 fails *)
  | step_quoted_exit cp len :
      len ≤ 0 → step (Quoted cp len) (Closing cp)
  (* len-- > 0 holds, the byte at cp is not a quote; cp++ *)
  | step_quoted_char cp len c :
      0 < len → mem !! cp = Some c → c ≠ DQ →
      step (Quoted cp len) (Quoted (S cp) (len - 1))
  (* len-- > 0 holds, the byte at cp is a quote, len-- == 0 holds *)
  | step_quoted_last cp len :
      len = 1 → mem !! cp = Some DQ → step (Quoted cp len) (Halt false)
  (* as above with len-- == 0 failing; the byte at cp is read again; cp++ *)
  | step_quoted_quote cp len :
      1 < len → mem !! cp = Some DQ →
      step (Quoted cp len) (Quoted (S cp) (len - 2))
  | step_quoted_oob cp len :
      0 < len → mem !! cp = None → step (Quoted cp len) Oob
  (* the test of the byte at cp after the loop *)
  | step_closing cp c :
      mem !! cp = Some c → step (Closing cp) (Halt (bool_decide (c = DQ)))
  | step_closing_oob cp :
      mem !! cp = None → step (Closing cp) Oob
  (* the loop of the unquoted side *)
  | step_unquoted_exit cp len :
      len ≤ 0 → step (Unquoted cp len) (Halt true)
  | step_unquoted_char cp len c :
      0 < len → mem !! cp = Some c → ident_char c = true →
      step (Unquoted cp len) (Unquoted (S cp) (len - 1))
  | step_unquoted_bad cp len c :
      0 < len → mem !! cp = Some c → ident_char c = false →
      step (Unquoted cp len) (Halt false)
  | step_unquoted_oob cp len :
      0 < len → mem !! cp = None → step (Unquoted cp len) Oob.

(** The states in which the function has ended. *)
Definition final (s : state) : bool :=
  match s with
  | Halt _ | Oob => true
  | _ => false
  end.

(** What the function has returned in a final state. *)
Definition result_of (s : state) : option (result bool) :=
  match s with
  | Halt r => Some (Done r)
  | Oob => Some (Crash OutOfBounds)
  | _ => None
  end.

(** The number of transitions a state can still make, at most. *)
Definition measure (s : state) : nat :=
  match s with
  | Start len => Z.to_nat len + 4
  | Quoted _ len => Z.to_nat len + 2
  | Unquoted _ len => Z.to_nat len + 1
  | Closing _ => 1
  | Halt _ | Oob => 0
  end%nat.

(** The values of [cp] and [len] at each program point, for a call with
    the length of the datum: the counter is at least [-1], and pointer
    plus counter stay inside the datum. *)
Definition inv (s : state) : Prop :=
  let n := Z.of_nat (length mem) in
  match s with
  | Start len => len = n
  | Quoted cp len =>
      mem !! 0%nat = Some DQ ∧ -1 ≤ len ∧ Z.of_nat cp + len ≤ n - 1 ∧ (len = -1 → n = 1)
  | Unquoted cp len => 0 ≤ len ∧ Z.of_nat cp + len = n
  | Closing cp => mem !! 0%nat = Some DQ ∧ Z.of_nat cp ≤ n ∧ (Z.of_nat cp = n → n = 1)
  | Halt _ | Oob => True
  end.

End Machine.

#[global] Hint Constructors step : orafce.

(** ** The rules of the machine *)

Section Rules.
Context `{CT : Ctype} (mem : cbuf).
Implicit Types (s : state) (cp : nat) (len : Z) (c : ascii) (r : bool).

(** Inversion of a transition, with the equalities it gives
    substituted. *)
Ltac step_inv H := inversion H; subst; clear H.

Lemma step_deterministic s s1 s2 : step mem s s1 → step mem s s2 → s1 = s2.
Proof.
  intros H1 H2. step_inv H1; step_inv H2; try done; try lia; simplify_eq;
    first [done|congruence].
Qed.

Lemma final_nf s : final s = true → nf (step mem) s.
Proof. intros Hf [s' H]. by destruct H. Qed.

(** Progress: a state that is not final makes a transition. *)
Lemma step_progress s : final s = false → red (step mem) s.
Proof.
  unfold red. destruct s as [len|cp len|cp len|cp| |]; intros Hf; try done.
  - destruct (mem !! 0%nat) as [c|] eqn:E; [|eauto with orafce].
    destruct (decide (c = DQ)) as [->|]; eauto with orafce.
  - destruct (decide (len ≤ 0)); [eauto with orafce|].
    destruct (mem !! cp) as [c|] eqn:E; [|eexists; apply step_quoted_oob; [lia|done]].
    destruct (decide (c = DQ)) as [->|]; [|eexists; eapply step_quoted_char; [lia|done..]].
    destruct (decide (len = 1)); [eauto with orafce|].
    eexists. apply step_quoted_quote; [lia|done].
  - destruct (decide (len ≤ 0)); [eauto with orafce|].
    destruct (mem !! cp) as [c|] eqn:E; [|eexists; apply step_unquoted_oob; [lia|done]].
    destruct (ident_char c) eqn:Ei; eexists;
      [eapply step_unquoted_char|eapply step_unquoted_bad]; first [lia|done].
  - destruct (mem !! cp) as [c|] eqn:E; eauto with orafce.
Qed.

(** Every transition uses up some of the measure. *)
Lemma step_measure s s' : step mem s s' → (measure s' < measure s)%nat.
Proof. destruct 1; simpl; lia. Qed.

(** The invariant is kept by every transition. *)
Lemma step_inv_keeps s s' : step mem s s' → inv mem s → inv mem s'.
Proof.
  destruct 1 as [len H|len c H|len H|cp len H|cp len c H H'|cp len H H'
                |cp len H H'|cp len H H'|cp c H|cp H|cp len H|cp len c H H'
                |cp len c H H'|cp len H H']; unfold inv; try done;
    try apply lookup_lt_Some in H as ?; try apply lookup_lt_Some in H' as ?;
    intros; destruct_and?; split_and?; try done; lia.
Qed.

Lemma rtc_inv_keeps s s' : rtc (step mem) s s' → inv mem s → inv mem s'.
Proof. induction 1; eauto using step_inv_keeps. Qed.

(** Under the invariant the loops read inside the datum. *)
Lemma inv_quoted_inside cp len :
  inv mem (Quoted cp len) → 0 < len → is_Some (mem !! cp).
Proof. intros (_ & ? & ? & _) ?. apply lookup_lt_is_Some. lia. Qed.

Lemma inv_unquoted_inside cp len :
  inv mem (Unquoted cp len) → 0 < len → is_Some (mem !! cp).
Proof. intros [? ?] ?. apply lookup_lt_is_Some. lia. Qed.

(** A datum of one byte that starts with a quote. *)
Lemma lone_quote : mem !! 0%nat = Some DQ → Z.of_nat (length mem) = 1 → mem = [DQ].
Proof. destruct mem as [|c [|c' t]]; simpl; intros [=] ?; [by subst|lia]. Qed.

(** Two runs from a state to final states end in the same state. *)
Lemma rtc_final_unique s s1 s2 :
  rtc (step mem) s s1 → rtc (step mem) s s2 →
  final s1 = true → final s2 = true → s1 = s2.
Proof.
  intros H1. revert s2. induction H1 as [s|s y s1 Hy H1 IH]; intros s2 H2 F1 F2.
  - by eapply rtc_nf, final_nf.
  - destruct H2 as [s|s y' s2 Hy' H2]; [by destruct (final_nf _ F2); exists y|].
    rewrite (step_deterministic _ _ _ Hy' Hy) in H2. auto.
Qed.

End Rules.

(** ** The machine and the function *)

Section Adequacy.
Context `{CT : Ctype} (mem : cbuf).
Implicit Types (s : state) (cp fuel : nat) (len : Z) (c : ascii) (r : bool).

(** The outcome [o] of a loop of the function started where the machine
    is in state [s]: the machine goes from [s] to the state [k a] when
    the loop continues with [a], and to the final state of the same
    result when the loop ends the function. *)
Definition ends_in {A} (s : state) (o : outcome bool (A * cbuf)) (k : A → state) : Prop :=
  match o with
  | Next (a, mem') => mem' = mem ∧ rtc (step mem) s (k a)
  | Return r => rtc (step mem) s (Halt r)
  | Fault f => f = OutOfBounds ∧ rtc (step mem) s Oob
  end.

Lemma ends_in_step {A} s s1 (o : outcome bool (A * cbuf)) k :
  step mem s s1 → ends_in s1 o k → ends_in s o k.
Proof.
  intros H. unfold ends_in. destruct o as [[a mem']|r|f]; [intros [? ?]| |intros [? ?]];
    eauto using rtc_l.
Qed.

Lemma quoted_loop_steps fuel : ∀ cp len,
  (Z.to_nat len < fuel)%nat →
  ends_in (Quoted cp len) (quoted_loop fuel cp len mem) (λ a, Closing a.1).
Proof.
  induction fuel as [|fuel IH]; intros cp len Hf; [lia|].
  destruct (decide (len ≤ 0)).
  { rewrite quoted_loop_exit by done. split; [done|]. apply rtc_once. by constructor. }
  destruct (mem !! cp) as [c|] eqn:E.
  2:{ simpl. rewrite decide_True by lia. unfold pbind, load. rewrite E.
      split; [done|]. apply rtc_once, step_quoted_oob; [lia|done]. }
  destruct (decide (c = DQ)) as [->|Hc].
  - destruct (decide (len = 1)) as [->|].
    { rewrite quoted_loop_quote_last by done. apply rtc_once. by constructor. }
    rewrite quoted_loop_quote by (done || lia).
    eapply ends_in_step; [apply step_quoted_quote; [lia|done]|]. apply IH. lia.
  - rewrite (quoted_loop_char _ _ _ _ c) by (done || lia).
    eapply ends_in_step; [eapply step_quoted_char; [lia|done..]|]. apply IH. lia.
Qed.

Lemma unquoted_loop_steps fuel : ∀ cp len,
  (Z.to_nat len < fuel)%nat →
  ends_in (Unquoted cp len) (unquoted_loop fuel cp len mem) (λ _, Halt true).
Proof.
  induction fuel as [|fuel IH]; intros cp len Hf; [lia|]. simpl.
  case_decide; [|split; [done|]; apply rtc_once; constructor; lia].
  unfold pbind, load. destruct (mem !! cp) as [c|] eqn:E;
    [|split; [done|]; apply rtc_once, step_unquoted_oob; [lia|done]].
  destruct (ident_char c) eqn:Ei; simpl.
  - eapply ends_in_step; [eapply step_unquoted_char; [lia|done..]|]. apply IH. lia.
  - apply rtc_once. eapply step_unquoted_bad; [lia|done..].
Qed.

(** The test after the quoted loop. *)
Lemma closing_steps cp :
  ∃ s, step mem (Closing cp) s ∧ result_of s = Some (closing_test mem cp).
Proof.
  unfold closing_test. destruct (mem !! cp) as [c|] eqn:E; eauto with orafce.
Qed.

(** The function gives the result of the final state the machine
    reaches from its start. *)
Lemma body_steps len :
  ∃ s, rtc (step mem) (Start len) s ∧ result_of s = Some (check_sql_name mem len).
Proof.
  destruct (mem !! 0%nat) as [c|] eqn:E0.
  2:{ exists Oob. split; [by apply rtc_once; constructor|].
      apply lookup_ge_None in E0. by destruct mem; [|simpl in E0; lia]. }
  assert (∃ t, mem = c :: t) as [t Em] by (destruct mem; simplify_eq/=; eauto).
  destruct (decide (c = DQ)) as [->|Hc].
  - assert (H0 : step mem (Start len) (Quoted 1 (len - 2))) by by constructor.
    pose proof (quoted_loop_steps (S (Z.to_nat len)) 1 (len - 2) ltac:(lia)) as H.
    assert (E : check_sql_name mem len = check_sql_name (DQ :: t) len) by by rewrite Em.
    rewrite E, check_sql_name_quoted, <- Em.
    destruct (quoted_loop _ _ _ _) as [[[cp len'] mem']|r|f]; simpl in H.
    + destruct H as [-> H]. destruct (closing_steps cp) as (s & Hs & Hr).
      exists s. split; [|done]. eapply rtc_l, rtc_r; eauto.
    + exists (Halt r). split; [by eapply rtc_l|done].
    + destruct H as [-> H]. exists Oob. split; [by eapply rtc_l|done].
  - assert (H0 : step mem (Start len) (Unquoted 0 len)) by by econstructor.
    pose proof (unquoted_loop_steps (S (Z.to_nat len)) 0 len ltac:(lia)) as H.
    unfold check_sql_name, run, check_sql_name_body.
    rewrite (pbind_Next _ _ _ _ _ (load_app mem [] c t 0%nat Em eq_refl)).
    rewrite decide_False by done. unfold pbind.
    destruct (unquoted_loop _ _ _ _) as [[[] mem']|r|f]; simpl in H.
    + destruct H as [-> H]. exists (Halt true). split; [by eapply rtc_l|done].
    + exists (Halt r). split; [by eapply rtc_l|done].
    + destruct H as [-> H]. exists Oob. split; [by eapply rtc_l|done].
Qed.

Lemma result_of_final s o : result_of s = Some o → final s = true.
Proof. by destruct s. Qed.

End Adequacy.

(** ** What the rules show *)

(** The range of a C [int]. *)
Definition int_range (z : Z) : Prop := - 2 ^ 31 ≤ z ≤ 2 ^ 31 - 1.

Section Theorems.
Context `{CT : Ctype} (mem : cbuf).
Implicit Types (s : state) (cp : nat) (len : Z) (o : result bool).

(** C13. The machine and the function describe the same runs:
    [check_sql_name] gives a result exactly when the machine, from its
    start, reaches the final state of that result. *)
Theorem machine_agrees len o :
  check_sql_name mem len = o
  ↔ ∃ s, rtc (step mem) (Start len) s ∧ result_of s = Some o.
Proof.
  destruct (body_steps mem len) as (s0 & H0 & R0). split.
  - intros <-. eauto.
  - intros (s & Hs & Rs).
    assert (s = s0) as -> by eauto using rtc_final_unique, result_of_final.
    congruence.
Qed.

(** C19. Every state leads to a final state, in at most as many
    transitions as its measure: the value of the counter and a
    constant. *)
Theorem machine_halts s :
  ∃ n s', nsteps (step mem) n s s' ∧ (n ≤ measure s)%nat ∧ final s' = true.
Proof.
  remember (measure s) as m eqn:Em. revert s Em.
  induction m as [m IH] using lt_wf_ind. intros s ->.
  destruct (final s) eqn:F; [exists 0%nat, s; split_and!; [constructor|lia|done]|].
  destruct (step_progress mem s F) as [s1 H1]. pose proof (step_measure _ _ _ H1).
  destruct (IH _ ltac:(done) s1 eq_refl) as (n & s' & Hn & Hle & Hf).
  exists (S n), s'. split_and!; [by econstructor|lia|done].
Qed.

(** C18. In a call with the length of the datum, a length that fits an
    [int]: at the test of each loop the counter is between [-1] and the
    length, so that the decrements of the code stay in the range of
    [int], and the pointer is at most one byte after the datum. *)
Theorem machine_counter_bounds s :
  rtc (step mem) (Start (Z.of_nat (length mem))) s →
  int_range (Z.of_nat (length mem)) →
  match s with
  | Quoted cp len | Unquoted cp len =>
      -1 ≤ len ≤ Z.of_nat (length mem) ∧ int_range (len - 2) ∧ (cp ≤ length mem)%nat
  | Closing cp => (cp ≤ length mem)%nat
  | _ => True
  end.
Proof.
  intros H%rtc_inv_keeps [? ?]; [|done]. unfold int_range.
  destruct s; simpl in H; try done; destruct_and?; split_and?; lia.
Qed.

(** C17. In a call with the length of the datum the machine reads
    outside the datum in two cases only: the datum is empty, or it is
    the lone quote. *)
Theorem machine_oob_only :
  rtc (step mem) (Start (Z.of_nat (length mem))) Oob → mem = [] ∨ mem = [DQ].
Proof.
  intros [?|(s & Hs & Hstep)]%rtc_inv_r; [done|].
  apply rtc_inv_keeps in Hs; [|done]. inversion Hstep as
    [ | |len H| | | | |cp len Hl H|  |cp H| | | |cp len Hl H]; subst.
  - left. apply lookup_ge_None in H. apply nil_length_inv. lia.
  - destruct (inv_quoted_inside _ _ _ Hs Hl) as [c Hc]. congruence.
  - right. destruct Hs as (Hd & Hle & Hn). apply lookup_ge_None in H.
    apply lone_quote; [done|]. apply Hn. lia.
  - destruct (inv_unquoted_inside _ _ _ Hs Hl) as [c Hc]. congruence.
Qed.

End Theorems.

(** ** The theorems on concrete data *)

Lemma machine_counter_bounds_witness :
  -1 ≤ 1 ≤ 4 ∧ int_range (1 - 2) ∧ (2 ≤ 4)%nat.
Proof.
  apply (machine_counter_bounds (CT:=C_locale) (DQ :: txt "ab" ++ [DQ]) (Quoted 2 1));
    [|by vm_compute].
  apply (rtc_l _ _ (Quoted 1 2)); [by apply (step_start_quoted _ 4)|].
  apply rtc_once. by apply (step_quoted_char _ 1 2 "a"%char).
Defined.

Lemma machine_oob_only_witness : [DQ] = [] ∨ [DQ] = [DQ].
Proof.
  apply (machine_oob_only (CT:=C_locale) [DQ]).
  apply (rtc_l _ _ (Quoted 1 (-1))); [by apply (step_start_quoted _ 1)|].
  apply (rtc_l _ _ (Closing 1)); [by apply step_quoted_exit|].
  apply rtc_once. by apply step_closing_oob.
Defined.
