(* ===== verification/DbmsAssert.v ===== *)
(** * The SQL functions of DBMS_ASSERT

    The seven functions [src/assert.c] exports to SQL, with the macros
    that raise its four errors.  A function receives its argument as an
    optional [text] datum (absent when [PG_ARGISNULL]) and ends in one of
    four ways, the constructors of [Outcome]: it returns a datum, it
    raises one of the four errors of the file, a function of the host
    raises an error of its own, or the C code leaves defined behaviour.

    PostgreSQL is a parameter: the class [Host] lists the functions of the
    server the file calls, and the theorems hold for every instance.
    [toy_host] is a small instance with a catalog of three schemas and
    one table, on which the theorems are applied to concrete names.  The
    fetch of the argument from the call record is in [Fmgr]. *)

From S2P Require Import Prelude Ctype CString QualifiedName Quoting ParseIdent SimpleName.

(** ** The errors the file raises *)

(** One constructor for each [CUSTOM_EXCEPTION] macro, under the name of
    its error code. *)
Inductive ErrorKind : Type :=
  | INVALID_SCHEMA_NAME
  | INVALID_OBJECT_NAME
  | ISNOT_SIMPLE_SQL_NAME
  | ISNOT_QUALIFIED_SQL_NAME.

#[export] Instance ErrorKind_eq_dec : EqDecision ErrorKind.
Proof. solve_decision. Defined.

(** The message each macro passes to [errmsg]. *)
Definition errmsg (e : ErrorKind) : string :=
  match e with
  | INVALID_SCHEMA_NAME => "invalid schema name"
  | INVALID_OBJECT_NAME => "invalid object name"
  | ISNOT_SIMPLE_SQL_NAME => "string is not simple SQL name"
  | ISNOT_QUALIFIED_SQL_NAME => "string is not qualified SQL name"
  end.

(** ** The host *)

(** The payload of a [text] datum: its [VARSIZE - VARHDRSZ] bytes. *)
Abbreviation text_datum := (list ascii).

(** Object identifiers; [InvalidOid] is zero. *)
Definition Oid : Type := N.
Definition InvalidOid : Oid := 0%N.
Definition OidIsValid (oid : Oid) : bool := negb (bool_decide (oid = InvalidOid)).

(** The functions of the server the file calls.  [HostError] is what the
    host's own [ereport(ERROR)] carries.  [pg_namespace_aclcheck] is the
    check of [ACL_USAGE] for the current user, [true] for [ACLCHECK_OK];
    [RangeVarGetRelid] is the composition with [makeRangeVarFromNameList],
    called with [failOK]. *)
Class Host : Type := {
  HostError : Type;
  quote_literal : text_datum → text_datum;
  quote_ident : text_datum → text_datum;
  lower : text_datum → text_datum;
  stringToQualifiedNameList : cbuf → HostError + list (list ascii);
  GetSysCacheOid : list ascii → Oid;
  pg_namespace_aclcheck : Oid → bool;
  RangeVarGetRelid : list (list ascii) → HostError + Oid;
}.

(** ** How a call ends *)

Inductive Outcome `{Host} (A : Type) : Type :=
  | Returned (a : A)
  | Raised (e : ErrorKind)
  | HostRaised (h : HostError)
  | Faulted (f : fault).

#[global] Arguments Returned {_ _} a.
#[global] Arguments Raised {_ _} e.
#[global] Arguments HostRaised {_ _} h.
#[global] Arguments Faulted {_ _} f.

(** ** The functions *)

Section Functions.
Context `{CT : Ctype} `{HO : Host}.

(** [EMPTY_STR(str)]: the datum has no payload. *)
Definition EMPTY_STR (str : text_datum) : bool := bool_decide (length str = 0).

(** [linitial]: the first cell of a list that has one. *)
Definition linitial (names : list (list ascii)) : list ascii := default [] (head names).

Definition dbms_assert_enquote_literal (str : text_datum) : Outcome text_datum :=
  Returned (quote_literal str).

Definition dbms_assert_enquote_name (name : text_datum) (loweralize : bool)
  : Outcome text_datum :=
  let name := quote_ident name in
  let name := if loweralize then lower name else name in
  Returned name.

(** [TextPCopy] gives a datum with the same payload. *)
Definition dbms_assert_noop (str : text_datum) : Outcome text_datum :=
  Returned str.

Definition dbms_assert_qualified_sql_name (arg : option text_datum)
  : Outcome text_datum :=
  match arg with
  | None => Raised ISNOT_QUALIFIED_SQL_NAME
  | Some qname =>
      if EMPTY_STR qname then Raised ISNOT_QUALIFIED_SQL_NAME
      else match ParseIdentifierString (text_to_cstring qname) with
           | Crash f => Faulted f
           | Done false => Raised ISNOT_QUALIFIED_SQL_NAME
           | Done true => Returned qname
           end
  end.

Definition dbms_assert_schema_name (arg : option text_datum) : Outcome text_datum :=
  match arg with
  | None => Raised INVALID_SCHEMA_NAME
  | Some sname =>
      if EMPTY_STR sname then Raised INVALID_SCHEMA_NAME
      else
        let nspname := text_to_cstring sname in
        match stringToQualifiedNameList nspname with
        | inl h => HostRaised h
        | inr names =>
            if negb (bool_decide (length names = 1)) then Raised INVALID_SCHEMA_NAME
            else
              let namespaceId := GetSysCacheOid (linitial names) in
              if negb (OidIsValid namespaceId) then Raised INVALID_SCHEMA_NAME
              else if negb (pg_namespace_aclcheck namespaceId)
              then Raised INVALID_SCHEMA_NAME
              else Returned sname
        end
  end.

Definition dbms_assert_simple_sql_name (arg : option text_datum) : Outcome text_datum :=
  match arg with
  | None => Raised ISNOT_SIMPLE_SQL_NAME
  | Some sname =>
      if EMPTY_STR sname then Raised ISNOT_SIMPLE_SQL_NAME
      else
        let len := Z.of_nat (length sname) in
        match check_sql_name sname len with
        | Crash f => Faulted f
        | Done false => Raised ISNOT_SIMPLE_SQL_NAME
        | Done true => Returned sname
        end
  end.

Definition dbms_assert_object_name (arg : option text_datum) : Outcome text_datum :=
  match arg with
  | None => Raised INVALID_OBJECT_NAME
  | Some str =>
      if EMPTY_STR str then Raised INVALID_OBJECT_NAME
      else
        let object_name := text_to_cstring str in
        match stringToQualifiedNameList object_name with
        | inl h => HostRaised h
        | inr names =>
            match RangeVarGetRelid names with
            | inl h => HostRaised h
            | inr classId =>
                if negb (OidIsValid classId) then Raised INVALID_OBJECT_NAME
                else Returned str
            end
        end
  end.

(** The four functions that validate, and the error each is documented
    to raise. *)
Inductive Check : Type := QualifiedSqlName | SimpleSqlName | SchemaName | ObjectName.

Definition run_check (k : Check) : option text_datum → Outcome text_datum :=
  match k with
  | QualifiedSqlName => dbms_assert_qualified_sql_name
  | SimpleSqlName => dbms_assert_simple_sql_name
  | SchemaName => dbms_assert_schema_name
  | ObjectName => dbms_assert_object_name
  end.

Definition error_of (k : Check) : ErrorKind :=
  match k with
  | QualifiedSqlName => ISNOT_QUALIFIED_SQL_NAME
  | SimpleSqlName => ISNOT_SIMPLE_SQL_NAME
  | SchemaName => INVALID_SCHEMA_NAME
  | ObjectName => INVALID_OBJECT_NAME
  end.

End Functions.

(** ** The functions, branch by branch *)

Section Runs.
Context `{CT : Ctype} `{HO : Host}.
Implicit Types (s qname sname str : text_datum) (arg : option text_datum).

Lemma EMPTY_STR_spec str : EMPTY_STR str = true ↔ str = [].
Proof. unfold EMPTY_STR. rewrite bool_decide_eq_true. apply length_zero_iff_nil. Qed.

Lemma EMPTY_STR_false str : str ≠ [] → EMPTY_STR str = false.
Proof. rewrite <- EMPTY_STR_spec. by destruct (EMPTY_STR str). Qed.

Lemma qualified_sql_name_run qname :
  qname ≠ [] →
  dbms_assert_qualified_sql_name (Some qname)
  = if is_qualified (cstring_of qname) then Returned qname
    else Raised ISNOT_QUALIFIED_SQL_NAME.
Proof.
  intros H. unfold dbms_assert_qualified_sql_name.
  rewrite ?EMPTY_STR_false by done. rewrite ParseIdentifierString_text.
  by destruct (is_qualified _).
Qed.

Lemma simple_sql_name_run sname :
  sname ≠ [] → sname ≠ [DQ] →
  dbms_assert_simple_sql_name (Some sname)
  = if accepts sname then Returned sname else Raised ISNOT_SIMPLE_SQL_NAME.
Proof.
  intros H1 H2. unfold dbms_assert_simple_sql_name.
  rewrite ?EMPTY_STR_false, check_sql_name_exact by done.
  by destruct (accepts _).
Qed.

Lemma simple_sql_name_quote :
  dbms_assert_simple_sql_name (Some [DQ]) = Faulted OutOfBounds.
Proof. done. Qed.

(** The outcomes of the two functions that consult the catalog, in the
    order of their tests. *)
Lemma schema_name_run sname :
  sname ≠ [] →
  dbms_assert_schema_name (Some sname)
  = match stringToQualifiedNameList (text_to_cstring sname) with
    | inl h => HostRaised h
    | inr [name] =>
        if OidIsValid (GetSysCacheOid name) && pg_namespace_aclcheck (GetSysCacheOid name)
        then Returned sname else Raised INVALID_SCHEMA_NAME
    | inr _ => Raised INVALID_SCHEMA_NAME
    end.
Proof.
  intros H. unfold dbms_assert_schema_name. rewrite EMPTY_STR_false by done.
  destruct (stringToQualifiedNameList _) as [h|[|name [|name' names]]]; try done.
  simpl. by destruct (OidIsValid _), (pg_namespace_aclcheck _).
Qed.

Lemma object_name_run str :
  str ≠ [] →
  dbms_assert_object_name (Some str)
  = match stringToQualifiedNameList (text_to_cstring str) with
    | inl h => HostRaised h
    | inr names =>
        match RangeVarGetRelid names with
        | inl h => HostRaised h
        | inr classId =>
            if OidIsValid classId then Returned str else Raised INVALID_OBJECT_NAME
        end
    end.
Proof.
  intros H. unfold dbms_assert_object_name. rewrite EMPTY_STR_false by done.
  destruct (stringToQualifiedNameList _) as [h|names]; [done|].
  destruct (RangeVarGetRelid names) as [h|classId]; [done|].
  by destruct (OidIsValid classId).
Qed.

Lemma OidIsValid_spec oid : OidIsValid oid = true ↔ oid ≠ InvalidOid.
Proof. unfold OidIsValid. by rewrite negb_true_iff, bool_decide_eq_false. Qed.

End Runs.

(** Rewrites a call on a non-empty argument to its outcome. *)
Ltac run_check_cases k s :=
  destruct k; unfold run_check;
  [rewrite (qualified_sql_name_run s) by done; destruct (is_qualified _)
  |destruct (decide (s = [DQ])) as [->|?];
    [rewrite simple_sql_name_quote
    |rewrite (simple_sql_name_run s) by done; destruct (accepts _)]
  |rewrite (schema_name_run s) by done;
    destruct (stringToQualifiedNameList _) as [?|[|? [|? ?]]];
    [| |destruct (OidIsValid _ && _)|]
  |rewrite (object_name_run s) by done;
    destruct (stringToQualifiedNameList _) as [?|?];
    [|destruct (RangeVarGetRelid _) as [?|?]; [|destruct (OidIsValid _)]]].

(** ** What the package promises *)

Section Contract.
Context `{CT : Ctype} `{HO : Host}.
Implicit Types (s r : text_datum) (arg : option text_datum) (k : Check).

(** C3. [qualified_sql_name] returns its argument exactly when it is not
    empty and is a qualified name of the grammar; it has no other way to
    return. *)
Theorem qualified_sql_name_accepts s :
  NUL ∉ s →
  dbms_assert_qualified_sql_name (Some s) = Returned s
  ↔ s ≠ [] ∧ ∃ nps, qualified s nps.
Proof.
  intros Hn. rewrite <- is_qualified_spec. destruct (decide (s = [])) as [->|Hs].
  - split; [done|by intros [? _]].
  - rewrite qualified_sql_name_run, cstring_of_id by done.
    destruct (is_qualified s); split; (done || by intros [_ ?]).
Qed.

(** C8. Copy-through: what a validating function returns is its argument,
    byte for byte. *)
Theorem checks_copy_through k arg r :
  run_check k arg = Returned r → arg = Some r.
Proof.
  destruct arg as [s|]; [|by destruct k].
  destruct (decide (s = [])) as [->|Hs]; [by destruct k|].
  run_check_cases k s; congruence.
Qed.

(** C9. The only fault of the package: a validating function leaves
    defined behaviour on one argument only, the name that is a lone quote
    given to [simple_sql_name], where [check_sql_name] reads the byte
    after the datum. *)
Theorem checks_fault k arg f :
  run_check k arg = Faulted f
  ↔ k = SimpleSqlName ∧ arg = Some [DQ] ∧ f = OutOfBounds.
Proof.
  split; [|by intros (-> & -> & ->)].
  destruct arg as [s|]; [|by destruct k].
  destruct (decide (s = [])) as [->|Hs]; [by destruct k|].
  run_check_cases k s; (done || by intros [= <-]).
Qed.

(** C10. An absent or empty argument is rejected by each validating
    function with the error of that function. *)
Theorem checks_null_or_empty k arg :
  arg = None ∨ arg = Some [] → run_check k arg = Raised (error_of k).
Proof. intros [-> | ->]; by destruct k. Qed.

(** C30. A validating function raises no error of the file but its
    own. *)
Theorem checks_raise_own_error k arg e :
  run_check k arg = Raised e → e = error_of k.
Proof.
  destruct arg as [s|]; [|destruct k; by intros [= <-]].
  destruct (decide (s = [])) as [->|Hs]; [destruct k; by intros [= <-]|].
  run_check_cases k s; (done || by intros [= <-]).
Qed.

(** C32. [simple_sql_name] on a name that does not start with a quote:
    accepted when it is a run of letters, digits and underscores, rejected
    with its own error otherwise. *)
Theorem simple_sql_name_unquoted c t :
  c ≠ DQ →
  dbms_assert_simple_sql_name (Some (c :: t))
  = if forallb ident_char (c :: t) then Returned (c :: t)
    else Raised ISNOT_SIMPLE_SQL_NAME.
Proof.
  intros Hc. rewrite simple_sql_name_run by congruence.
  unfold accepts. by rewrite decide_False.
Qed.

(** C33. [schema_name] returns its argument exactly when the host parses
    it to one name, the catalog has a schema of that name, and the user
    may use it. *)
Theorem schema_name_accepts s :
  dbms_assert_schema_name (Some s) = Returned s
  ↔ s ≠ [] ∧ ∃ name,
      stringToQualifiedNameList (text_to_cstring s) = inr [name]
      ∧ GetSysCacheOid name ≠ InvalidOid
      ∧ pg_namespace_aclcheck (GetSysCacheOid name) = true.
Proof.
  destruct (decide (s = [])) as [->|Hs]; [split; [done|by intros [? _]]|].
  rewrite schema_name_run by done. setoid_rewrite <- OidIsValid_spec.
  destruct (stringToQualifiedNameList _) as [h|[|name [|? ?]]];
    try (split; [done|by intros (_ & ? & [=] & _)]).
  destruct (OidIsValid _) eqn:E1, (pg_namespace_aclcheck _) eqn:E2; simpl;
    (split; [try done; by eauto 6|intros (_ & ? & [= <-] & ? & ?); congruence]).
Qed.

(** C34. [object_name] returns its argument exactly when the host parses
    it and resolves the names to a relation. *)
Theorem object_name_accepts s :
  dbms_assert_object_name (Some s) = Returned s
  ↔ s ≠ [] ∧ ∃ names classId,
      stringToQualifiedNameList (text_to_cstring s) = inr names
      ∧ RangeVarGetRelid names = inr classId ∧ classId ≠ InvalidOid.
Proof.
  destruct (decide (s = [])) as [->|Hs]; [split; [done|by intros [? _]]|].
  rewrite object_name_run by done. setoid_rewrite <- OidIsValid_spec.
  destruct (stringToQualifiedNameList _) as [h|names];
    [split; [done|by intros (_ & ? & ? & [=] & _)]|].
  destruct (RangeVarGetRelid names) as [h|classId] eqn:ER;
    [split; [done|intros (_ & ? & ? & [= <-] & ? & _); congruence]|].
  destruct (OidIsValid classId) eqn:E;
    (split; [try done; by eauto 7|intros (_ & ? & ? & [= <-] & ? & ?); congruence]).
Qed.

(** C35. The two functions that consult the catalog parse with the
    host's parser, not with [ParseIdentifierString]: an argument the host
    cannot parse ends the call with the host's error, which is none of the
    four of the file. *)
Theorem catalog_checks_host_error k s h :
  k = SchemaName ∨ k = ObjectName →
  stringToQualifiedNameList (text_to_cstring s) = inl h → s ≠ [] →
  run_check k (Some s) = HostRaised h.
Proof.
  intros [-> | ->] E Hs; unfold run_check.
  - by rewrite schema_name_run, E.
  - by rewrite object_name_run, E.
Qed.

(** C36. [qualified_sql_name] accepts a string of white space only: the
    guard of the function stops the empty string, not the string without a
    name. *)
Theorem qualified_sql_name_blank s :
  blank s → s ≠ [] → NUL ∉ s →
  dbms_assert_qualified_sql_name (Some s) = Returned s.
Proof.
  intros Hb Hs Hn. rewrite qualified_sql_name_run, cstring_of_id by done.
  apply parse_qualified_no_part in Hb. unfold is_qualified. by rewrite Hb.
Qed.

(** C28. A name that starts or ends with a dot is rejected by
    [qualified_sql_name]: a dot stands between two names. *)
Theorem qualified_sql_name_rejects_dot s :
  NUL ∉ s → head s = Some DOT ∨ last s = Some DOT →
  dbms_assert_qualified_sql_name (Some s) = Raised ISNOT_QUALIFIED_SQL_NAME.
Proof.
  intros Hn Hd. assert (Hs : s ≠ []) by (by destruct Hd, s).
  rewrite qualified_sql_name_run, cstring_of_id by done.
  destruct (is_qualified s) eqn:E; [|done]. apply is_qualified_spec in E as [nps Hq].
  by destruct (qualified_ends_not_dot _ _ _ Hq Hd).
Qed.

(** What [simple_sql_name] takes for a letter is what the locale
    takes for one: a name that is a non-empty run of characters of which
    [isalnum] holds is returned. *)
Lemma simple_sql_name_alnum t :
  t ≠ [] → Forall (λ c, isalnum c = true) t →
  dbms_assert_simple_sql_name (Some t) = Returned t.
Proof.
  intros Hne Hf. destruct t as [|c t]; [done|].
  assert (Hc : c ≠ DQ) by (intros ->; inversion Hf; by rewrite isalnum_DQ in *).
  rewrite simple_sql_name_run by congruence. unfold accepts.
  rewrite decide_False, (proj2 (forallb_forall _ _)); [done| |done].
  intros d Hd%list_elem_of_In. unfold ident_char.
  by rewrite (proj1 (Forall_forall _ _) Hf d Hd).
Qed.

(** C29. Where [qualified_sql_name] expects a name, at the start of the
    string or after a dot that follows names, and there is none, it
    raises its error: the string ends there, or what comes starts neither
    a quoted nor an unquoted name. *)
Theorem qualified_sql_name_expects_name ws p bad :
  blank ws → dotted p → no_name_ahead bad →
  p ++ bad ≠ [] → NUL ∉ ws ++ p ++ bad →
  dbms_assert_qualified_sql_name (Some (ws ++ p ++ bad)) = Raised ISNOT_QUALIFIED_SQL_NAME.
Proof.
  intros Hws Hp Hb Hne Hn.
  rewrite qualified_sql_name_run, cstring_of_id by (done || by intros [_ ?]%app_eq_nil).
  unfold is_qualified. by rewrite parse_qualified_no_name.
Qed.

End Contract.

(** ** A small host *)

Inductive ToyError : Type := InvalidNameSyntax | ImproperName.

(** The names the host leaves without quotes: a lower-case letter or an
    underscore, then lower-case letters, digits and underscores. *)
Definition safe_ident (t : list ascii) : bool :=
  match t with
  | [] => false
  | c :: r =>
      (c_islower c || bool_decide (c = UNDERSCORE))
      && forallb (λ d, c_islower d || c_isdigit d || bool_decide (d = UNDERSCORE)) r
  end.

(** A host whose name parser reads the names as the parser of the
    package delimits them and keeps their case, with the schemas [public]
    and [Sales Dept], which the user may use, and [secret], which the
    user may not, and the table [public.emp]. *)
#[export] Instance toy_host : Host := {|
  HostError := ToyError;
  quote_literal t := quoted SQ t;
  quote_ident t := if safe_ident t then t else quoted DQ t;
  lower t := tolower <$> t;
  stringToQualifiedNameList b :=
    match @delimited_names C_locale b with
    | Some (name :: names) => inr (name :: names)
    | _ => inl InvalidNameSyntax
    end;
  GetSysCacheOid name :=
    if decide (name = txt "public") then 2200%N
    else if decide (name = txt "secret") then 16384%N
    else if decide (name = txt "Sales Dept") then 16400%N else InvalidOid;
  pg_namespace_aclcheck oid := bool_decide (oid = 2200%N ∨ oid = 16400%N);
  RangeVarGetRelid names :=
    if decide (3 < length names) then inl ImproperName
    else if decide (names = [txt "public"; txt "emp"]) then inr 16385%N
    else inr InvalidOid;
|}.

(** ** The theorems at concrete arguments *)

Lemma qualified_sql_name_accepts_witness :
  dbms_assert_qualified_sql_name (Some (txt "public.emp")) = Returned (txt "public.emp").
Proof.
  apply (qualified_sql_name_accepts (txt "public.emp")); [by_compute|].
  split; [by intros [=]|].
  apply is_qualified_spec. vm_compute. reflexivity.
Defined.

Lemma checks_copy_through_witness :
  run_check SchemaName (Some (txt "public")) = Returned (txt "public")
  ∧ Some (txt "public") = Some (txt "public").
Proof.
  assert (H : run_check SchemaName (Some (txt "public")) = Returned (txt "public"))
    by (vm_compute; reflexivity).
  split; [exact H|]. exact (checks_copy_through SchemaName _ _ H).
Defined.

Lemma checks_null_or_empty_witness :
  run_check ObjectName None = Raised INVALID_OBJECT_NAME.
Proof. apply (checks_null_or_empty ObjectName None). by left. Defined.

Lemma checks_raise_own_error_witness :
  run_check SchemaName (Some (txt "secret")) = Raised INVALID_SCHEMA_NAME
  ∧ INVALID_SCHEMA_NAME = error_of SchemaName.
Proof.
  assert (H : run_check SchemaName (Some (txt "secret")) = Raised INVALID_SCHEMA_NAME)
    by (vm_compute; reflexivity).
  split; [exact H|]. exact (checks_raise_own_error SchemaName _ _ H).
Defined.

(** In an ISO 8859-1 locale the name of the one byte 233, the letter e
    with an acute accent, is a simple name. *)
Lemma simple_sql_name_unquoted_witness :
  @dbms_assert_simple_sql_name Latin1_locale toy_host (Some [ascii_of_nat 233])
  = Returned [ascii_of_nat 233].
Proof.
  exact (simple_sql_name_unquoted (CT:=Latin1_locale) (HO:=toy_host) (ascii_of_nat 233) []
           ltac:(by intros [=])).
Defined.

Lemma catalog_checks_host_error_witness :
  run_check ObjectName (Some (txt "public..emp")) = HostRaised InvalidNameSyntax.
Proof.
  apply (catalog_checks_host_error ObjectName (txt "public..emp"));
    [by right|vm_compute; reflexivity|by intros [=]].
Defined.

Lemma qualified_sql_name_blank_witness :
  dbms_assert_qualified_sql_name (Some (txt "  ")) = Returned (txt "  ").
Proof.
  apply (qualified_sql_name_blank (txt "  ")); [|by intros [=]|by_compute].
  repeat constructor.
Defined.

Lemma qualified_sql_name_rejects_dot_witness :
  dbms_assert_qualified_sql_name (Some (txt "schema.")) = Raised ISNOT_QUALIFIED_SQL_NAME.
Proof.
  apply (qualified_sql_name_rejects_dot (txt "schema.")); [by_compute|by right].
Defined.

(** The name [schema..table]: after the first dot, a dot. *)
Lemma qualified_sql_name_expects_name_witness :
  dbms_assert_qualified_sql_name (Some (txt "schema..table"))
  = Raised ISNOT_QUALIFIED_SQL_NAME.
Proof.
  apply (qualified_sql_name_expects_name [] (txt "schema.") (txt ".table"));
    [constructor| |by split_and!; [|done|left]|done|by_compute].
  apply (dotted_more (txt "schema") (Unquoted (txt "schema")) [] [] []);
    [|constructor..].
  apply name_unquoted; [done|repeat constructor].
Defined.

(** ** The scenarios of the specification, evaluated *)

(** The examples of section 8 of the specification, in the "C" locale:
    the code gives the outcome the specification states on each of them. *)
Example scenarios_agree :
  let q s := dbms_assert_qualified_sql_name (Some s) in
  let n s := dbms_assert_simple_sql_name (Some s) in
  q (txt "schema.table") = Returned (txt "schema.table")
  ∧ q (txt "schema..table") = Raised ISNOT_QUALIFIED_SQL_NAME
  ∧ q (txt "schema.") = Raised ISNOT_QUALIFIED_SQL_NAME
  ∧ q (DQ :: txt "My Table" ++ [DQ]) = Returned (DQ :: txt "My Table" ++ [DQ])
  ∧ q (txt "My Table") = Raised ISNOT_QUALIFIED_SQL_NAME
  ∧ q [] = Raised ISNOT_QUALIFIED_SQL_NAME
  ∧ n (txt "emp_1") = Returned (txt "emp_1")
  ∧ n (txt "emp-1") = Raised ISNOT_SIMPLE_SQL_NAME
  ∧ n (DQ :: txt "ab" ++ DQ :: txt "cd" ++ [DQ]) = Raised ISNOT_SIMPLE_SQL_NAME.
Proof. intros q n. subst q n. split_and!; vm_compute; reflexivity. Qed.

(** In the "C" locale no name with a byte of the upper half of the code
    page, outside quotes, is a simple name. *)
Example simple_sql_name_ascii c t :
  (128 ≤ nat_of_ascii c)%nat → c ∈ t → head t ≠ Some DQ →
  @dbms_assert_simple_sql_name C_locale toy_host (Some t) = Raised ISNOT_SIMPLE_SQL_NAME.
Proof.
  intros Hc Hin Hd. destruct t as [|d t]; [by apply elem_of_nil in Hin|].
  assert (d ≠ DQ) by (by intros ->).
  rewrite simple_sql_name_run by congruence. unfold accepts.
  rewrite decide_False by done.
  destruct (forallb ident_char (d :: t)) eqn:E; [|done].
  apply list_elem_of_In in Hin. apply (proj1 (forallb_forall _ _) E) in Hin.
  apply C_ident_char_ascii in Hin as [? _]. lia.
Qed.

(** The example on which code and specification differ: the name with a
    doubled quote inside. *)
Example scenario_differs :
  dbms_assert_simple_sql_name (Some (DQ :: txt "ab" ++ DQ :: DQ :: txt "cd" ++ [DQ]))
  = Raised ISNOT_SIMPLE_SQL_NAME
  ∧ is_simple_name (DQ :: txt "ab" ++ DQ :: DQ :: txt "cd" ++ [DQ]) = true.
Proof. split; vm_compute; reflexivity. Qed.
