(* ===== verification/Encoder.v ===== *)
(** * The quoting functions and the validators together

    [dbms_assert_enquote_literal] and [dbms_assert_enquote_name] hand
    their argument to [quote_literal], [quote_ident] and [lower] of the
    server.  The class [QuotingHost] states what the specification says of
    these three functions, in the terms of [Quoting], where the servers
    agree with it: the literal of a text with a backslash and the case
    folding of the locale are left open.  [toy_host] is an instance.
    Under these laws the theorems say what the two functions
    return and what the validators of the same package make of it:
    [qualified_sql_name] accepts every name the encoder produces and
    reads the original name back; [simple_sql_name] accepts it only when
    the name has no double quote; with [loweralize] the name that comes
    back is the folded one. *)

From S2P Require Import Prelude Ctype CString QualifiedName Quoting.
From S2P Require Import ParseIdent SimpleName DbmsAssert.

(** ** The laws of the host's quoting functions *)

(** [quote_literal] wraps a text without backslash in single quotes;
    what it does to a backslash is left to the host.  [quote_ident]
    leaves a name as it is or wraps it in double quotes; a name it leaves
    is a non-empty run of name characters that folding does not change.
    [lower] applies [fold] to every byte; [fold] is the case folding of
    the host's locale, of which the laws say only that it maps the double
    quote and the terminator, and nothing else, to themselves. *)
Class QuotingHost `{CT : Ctype} `{HO : Host} : Type := {
  fold : ascii → ascii;
  fold_DQ c : fold c = DQ ↔ c = DQ;
  fold_NUL c : fold c = NUL ↔ c = NUL;
  quote_literal_quoted t : BACKSLASH ∉ t → quote_literal t = quoted SQ t;
  quote_ident_cases t :
    (quote_ident t = t ∧ t ≠ [] ∧ Forall name_char t ∧ fold <$> t = t)
    ∨ quote_ident t = quoted DQ t;
  lower_fold t : lower t = fold <$> t;
}.

(** ** The toy host obeys the laws *)

Section Toy.

Lemma safe_char_name_char c :
  c_islower c || c_isdigit c || bool_decide (c = UNDERSCORE) = true
  → @name_char C_locale c ∧ tolower c = c.
Proof. ascii_cases c. Qed.

Lemma safe_ident_spec t :
  safe_ident t = true → t ≠ [] ∧ Forall (@name_char C_locale) t ∧ tolower <$> t = t.
Proof.
  destruct t as [|c r]; [done|]. cbn [safe_ident]. intros [Hc Hr]%andb_true_iff.
  assert (H : Forall (λ d, @name_char C_locale d ∧ tolower d = d) (c :: r)).
  { constructor.
    - apply safe_char_name_char.
      apply orb_true_iff in Hc as [-> | ->]; [done|apply orb_true_r].
    - apply Forall_forall. intros d Hd. apply safe_char_name_char.
      by apply (proj1 (forallb_forall _ _) Hr), list_elem_of_In. }
  apply Forall_and in H as [H1 H2]. split_and!; [done|done|by apply fmap_fixed].
Qed.

Lemma toy_quote_ident_cases t :
  (@quote_ident toy_host t = t ∧ t ≠ [] ∧ Forall (@name_char C_locale) t
   ∧ tolower <$> t = t)
  ∨ @quote_ident toy_host t = quoted DQ t.
Proof.
  simpl. destruct (safe_ident t) eqn:E; [left|by right].
  by split; [|apply safe_ident_spec].
Qed.

#[export] Instance toy_quoting : @QuotingHost C_locale toy_host := {|
  fold := tolower;
  fold_DQ := tolower_DQ;
  fold_NUL := tolower_NUL;
  quote_literal_quoted t _ := eq_refl;
  quote_ident_cases := toy_quote_ident_cases;
  lower_fold t := eq_refl;
|}.

End Toy.

(** ** One name, spelled and read back *)

Section Spelling.
Context `{CT : Ctype} `{HO : Host}.
Implicit Types (x y : text_datum) (np : NamePart) (c : ascii).

Lemma print_part_quoted x : print_part (Quoted x) = quoted DQ x.
Proof. unfold print_part, quoted. simpl. by rewrite escape_double. Qed.

Lemma elem_of_print_part c np : c ∈ print_part np → c = DQ ∨ c ∈ text np.
Proof.
  destruct np as [x []]; [|by right].
  intros H. apply elem_of_quoted. by rewrite <- print_part_quoted.
Qed.

Lemma print_part_not_nil np : part_ok np → print_part np ≠ [].
Proof. destruct np as [x []]; [done|]. intros H. by apply H. Qed.

(** The spelling of one well-formed part is a qualified name, of that
    part alone. *)
Lemma print_part_parses np :
  part_ok np → parse_qualified (print_part np) = Some [np].
Proof. intros H. apply (parse_print_names [np]); [done|by constructor]. Qed.

(** What [qualified_sql_name] and the parser make of the spelling. *)
Lemma print_part_run np :
  part_ok np → NUL ∉ text np →
  dbms_assert_qualified_sql_name (Some (print_part np)) = Returned (print_part np)
  ∧ delimited_names (text_to_cstring (print_part np)) = Some [text np].
Proof.
  intros Hok Hn. pose proof (print_part_parses np Hok) as E.
  assert (Hp : NUL ∉ print_part np) by (by intros [?|?]%elem_of_print_part).
  pose proof (cstr_at_text_to_cstring _ Hp) as Hb. split.
  - rewrite qualified_sql_name_run by by apply print_part_not_nil.
    rewrite cstring_of_id by done. unfold is_qualified. by rewrite E.
  - by rewrite (delimited_names_run _ _ Hb), E.
Qed.

Lemma name_chars_accepted x : x ≠ [] → Forall name_char x → accepts x = true.
Proof.
  intros Hne H. destruct x as [|c x]; [done|]. unfold accepts.
  rewrite decide_False by (apply name_char_not_DQ; by inversion H).
  apply forallb_forall. intros d Hd%list_elem_of_In.
  by destruct (proj1 (Forall_forall _ _) H d Hd).
Qed.

End Spelling.

(** ** What the encoders return, and what the validators make of it *)

Section Encoder.
Context `{QH : QuotingHost}.
Implicit Types (x y a b : text_datum).

Lemma part_ok_unquoted x : x ≠ [] → Forall name_char x → part_ok (Unquoted x).
Proof. by intros ? ? _. Qed.

(** C14. A name and its encoding by [enquote_name] without folding:
    [qualified_sql_name] accepts the encoding, and the parser reads the
    name back from it, as one part. *)
Theorem enquote_name_qualified x y :
  NUL ∉ x → dbms_assert_enquote_name x false = Returned y →
  dbms_assert_qualified_sql_name (Some y) = Returned y
  ∧ delimited_names (text_to_cstring y) = Some [x].
Proof.
  intros Hx [= <-]. destruct (quote_ident_cases x) as [(-> & Hne & Hc & _)| ->].
  - by apply (print_part_run (Unquoted x)); [apply part_ok_unquoted|].
  - rewrite <- print_part_quoted. by apply (print_part_run (Quoted x)).
Qed.

(** C21. With [loweralize] the result is the folding of the result
    without: the name is quoted first and folded second.  It is still a
    qualified name, but the name it spells is the folded one: the letters
    inside the quotes are folded too. *)
Theorem enquote_name_lowered x y :
  NUL ∉ x → dbms_assert_enquote_name x true = Returned y →
  (∃ y0, dbms_assert_enquote_name x false = Returned y0 ∧ y = fold <$> y0)
  ∧ dbms_assert_qualified_sql_name (Some y) = Returned y
  ∧ delimited_names (text_to_cstring y) = Some [fold <$> x].
Proof.
  intros Hx [= <-]. rewrite lower_fold. split; [by eexists|].
  destruct (quote_ident_cases x) as [(-> & Hne & Hc & ->)| ->].
  - by apply (print_part_run (Unquoted x)); [apply part_ok_unquoted|].
  - rewrite (fmap_quoted _ _ fold_DQ), <- print_part_quoted.
    refine (print_part_run (Quoted (fold <$> x)) _ _); [done|].
    simpl. by rewrite (elem_of_fmap_quote _ _ fold_NUL).
Qed.

(** C22. [simple_sql_name] accepts the encoding of a name that has no
    double quote. *)
Theorem enquote_name_simple x y :
  DQ ∉ x → dbms_assert_enquote_name x false = Returned y →
  dbms_assert_simple_sql_name (Some y) = Returned y.
Proof.
  intros Hx [= <-]. destruct (quote_ident_cases x) as [(-> & Hne & Hc & _)| ->].
  - rewrite simple_sql_name_run, name_chars_accepted; try done.
    intros ->. apply Hx. left.
  - unfold quoted. rewrite double_id by done.
    rewrite simple_sql_name_run by (by destruct x). unfold accepts.
    by rewrite decide_True, accepts_quoted_plain, bool_decide_eq_true_2.
Qed.

(** C20. [simple_sql_name] rejects the encoding of a name with a double
    quote that is not its last character: the pair that stands for the
    quote is read as the end of the name. *)
Theorem enquote_name_simple_rejected a b y :
  DQ ∉ a → DQ ∉ b → b ≠ [] →
  dbms_assert_enquote_name (a ++ DQ :: b) false = Returned y →
  dbms_assert_simple_sql_name (Some y) = Raised ISNOT_SIMPLE_SQL_NAME.
Proof.
  intros Ha Hb Hne [= <-].
  destruct (quote_ident_cases (a ++ DQ :: b)) as [(_ & _ & Hc & _)| ->].
  - apply Forall_app in Hc as [_ [Hq%name_char_not_DQ _]%Forall_cons]. done.
  - unfold quoted. rewrite double_app, double_cons_q, !double_id by done.
    rewrite <- app_assoc, <- !app_comm_cons, simple_sql_name_run by (by destruct a).
    unfold accepts. by rewrite decide_True, accepts_quoted_doubled.
Qed.


End Encoder.

(** ** The theorems on the toy host *)

Lemma enquote_name_qualified_witness :
  let y := quoted DQ (txt "my table") in
  dbms_assert_qualified_sql_name (Some y) = Returned y
  ∧ delimited_names (text_to_cstring y) = Some [txt "my table"].
Proof.
  apply (enquote_name_qualified (txt "my table")); [by_compute|reflexivity].
Defined.

(** The name [Emp] comes back as [emp]. *)
Lemma enquote_name_lowered_witness :
  let y := quoted DQ (txt "emp") in
  (∃ y0, dbms_assert_enquote_name (txt "Emp") false = Returned y0 ∧ y = tolower <$> y0)
  ∧ dbms_assert_qualified_sql_name (Some y) = Returned y
  ∧ delimited_names (text_to_cstring y) = Some [txt "emp"].
Proof.
  exact (enquote_name_lowered (txt "Emp") (quoted DQ (txt "emp"))
           ltac:(by_compute) eq_refl).
Defined.

Lemma enquote_name_simple_witness :
  dbms_assert_simple_sql_name (Some (quoted DQ (txt "my table")))
  = Returned (quoted DQ (txt "my table")).
Proof.
  apply (enquote_name_simple (txt "my table")); [by_compute|reflexivity].
Defined.

(** The name [a], a quote, [b]: its encoding is rejected. *)
Lemma enquote_name_simple_rejected_witness :
  dbms_assert_simple_sql_name (Some (quoted DQ (txt "a" ++ DQ :: txt "b")))
  = Raised ISNOT_SIMPLE_SQL_NAME.
Proof.
  apply (enquote_name_simple_rejected (txt "a") (txt "b"));
    [by_compute|by_compute|done|reflexivity].
Defined.

