(* ===== verification/Catalog.v ===== *)
(** * The functions that consult the catalog, under a contract

    [dbms_assert_schema_name] and [dbms_assert_object_name] hand the
    splitting of their argument to [stringToQualifiedNameList] of the
    server and look the names up in its catalog.  The class [CatalogHost]
    states of the splitting what the specification says: on a qualified
    name of the grammar of the package, with parts that fit a name of the
    catalog, it gives the names of the parts, an unquoted one with the
    case folding [downcase] of the server.  What the server makes of
    other strings is left open, as is every answer of the catalog.

    Under the contract the two functions are characterised on the
    qualified names by the answers of the catalog, and the package is
    followed from end to end: a name that went through [enquote_name] is
    looked up as itself. *)

From S2P Require Import Prelude Ctype CString QualifiedName Quoting.
From S2P Require Import ParseIdent SimpleName DbmsAssert Encoder.

(** ** The names of the catalog *)

(** The size of a name of the catalog, with its terminator. *)
Definition NAMEDATALEN : nat := 64.

(** The part fits a name of the catalog. *)
Definition short (np : NamePart) : Prop := length (text np) < NAMEDATALEN.

(** The identifier a part denotes: its text, folded by [f] when the part
    was written without quotes. *)
Definition ident_of (f : ascii → ascii) (np : NamePart) : list ascii :=
  if wasQuoted np then text np else f <$> text np.

(** The schema exists and the user may use it: the two tests of
    [dbms_assert_schema_name] after the splitting. *)
Definition usable `{Host} (name : list ascii) : bool :=
  OidIsValid (GetSysCacheOid name) && pg_namespace_aclcheck (GetSysCacheOid name).

(** ** The contract *)

(** [downcase] is the folding the server applies to an unquoted
    identifier; a name that [quote_ident] leaves without quotes is one it
    does not change.  [host_parses] is the splitting on the qualified
    names. *)
Class CatalogHost `{CT : Ctype} `{HO : Host} : Type := {
  downcase : ascii → ascii;
  downcase_bare t : quote_ident t = t → downcase <$> t = t;
  host_parses s nps :
    NUL ∉ s → qualified s nps → nps ≠ [] → Forall short nps →
    stringToQualifiedNameList (text_to_cstring s) = inr (ident_of downcase <$> nps);
}.

(** ** The toy host obeys the contract *)

Section Toy.

Lemma toy_host_parses s nps :
  NUL ∉ s → @qualified C_locale s nps → nps ≠ [] → Forall short nps →
  @stringToQualifiedNameList toy_host (text_to_cstring s) = inr (ident_of id <$> nps).
Proof.
  intros Hn Hq%parse_qualified_spec Hne _. simpl.
  rewrite (delimited_names_run _ s), Hq by by apply cstr_at_text_to_cstring.
  replace (ident_of id <$> nps) with (map text nps).
  - by destruct nps.
  - apply list_fmap_ext. intros _ [t []] _; unfold ident_of; simpl; [done|].
    by rewrite list_fmap_id.
Qed.

#[export] Instance toy_catalog : @CatalogHost C_locale toy_host := {|
  downcase := id;
  downcase_bare t _ := list_fmap_id t;
  host_parses := toy_host_parses;
|}.

End Toy.

(** Closes a goal on a list of parts given part by part. *)
Ltac solve_parts :=
  first [done | repeat (apply List.Forall_cons; [done|]); apply List.Forall_nil].

(** ** Printed names *)

Section Printed.
Context `{CT : Ctype}.
Implicit Types (np : NamePart) (nps : list NamePart) (c : ascii).

(** Printing adds quotes and dots to the characters of the parts. *)
Lemma elem_of_print_names c nps :
  c ∈ print_names nps → c = DQ ∨ c = DOT ∨ Exists (λ np, c ∈ text np) nps.
Proof.
  induction nps as [|np [|np' nps] IH].
  - by intros ?%elem_of_nil.
  - intros [?|?]%elem_of_print_part; [by left|]. right; right. by left.
  - cbn [print_names]. rewrite elem_of_app, elem_of_cons.
    intros [[?|?]%elem_of_print_part|[?|[?|[?|?]]%IH]]; auto.
Qed.

Lemma print_names_no_NUL nps : Forall (λ np, NUL ∉ text np) nps → NUL ∉ print_names nps.
Proof.
  intros H [?|[?|Hex]]%elem_of_print_names; [done..|].
  apply Exists_exists in Hex as (np & Hin & Hnp).
  by apply (proj1 (Forall_forall _ _) H np Hin).
Qed.

Lemma print_names_qualified nps :
  nps ≠ [] → Forall part_ok nps → qualified (print_names nps) nps.
Proof. intros. by apply parse_qualified_spec, parse_print_names. Qed.

Lemma print_names_not_nil nps : nps ≠ [] → Forall part_ok nps → print_names nps ≠ [].
Proof.
  intros Hne Hok E. apply print_names_qualified in Hok; [|done]. rewrite E in Hok.
  inversion Hok as [|ws s nps' _ Hn E']; [done|].
  apply app_eq_nil in E' as [_ ->]. by apply names_not_nil in Hn.
Qed.

End Printed.

(** ** The two functions on qualified names *)

Section Catalog.
Context `{CT : Ctype} `{HO : Host} {QH : QuotingHost} {CH : CatalogHost}.
Implicit Types (s x y a b : text_datum) (np : NamePart) (nps : list NamePart).

Lemma qualified_not_nil s nps : qualified s nps → nps ≠ [] → s ≠ [].
Proof.
  intros [ws|ws s' nps' _ Hn] Hne; [done|]. intros [_ ->]%app_eq_nil.
  by apply names_not_nil in Hn.
Qed.

(** The splitting on printed parts. *)
Lemma host_parses_printed nps :
  nps ≠ [] → Forall part_ok nps → Forall short nps →
  Forall (λ np, NUL ∉ text np) nps →
  stringToQualifiedNameList (text_to_cstring (print_names nps))
  = inr (ident_of downcase <$> nps).
Proof.
  intros. apply host_parses; auto using print_names_no_NUL, print_names_qualified.
Qed.

(** What [quote_ident] returns is the printing of one part, which
    denotes the name it was given. *)
Lemma quote_ident_part x :
  ∃ np, quote_ident x = print_part np ∧ part_ok np ∧ text np = x
        ∧ ident_of downcase np = x.
Proof.
  destruct (quote_ident_cases x) as [(E & Hne & Hc & _)|E].
  - exists (Unquoted x). split_and!; [done|by intros _|done|].
    by apply downcase_bare.
  - exists (Quoted x). by rewrite print_part_quoted.
Qed.

(** C23. [schema_name] on a qualified name of the grammar, under the
    contract of the server: the name has one part, and the catalog has a
    schema of the name it denotes that the user may use, or the function
    raises its error. *)
Theorem schema_name_qualified s nps :
  NUL ∉ s → qualified s nps → nps ≠ [] → Forall short nps →
  dbms_assert_schema_name (Some s)
  = match nps with
    | [np] =>
        if usable (ident_of downcase np) then Returned s
        else Raised INVALID_SCHEMA_NAME
    | _ => Raised INVALID_SCHEMA_NAME
    end.
Proof.
  intros Hn Hq Hne Hs. rewrite schema_name_run by eauto using qualified_not_nil.
  rewrite (host_parses s nps) by done. by destruct nps as [|np [|np' nps]].
Qed.

(** C24. [object_name] on a qualified name of the grammar, under the
    contract of the server: the outcome is the answer of the catalog for
    the names the parts denote. *)
Theorem object_name_qualified s nps :
  NUL ∉ s → qualified s nps → nps ≠ [] → Forall short nps →
  dbms_assert_object_name (Some s)
  = match RangeVarGetRelid (ident_of downcase <$> nps) with
    | inl h => HostRaised h
    | inr classId =>
        if OidIsValid classId then Returned s else Raised INVALID_OBJECT_NAME
    end.
Proof.
  intros Hn Hq Hne Hs. rewrite object_name_run by eauto using qualified_not_nil.
  by rewrite (host_parses s nps).
Qed.

(** C26. From end to end: a schema name and a table name that went
    through [enquote_name] are looked up as themselves.  [schema_name]
    on the encoded schema asks the catalog for the schema; [object_name]
    on the two encodings with a dot between asks it for the table of that
    schema. *)
Theorem catalog_checks_enquoted a b ya yb :
  NUL ∉ a → NUL ∉ b → length a < NAMEDATALEN → length b < NAMEDATALEN →
  dbms_assert_enquote_name a false = Returned ya →
  dbms_assert_enquote_name b false = Returned yb →
  dbms_assert_schema_name (Some ya)
  = (if usable a then Returned ya else Raised INVALID_SCHEMA_NAME)
  ∧ dbms_assert_object_name (Some (ya ++ DOT :: yb))
    = match RangeVarGetRelid [a; b] with
      | inl h => HostRaised h
      | inr classId =>
          if OidIsValid classId then Returned (ya ++ DOT :: yb)
          else Raised INVALID_OBJECT_NAME
      end.
Proof.
  intros Ha Hb Hla Hlb [= <-] [= <-].
  destruct (quote_ident_part a) as (npa & -> & Hoka & Eta & Eia).
  destruct (quote_ident_part b) as (npb & -> & Hokb & Etb & Eib).
  assert (Hsa : short npa) by (unfold short; by rewrite Eta).
  assert (Hsb : short npb) by (unfold short; by rewrite Etb).
  rewrite <- Eta in Ha. rewrite <- Etb in Hb. split.
  - rewrite schema_name_run by by apply print_part_not_nil.
    change (print_part npa) with (print_names [npa]).
    rewrite host_parses_printed by solve_parts.
    simpl. by rewrite Eia.
  - change (print_part npa ++ DOT :: print_part npb) with (print_names [npa; npb]).
    rewrite object_name_run by (apply print_names_not_nil; solve_parts).
    rewrite host_parses_printed by solve_parts.
    simpl. by rewrite Eia, Eib.
Qed.

End Catalog.

(** ** The theorems on the toy host *)

Lemma qualified_Sales_Dept :
  @qualified C_locale (quoted DQ (txt "Sales Dept")) [Quoted (txt "Sales Dept")].
Proof.
  rewrite <- print_part_quoted.
  by apply (print_names_qualified [Quoted (txt "Sales Dept")]); [|solve_parts].
Qed.

Lemma qualified_public_emp :
  @qualified C_locale (txt "public . emp") [Unquoted (txt "public"); Unquoted (txt "emp")].
Proof.
  apply (qualified_names [] _ _ ltac:(constructor)).
  apply (names_more (txt "public") _ (txt " ") (txt " ") (txt "emp"));
    [|by repeat constructor..|].
  - apply name_unquoted; [done|by repeat constructor].
  - apply (names_last (txt "emp") _ []); [|constructor].
    apply name_unquoted; [done|by repeat constructor].
Qed.

(** The schema [Sales Dept], written in quotes. *)
Lemma schema_name_qualified_witness :
  dbms_assert_schema_name (Some (quoted DQ (txt "Sales Dept")))
  = Returned (quoted DQ (txt "Sales Dept")).
Proof.
  exact (schema_name_qualified (quoted DQ (txt "Sales Dept")) [Quoted (txt "Sales Dept")]
           ltac:(by_compute) qualified_Sales_Dept ltac:(done)
           ltac:(constructor; [by_compute|constructor])).
Defined.

(** The table [emp] of the schema [public], with white space around the
    dot. *)
Lemma object_name_qualified_witness :
  dbms_assert_object_name (Some (txt "public . emp")) = Returned (txt "public . emp").
Proof.
  exact (object_name_qualified (txt "public . emp")
           [Unquoted (txt "public"); Unquoted (txt "emp")]
           ltac:(by_compute) qualified_public_emp ltac:(done)
           ltac:(repeat (constructor; [by_compute|]); constructor)).
Defined.

(** The schema [Sales Dept], which [enquote_name] puts in quotes, and
    its table [emp], which the catalog does not have. *)
Lemma catalog_checks_enquoted_witness :
  dbms_assert_schema_name (Some (quoted DQ (txt "Sales Dept")))
  = Returned (quoted DQ (txt "Sales Dept"))
  ∧ dbms_assert_object_name (Some (quoted DQ (txt "Sales Dept") ++ DOT :: txt "emp"))
    = Raised INVALID_OBJECT_NAME.
Proof.
  exact (catalog_checks_enquoted (txt "Sales Dept") (txt "emp") _ _
           ltac:(by_compute) ltac:(by_compute)
           ltac:(by_compute) ltac:(by_compute) eq_refl eq_refl).
Defined.
