(* ===== verification/Fmgr.v ===== *)
(** * The calling convention

    The seven functions of [src/assert.c] are registered with
    [PG_FUNCTION_INFO_V1] (lines 14-20): the server calls each of them
    with one argument, the call record, in which it has stored the values
    of the SQL arguments and, beside each value, whether the argument is
    NULL.  The functions read the record through the macros
    [PG_ARGISNULL], [PG_GETARG_DATUM], [PG_GETARG_TEXT_P] and
    [PG_GETARG_BOOL].

    [call] is the seven functions over the call record: the fetching of
    the arguments as each function does it, then the function of
    [DbmsAssert] on what was fetched.  The four validating functions test
    the NULL flag before they read the value; the three others read the
    value whatever the flag says.  A value read as a text is a pointer: a
    null pointer, or a value that is not a pointer to a datum, is a read
    outside every buffer. *)

From S2P Require Import Prelude Ctype CString QualifiedName Quoting.
From S2P Require Import ParseIdent SimpleName DbmsAssert Encoder.

(** ** Datums and the call record *)

(** The size of the header of a [text] datum, and the size the header
    records for a payload. *)
Definition VARHDRSZ : Z := 4.
Definition VARSIZE (t : text_datum) : Z := VARHDRSZ + Z.of_nat (length t).

(** A value handed to a function or returned by one: a pointer to a
    [text] datum, [None] for the null pointer, or a [bool]. *)
Inductive Datum : Type :=
  | PointerGetDatum (p : option text_datum)
  | BoolGetDatum (b : bool).

#[export] Instance Datum_eq_dec : EqDecision Datum.
Proof. solve_decision. Defined.

(** The call record: the slots [arg] with the flags [argnull].  Every
    slot holds some value, also the slot of a NULL argument and the slots
    after the last argument. *)
Record FunctionCallInfoData : Type := {
  arg : nat → Datum;
  argnull : nat → bool;
}.

Definition PG_ARGISNULL (n : nat) (fcinfo : FunctionCallInfoData) : bool :=
  argnull fcinfo n.

Definition PG_GETARG_DATUM (n : nat) (fcinfo : FunctionCallInfoData) : Datum :=
  arg fcinfo n.

(** [DatumGetBool]: the value is not zero. *)
Definition DatumGetBool (d : Datum) : bool :=
  match d with
  | BoolGetDatum b => b
  | PointerGetDatum p => bool_decide (p ≠ None)
  end.

(** [DatumGetTextP]: the datum the value points to, when it points to
    one. *)
Definition DatumGetTextP (d : Datum) : option text_datum :=
  match d with
  | PointerGetDatum p => p
  | BoolGetDatum _ => None
  end.

Definition PG_GETARG_BOOL (n : nat) (fcinfo : FunctionCallInfoData) : bool :=
  DatumGetBool (PG_GETARG_DATUM n fcinfo).

Definition PG_GETARG_TEXT_P (n : nat) (fcinfo : FunctionCallInfoData) : option text_datum :=
  DatumGetTextP (PG_GETARG_DATUM n fcinfo).

(** The call record of a call with the arguments [args]: a NULL argument
    is [None] and leaves a null pointer in its slot, as do the slots
    after the arguments. *)
Definition fcinfo_of (args : list (option Datum)) : FunctionCallInfoData := {|
  arg n := default (PointerGetDatum None) (mjoin (args !! n));
  argnull n := bool_decide (args !! n = Some None);
|}.

(** ** The functions the file registers *)

(** One constructor for each [PG_FUNCTION_INFO_V1] of lines 14-20. *)
Inductive SqlFunction : Type :=
  | Enquote_literal
  | Enquote_name
  | Noop
  | Qualified_sql_name
  | Schema_name
  | Simple_sql_name
  | Object_name.

#[export] Instance SqlFunction_eq_dec : EqDecision SqlFunction.
Proof. solve_decision. Defined.

(** The validating function an entry is, if it is one. *)
Definition validator (f : SqlFunction) : option Check :=
  match f with
  | Qualified_sql_name => Some QualifiedSqlName
  | Schema_name => Some SchemaName
  | Simple_sql_name => Some SimpleSqlName
  | Object_name => Some ObjectName
  | Enquote_literal | Enquote_name | Noop => None
  end.

Section Call.
Context `{CT : Ctype} `{HO : Host}.

(** [PG_RETURN_TEXT_P] and [PG_RETURN_DATUM] of a text. *)
Definition returns_text (o : Outcome text_datum) : Outcome Datum :=
  match o with
  | Returned t => Returned (PointerGetDatum (Some t))
  | Raised e => Raised e
  | HostRaised h => HostRaised h
  | Faulted f => Faulted f
  end.

(** A function that reads its first argument as a text without a test of
    the flag: [noop] with [PG_GETARG_TEXT_P], the two quoting functions
    in the function of the server to which they pass the value. *)
Definition unguarded (fcinfo : FunctionCallInfoData)
    (body : text_datum → Outcome text_datum) : Outcome Datum :=
  match PG_GETARG_TEXT_P 0 fcinfo with
  | Some t => returns_text (body t)
  | None => Faulted OutOfBounds
  end.

(** A validating function: the test of [PG_ARGISNULL], then the
    argument. *)
Definition guarded (fcinfo : FunctionCallInfoData)
    (body : option text_datum → Outcome text_datum) : Outcome Datum :=
  if PG_ARGISNULL 0 fcinfo then returns_text (body None)
  else unguarded fcinfo (λ t, body (Some t)).

(** The seven functions on a call record.  The fetches are those of
    line 140, of lines 161-162 and of line 187 for the three functions
    without test, and those of lines 211-214, 247-250, 325-328 and
    363-366 for the validating functions. *)
Definition call (f : SqlFunction) (fcinfo : FunctionCallInfoData) : Outcome Datum :=
  match f with
  | Enquote_literal => unguarded fcinfo dbms_assert_enquote_literal
  | Enquote_name =>
      unguarded fcinfo (λ name, dbms_assert_enquote_name name (PG_GETARG_BOOL 1 fcinfo))
  | Noop => unguarded fcinfo dbms_assert_noop
  | Qualified_sql_name => guarded fcinfo dbms_assert_qualified_sql_name
  | Schema_name => guarded fcinfo dbms_assert_schema_name
  | Simple_sql_name => guarded fcinfo dbms_assert_simple_sql_name
  | Object_name => guarded fcinfo dbms_assert_object_name
  end.

End Call.

(** ** Facts *)

Section Facts.
Context `{CT : Ctype} `{HO : Host}.
Implicit Types (f : SqlFunction) (fcinfo : FunctionCallInfoData) (t : text_datum)
  (k : Check) (d : Datum).

(** [EMPTY_STR] in the terms of the macro of line 40. *)
Lemma EMPTY_STR_VARSIZE t : EMPTY_STR t = bool_decide (VARSIZE t - VARHDRSZ = 0)%Z.
Proof. unfold EMPTY_STR, VARSIZE. apply bool_decide_ext. lia. Qed.

(** The counter [dbms_assert_simple_sql_name] computes fits an [int]
    when the datum is below the size limit of the server. *)
Lemma VARSIZE_int_range t :
  (VARSIZE t < 2 ^ 30)%Z →
  (- 2 ^ 31 ≤ VARSIZE t - VARHDRSZ - 2 ∧ VARSIZE t - VARHDRSZ ≤ 2 ^ 31 - 1)%Z.
Proof. unfold VARSIZE, VARHDRSZ. lia. Qed.

(** A validating function on a call record is the function of
    [DbmsAssert] on the argument. *)
Lemma call_validator f k fcinfo :
  validator f = Some k →
  call f fcinfo
  = if PG_ARGISNULL 0 fcinfo then Raised (error_of k)
    else match PG_GETARG_TEXT_P 0 fcinfo with
         | Some t => returns_text (run_check k (Some t))
         | None => Faulted OutOfBounds
         end.
Proof. destruct f; intros [= <-]; unfold call, guarded; by case_match. Qed.

(** A validating function called with one text. *)
Lemma call_validator_text f k t :
  validator f = Some k →
  call f (fcinfo_of [Some (PointerGetDatum (Some t))]) = returns_text (run_check k (Some t)).
Proof. intros Hf. by rewrite (call_validator f k). Qed.

(** The three other functions on a call record whose first slot points
    to a text. *)
Lemma call_unguarded f fcinfo t :
  validator f = None → PG_GETARG_DATUM 0 fcinfo = PointerGetDatum (Some t) →
  ∃ r, call f fcinfo = Returned (PointerGetDatum (Some r))
       ∧ (f = Noop → r = t).
Proof.
  intros Hf E. destruct f; try done; unfold call, unguarded, PG_GETARG_TEXT_P;
    rewrite E; simpl; by eexists.
Qed.

(** C27. The NULL flag: a validating function raises its error on a NULL
    argument, whatever the slot holds; the three other functions never
    test the flag, their outcome is that of the call with the same
    values and no NULL. *)
Theorem call_argnull f fcinfo :
  match validator f with
  | Some k => PG_ARGISNULL 0 fcinfo = true → call f fcinfo = Raised (error_of k)
  | None => call f fcinfo = call f {| arg := arg fcinfo; argnull := λ _, false |}
  end.
Proof.
  destruct (validator f) as [k|] eqn:E.
  - intros H. by rewrite (call_validator f k), H.
  - by destruct f.
Qed.

(** C25. The outcomes of the seven functions on an argument that is a
    text: only a validating function raises an error of the file, and it
    raises its own; only [schema_name] and [object_name] end with an
    error of the server; only [simple_sql_name] leaves defined behaviour,
    on the lone quote; a validating function and [noop] return the datum
    they were given. *)
Theorem call_outcomes f fcinfo t :
  PG_ARGISNULL 0 fcinfo = false →
  PG_GETARG_DATUM 0 fcinfo = PointerGetDatum (Some t) →
  match call f fcinfo with
  | Returned d => f = Enquote_literal ∨ f = Enquote_name ∨ d = PointerGetDatum (Some t)
  | Raised e => ∃ k, validator f = Some k ∧ e = error_of k
  | HostRaised _ => f = Schema_name ∨ f = Object_name
  | Faulted fl => f = Simple_sql_name ∧ t = [DQ] ∧ fl = OutOfBounds
  end.
Proof.
  intros Hn Ht. destruct (validator f) as [k|] eqn:E.
  - rewrite (call_validator f k), Hn by done. unfold PG_GETARG_TEXT_P. rewrite Ht. simpl.
    destruct (decide (t = [])) as [->|Hne]; [destruct f, k; naive_solver|].
    run_check_cases k t; simpl; destruct f; naive_solver.
  - destruct (call_unguarded f fcinfo t E Ht) as (r & -> & Hr).
    destruct f; naive_solver.
Qed.

End Facts.

(** ** A name through two calls *)

Section Pipeline.
Context `{QH : QuotingHost}.

(** The datum a call of [enquote_name] without folding returns for a
    name is returned again by [qualified_sql_name]: the result of the
    first call can be handed to the second as it is. *)
Lemma call_enquote_name_qualified fcinfo x :
  NUL ∉ x →
  PG_GETARG_DATUM 0 fcinfo = PointerGetDatum (Some x) →
  PG_GETARG_BOOL 1 fcinfo = false →
  ∃ d, call Enquote_name fcinfo = Returned d
       ∧ call Qualified_sql_name (fcinfo_of [Some d]) = Returned d.
Proof.
  intros Hx E0 E1. eexists. split.
  - unfold call, unguarded, PG_GETARG_TEXT_P. by rewrite E0, E1.
  - rewrite (call_validator_text _ QualifiedSqlName) by done. cbn [run_check].
    destruct (quote_ident_cases x) as [(-> & Hne & Hc & _)| ->].
    + destruct (print_part_run (Unquoted x)) as [E _]; [by apply part_ok_unquoted|done|].
      by rewrite (E : dbms_assert_qualified_sql_name (Some x) = Returned x).
    + rewrite <- print_part_quoted.
      destruct (print_part_run (Quoted x)) as [E _]; [done..|]. by rewrite E.
Qed.

End Pipeline.

(** ** The theorems on concrete calls *)

(** [qualified_sql_name(NULL)]. *)
Lemma call_argnull_witness :
  call Qualified_sql_name (fcinfo_of [None]) = Raised ISNOT_QUALIFIED_SQL_NAME.
Proof. by apply (call_argnull Qualified_sql_name (fcinfo_of [None])). Defined.

(** [noop('emp')]. *)
Lemma call_outcomes_witness :
  Noop = Enquote_literal ∨ Noop = Enquote_name
  ∨ PointerGetDatum (Some (txt "emp")) = PointerGetDatum (Some (txt "emp")).
Proof.
  exact (call_outcomes Noop (fcinfo_of [Some (PointerGetDatum (Some (txt "emp")))])
           (txt "emp") eq_refl eq_refl).
Defined.
